(** * cyberrank: the batch rank / entropy / light / karma engine (src/cuda/rank.cu)

    A shallow embedding of the CUDA kernels and of the host driver
    [calculate_rank], followed by the properties of the design document
    that concern them.

    Conventions of the embedding.
    - Device and host arrays are lists.  A read [a[i]] is [nth i a d]; the
      source never checks bounds (an out-of-range read is undefined there),
      so the theorems that depend on a read being in range say so.  A write
      [a[i] = v] is stdpp's [<[i:=v]> a].
    - Array positions and link counts ([uint64_t] indices, [uint32_t]
      counts) are [nat]: they index arrays that fit in memory.  Stake
      arithmetic is [uint64_t] arithmetic on [Z] with the wrap-around
      written out ([u64]); the one 32-bit truncation of an index
      ([compressedLinksIndex]) is written out as well ([u32]).
    - A data-parallel kernel (grid-stride loop over cids) is run as the
      sequential loop over [0 .. cidsSize); each cid touches its own slots
      only, so the schedule does not matter.
    - [double] arithmetic is a parameter ([Arith]): the kernels are written
      once and read either with IEEE-754 binary64 ([binary64], on the
      Standard Library's [spec_float]) or with exact real numbers
      ([exactR]), the latter for the statements the design document makes
      "in real arithmetic". *)

From Stdlib Require Import ZArith List Lia Bool Reals Lra.
From Stdlib Require Import Floats.SpecFloat.
From stdpp Require Import base list.

Open Scope Z_scope.

(** ** Machine integers *)

(** [uint64_t] arithmetic wraps modulo 2^64. *)
Definition u64 (z : Z) : Z := z mod 2 ^ 64.

(** Conversion of a [uint64_t] array position to [uint32_t]. *)
Definition u32 (n : nat) : nat := N.to_nat (N.of_nat n mod 2 ^ 32)%N.

(** ** Double-precision arithmetic *)

(** The operations on [double] that rank.cu uses.  [f_log2] is the CUDA
    math library's [log2]; it is not part of the repository. *)
Record Arith : Type := {
  dbl : Type;
  f_of_u64 : Z -> dbl;            (* __ull2double_rn, (double) of a uint64_t *)
  f_add : dbl -> dbl -> dbl;      (* +, __dadd_rn *)
  f_sub : dbl -> dbl -> dbl;      (* -, thrust::minus *)
  f_mul : dbl -> dbl -> dbl;      (* *, __dmul_rn *)
  f_div : dbl -> dbl -> dbl;      (* /, __ddiv_rn *)
  f_neg : dbl -> dbl;             (* unary - *)
  f_lt : dbl -> dbl -> bool;      (* < *)
  f_log2 : dbl -> dbl;            (* log2 *)
  f_zero : dbl;                   (* 0, 0.0 *)
  f_one : dbl                     (* 1.0 *)
}.

(** IEEE-754 binary64, round to nearest even. *)
Definition b64_of_Z (z : Z) : spec_float := binary_normalize 53 1024 z 0 false.

Definition binary64 (log2 : spec_float -> spec_float) : Arith := {|
  dbl := spec_float;
  f_of_u64 := b64_of_Z;
  f_add := SFadd 53 1024;
  f_sub := SFsub 53 1024;
  f_mul := SFmul 53 1024;
  f_div := SFdiv 53 1024;
  f_neg := SFopp;
  f_lt := SFltb;
  f_log2 := log2;
  f_zero := S754_zero false;
  f_one := b64_of_Z 1
|}.

(** Exact real arithmetic. *)
Definition Rltb (x y : R) : bool := if Rlt_dec x y then true else false.

Definition exactR : Arith := {|
  dbl := R;
  f_of_u64 := IZR;
  f_add := Rplus;
  f_sub := Rminus;
  f_mul := Rmult;
  f_div := Rdiv;
  f_neg := Ropp;
  f_lt := Rltb;
  f_log2 := fun x => (ln x / ln 2)%R;
  f_zero := 0%R;
  f_one := 1%R
|}.

(** A base-2 logarithm on binary64 that is exact wherever the exact result
    is an integer: on zeros, infinities, NaN, negative numbers and powers
    of two it returns the IEEE-754 result; on any other number it returns
    the integer part of the logarithm.  It is used only to run the kernels
    on concrete graphs whose weights are zeros or powers of two. *)
Definition log2_floor (x : spec_float) : spec_float :=
  match x with
  | S754_nan => S754_nan
  | S754_zero _ => S754_infinity true
  | S754_infinity false => S754_infinity false
  | S754_infinity true => S754_nan
  | S754_finite true _ _ => S754_nan
  | S754_finite false m e => b64_of_Z (Z.log2 (Zpos m) + e)
  end.

(** ** types.h *)

(** Modelled from the spec: types.h is not among the sources.  The struct
    has the two fields the kernels initialise and read: a compressed
    inbound link is a pair [(fromIndex, weight)]. *)
Record CompressedInLink (D : Type) : Type := {
  fromIndex : nat;
  weight : D
}.
Arguments Build_CompressedInLink {D} _ _.
Arguments fromIndex {D} _.
Arguments weight {D} _.

(** ** Host helpers *)

(** [cudaMemcpy(dst, src, n * sizeof(T), _)]: the first [n] elements of
    [dst] are replaced by those of [src]. *)
Definition cudaMemcpy {T : Type} (dst src : list T) (n : nat) : list T :=
  take n src ++ drop n dst.

(** [getLinksStartIndex]: exclusive prefix sums of [linksCount]; returns
    the start indices together with the total. *)
Definition getLinksStartIndex (cidsSize : nat) (linksCount : list nat)
  : list nat * nat :=
  fold_left
    (fun '(linksStartIndex, index) i =>
       (linksStartIndex ++ [index], (index + nth i linksCount 0)%nat))
    (seq 0 cidsSize) ([], 0%nat).

(** The index range [start, start + count) of a cid's links. *)
Definition links_of (linksStartIndex linksCount : list nat) (i : nat) : list nat :=
  seq (nth i linksStartIndex 0%nat) (nth i linksCount 0%nat).

Section Kernels.

Variable A : Arith.
Local Abbreviation D := (dbl A).
Local Notation "0.0" := (f_zero A).

(** ** Kernels *)

(** [ddiv_rn]: the quotient of two [uint64_t] as a double. *)
Definition ddiv_rn (a b : Z) : D := f_div A (f_of_u64 A a) (f_of_u64 A b).

(** [calculateCidTotalOutStake]: for every cid the (wrapping) sum of the
    stakes of the users of its links.  Called once with the outbound and
    once with the inbound view. *)
Definition calculateCidTotalOutStake (cidsSize : nat) (stakes : list Z)
    (outLinksStartIndex outLinksCount outLinksUsers : list nat) : list Z :=
  map (fun i =>
         fold_left
           (fun totalOutStake j => u64 (totalOutStake + nth (nth j outLinksUsers 0%nat) stakes 0))
           (links_of outLinksStartIndex outLinksCount i) 0)
      (seq 0 cidsSize).

(** [calculateCyberlinksLocalWeights]: writes the local weight of every
    link of every cid into [cyberlinksLocalWeights]. *)
Definition calculateCyberlinksLocalWeights (cidsSize : nat) (stakes : list Z)
    (outLinksStartIndex outLinksCount outLinksUsers : list nat)
    (cidsTotalOutStakes cidsTotalInStakes : list Z)
    (cyberlinksLocalWeights : list D) : list D :=
  fold_left
    (fun ws i =>
       let oil := u64 (nth i cidsTotalOutStakes 0 + nth i cidsTotalInStakes 0) in
       fold_left
         (fun ws j =>
            let weight := ddiv_rn (nth (nth j outLinksUsers 0%nat) stakes 0) oil in
            <[j := weight]> ws)
         (links_of outLinksStartIndex outLinksCount i) ws)
    (seq 0 cidsSize) cyberlinksLocalWeights.

(** One term of the entropy accumulation:
    [nodeLinksEntropy -= __dmul_rn(weight, log2(weight))]. *)
Definition entropy_step (stakes : list Z) (outLinksUsers : list nat) (oil : Z)
    (nodeLinksEntropy : D) (j : nat) : D :=
  let weight := ddiv_rn (nth (nth j outLinksUsers 0%nat) stakes 0) oil in
  let logw := f_log2 A weight in
  f_sub A nodeLinksEntropy (f_mul A weight logw).

(** [calculateNodeEntropy]: the entropy of every cid over one of its two
    link slices, normalised by [oil]. *)
Definition calculateNodeEntropy (cidsSize : nat) (stakes : list Z)
    (outLinksStartIndex outLinksCount outLinksUsers : list nat)
    (cidsTotalOutStakes cidsTotalInStakes : list Z) : list D :=
  map (fun i =>
         let oil := u64 (nth i cidsTotalOutStakes 0 + nth i cidsTotalInStakes 0) in
         fold_left (entropy_step stakes outLinksUsers oil)
           (links_of outLinksStartIndex outLinksCount i) 0.0)
      (seq 0 cidsSize).

(** [mulArrays] and [sumArrays]. *)
Definition mulArrays (size : nat) (in1 in2 : list D) : list D :=
  map (fun tx => f_mul A (nth tx in1 0.0) (nth tx in2 0.0)) (seq 0 size).

Definition sumArrays (size : nat) (in1 in2 : list D) : list D :=
  map (fun tx => f_add A (nth tx in1 0.0) (nth tx in2 0.0)) (seq 0 size).

(** [getCompressedInLinksCount]: the number of runs of equal sources in
    the inbound slice of every cid. *)
Definition getCompressedInLinksCount (cidsSize : nat)
    (inLinksStartIndex inLinksCount inLinksOuts : list nat) : list nat :=
  map (fun i =>
         if (nth i inLinksCount 0 =? 0)%nat then 0%nat
         else
           fold_left
             (fun compressedLinksCount j =>
                if (j =? nth i inLinksStartIndex 0)%nat
                   || negb (nth j inLinksOuts 0 =? nth (j - 1) inLinksOuts 0)%nat
                then S compressedLinksCount else compressedLinksCount)
             (links_of inLinksStartIndex inLinksCount i) 0%nat)
      (seq 0 cidsSize).

(** The state of the emit loop of [getCompressedInLinks] for one cid: the
    output array, [compressedLinksIndex] and [compressedLinkStake]. *)
Definition emit_state : Type := (list (CompressedInLink D) * nat * Z)%type.

Definition emit_step (cidsTotalOutStakes : list Z)
    (inLinksOuts inLinksUsers : list nat) (stakes : list Z)
    (lastLinkIndex : nat) (st : emit_state) (j : nat) : emit_state :=
  let '(compressedInLinks, compressedLinksIndex, compressedLinkStake) := st in
  let compressedLinkStake := u64 (compressedLinkStake + nth (nth j inLinksUsers 0%nat) stakes 0) in
  if (j =? lastLinkIndex)%nat
     || negb (nth j inLinksOuts 0 =? nth (j + 1) inLinksOuts 0)%nat
  then
    let oppositeCid := nth j inLinksOuts 0%nat in
    let weight := ddiv_rn compressedLinkStake (nth oppositeCid cidsTotalOutStakes 0) in
    (<[compressedLinksIndex := Build_CompressedInLink oppositeCid weight]> compressedInLinks,
     u32 (compressedLinksIndex + 1), 0)
  else (compressedInLinks, compressedLinksIndex, compressedLinkStake).

(** The body of [getCompressedInLinks] for cid [i]. *)
Definition getCompressedInLinks_cid (cidsTotalOutStakes : list Z)
    (inLinksStartIndex inLinksCount inLinksOuts inLinksUsers : list nat)
    (stakes : list Z) (compressedInLinksStartIndex : list nat)
    (compressedInLinks : list (CompressedInLink D)) (i : nat)
  : list (CompressedInLink D) :=
  if (nth i inLinksCount 0 =? 0)%nat then compressedInLinks
  else
    let compressedLinksIndex := u32 (nth i compressedInLinksStartIndex 0%nat) in
    if (nth i inLinksCount 0 =? 1)%nat then
      let oppositeCid := nth (nth i inLinksStartIndex 0%nat) inLinksOuts 0%nat in
      let compressedLinkStake :=
        nth (nth (nth i inLinksStartIndex 0%nat) inLinksUsers 0%nat) stakes 0 in
      let weight := ddiv_rn compressedLinkStake (nth oppositeCid cidsTotalOutStakes 0) in
      <[compressedLinksIndex := Build_CompressedInLink oppositeCid weight]> compressedInLinks
    else
      let lastLinkIndex := (nth i inLinksStartIndex 0 + nth i inLinksCount 0 - 1)%nat in
      fst (fst (fold_left
                  (emit_step cidsTotalOutStakes inLinksOuts inLinksUsers stakes lastLinkIndex)
                  (links_of inLinksStartIndex inLinksCount i)
                  (compressedInLinks, compressedLinksIndex, 0))).

(** [getCompressedInLinks]. *)
Definition getCompressedInLinks (cidsSize : nat) (cidsTotalOutStakes : list Z)
    (inLinksStartIndex inLinksCount inLinksOuts inLinksUsers : list nat)
    (stakes : list Z) (compressedInLinksStartIndex : list nat)
    (compressedInLinks : list (CompressedInLink D)) : list (CompressedInLink D) :=
  fold_left
    (getCompressedInLinks_cid cidsTotalOutStakes inLinksStartIndex inLinksCount
       inLinksOuts inLinksUsers stakes compressedInLinksStartIndex)
    (seq 0 cidsSize) compressedInLinks.

(** [calculateKarma]: launched with a single thread. *)
Definition calculateKarma (cidsSize : nat)
    (outLinksStartIndex outLinksCount outLinksUsers : list nat)
    (cyberlinksLocalWeights light karma : list D) : list D :=
  fold_left
    (fun karma i =>
       fold_left
         (fun karma j =>
            let u := nth j outLinksUsers 0%nat in
            <[u := f_add A (nth u karma 0.0)
                     (f_mul A (nth i light 0.0) (nth j cyberlinksLocalWeights 0.0))]> karma)
         (links_of outLinksStartIndex outLinksCount i) karma)
    (seq 0 cidsSize) karma.

(** The inner sum of [run_rank_iteration] for one cid. *)
Definition ksum_of (inLinks : list (CompressedInLink D)) (prevRank : list D)
    (inLinksStartIndex inLinksCount : list nat) (i : nat) : D :=
  fold_left
    (fun ksum j =>
       let l := nth j inLinks (Build_CompressedInLink 0%nat 0.0) in
       f_add A (f_mul A (nth (fromIndex l) prevRank 0.0) (weight l)) ksum)
    (links_of inLinksStartIndex inLinksCount i) 0.0.

(** [run_rank_iteration]: one power-method step from [prevRank] into
    [rank]; the links are the compressed inbound links. *)
Definition run_rank_iteration (inLinks : list (CompressedInLink D))
    (prevRank rank : list D) (rankSize : nat)
    (inLinksStartIndex inLinksCount : list nat)
    (defaultRankWithCorrection dampingFactor : D) : list D :=
  fold_left
    (fun rank i =>
       if (nth i inLinksCount 0 =? 0)%nat then rank
       else
         let ksum := ksum_of inLinks prevRank inLinksStartIndex inLinksCount i in
         <[i := f_add A (f_mul A ksum dampingFactor) defaultRankWithCorrection]> rank)
    (seq 0 rankSize) rank.

(** The functor [absolute_value] and [thrust::maximum<double>]. *)
Definition absolute_value (x : D) : D := if f_lt A x 0.0 then f_neg A x else x.

Definition maximum (lhs rhs : D) : D := if f_lt A lhs rhs then rhs else lhs.

(** [find_max_ranks_diff]: the reduction is run left to right from the
    initial value [0.0]. *)
Definition find_max_ranks_diff (prevRank newRank : list D) (rankSize : nat) : D :=
  let ranksDiff :=
    map (fun i => f_sub A (nth i prevRank 0.0) (nth i newRank 0.0)) (seq 0 rankSize) in
  fold_left (fun acc x => maximum acc (absolute_value x)) ranksDiff 0.0.

(** ** The host driver *)

(** The while loop of STEP6.  [fuel] bounds the number of iterations the
    model runs; [None] means the loop was still running when it ran out. *)
Fixpoint rank_loop (fuel : nat) (inLinks : list (CompressedInLink D)) (cidsSize : nat)
    (inLinksStartIndex inLinksCount : list nat)
    (defaultRankWithCorrection dampingFactor tolerance : D)
    (d_rank d_prevRank : list D) (change : D) : option (list D * list D) :=
  if f_lt A tolerance change then
    match fuel with
    | O => None
    | S fuel =>
        (* swap(d_rank, d_prevRank) *)
        let '(d_rank, d_prevRank) := (d_prevRank, d_rank) in
        let d_rank :=
          run_rank_iteration inLinks d_prevRank d_rank cidsSize
            inLinksStartIndex inLinksCount defaultRankWithCorrection dampingFactor in
        let change := find_max_ranks_diff d_prevRank d_rank cidsSize in
        rank_loop fuel inLinks cidsSize inLinksStartIndex inLinksCount
          defaultRankWithCorrection dampingFactor tolerance d_rank d_prevRank change
    end
  else Some (d_rank, d_prevRank).

(** The four caller-owned output buffers. *)
Record Outputs : Type := {
  rank : list D;
  entropy : list D;
  light : list D;
  karma : list D
}.

(** What STEP0 - STEP5 of [calculate_rank] compute. *)
Record Prepared : Type := {
  inLinksStartIndex_h : list nat;
  d_cidsTotalOutStakes : list Z;
  d_cidsTotalInStakes : list Z;
  d_entropy : list D;
  d_cyberlinksLocalWeights : list D;
  d_compressedInLinksStartIndex : list nat;
  d_compressedInLinksCount : list nat;
  d_compressedInLinks : list (CompressedInLink D);
  outLinksStartIndex_h : list nat;
  defaultRank : D;
  defaultRankWithCorrection_h : D
}.

(** STEP0 - STEP5 of [calculate_rank].  (The auxiliary S_i / Q_j / chi
    entropy buffers of the source are computed, printed and freed; they
    feed none of the outputs and are left out.) *)
Definition prepare (stakes : list Z) (cidsSize linksSize : nat)
    (inLinksCount outLinksCount inLinksOuts inLinksUsers outLinksUsers : list nat)
    (dampingFactor : D) : Prepared :=
  (* STEP0 *)
  let inLinksStartIndex := fst (getLinksStartIndex cidsSize inLinksCount) in
  let outLinksStartIndex := fst (getLinksStartIndex cidsSize outLinksCount) in
  (* STEP1 *)
  let d_cidsTotalOutStakes :=
    calculateCidTotalOutStake cidsSize stakes outLinksStartIndex outLinksCount outLinksUsers in
  let d_cidsTotalInStakes :=
    calculateCidTotalOutStake cidsSize stakes inLinksStartIndex inLinksCount inLinksUsers in
  (* entropy: outbound side, inbound side, sum *)
  let d_entropy_out :=
    calculateNodeEntropy cidsSize stakes outLinksStartIndex outLinksCount outLinksUsers
      d_cidsTotalOutStakes d_cidsTotalInStakes in
  let d_entropy_in :=
    calculateNodeEntropy cidsSize stakes inLinksStartIndex inLinksCount inLinksUsers
      d_cidsTotalOutStakes d_cidsTotalInStakes in
  let d_entropy := sumArrays cidsSize d_entropy_out d_entropy_in in
  (* local weights; the buffer comes from cudaMalloc *)
  let d_cyberlinksLocalWeights :=
    calculateCyberlinksLocalWeights cidsSize stakes outLinksStartIndex outLinksCount
      outLinksUsers d_cidsTotalOutStakes d_cidsTotalInStakes (replicate linksSize 0.0) in
  (* STEP2, STEP3 *)
  let d_compressedInLinksCount :=
    getCompressedInLinksCount cidsSize inLinksStartIndex inLinksCount inLinksOuts in
  let compressedInLinksStartIndex :=
    fst (getLinksStartIndex cidsSize d_compressedInLinksCount) in
  let compressedInLinksSize :=
    snd (getLinksStartIndex cidsSize d_compressedInLinksCount) in
  (* STEP4; the buffer comes from cudaMalloc *)
  let d_compressedInLinks :=
    getCompressedInLinks cidsSize d_cidsTotalOutStakes inLinksStartIndex inLinksCount
      inLinksOuts inLinksUsers stakes compressedInLinksStartIndex
      (replicate compressedInLinksSize (Build_CompressedInLink 0%nat 0.0)) in
  (* STEP5 *)
  let defaultRank := f_div A (f_sub A (f_one A) dampingFactor) (f_of_u64 A (Z.of_nat cidsSize)) in
  let danglingNodesSize :=
    length (filter (fun i => nth i inLinksCount 0%nat = 0%nat) (seq 0 cidsSize)) in
  let innerProductOverSize :=
    f_mul A defaultRank
      (f_div A (f_of_u64 A (Z.of_nat danglingNodesSize)) (f_of_u64 A (Z.of_nat cidsSize))) in
  let defaultRankWithCorrection :=
    f_add A (f_mul A dampingFactor innerProductOverSize) defaultRank in
  {| inLinksStartIndex_h := inLinksStartIndex;
     d_cidsTotalOutStakes := d_cidsTotalOutStakes;
     d_cidsTotalInStakes := d_cidsTotalInStakes;
     d_entropy := d_entropy;
     d_cyberlinksLocalWeights := d_cyberlinksLocalWeights;
     d_compressedInLinksStartIndex := compressedInLinksStartIndex;
     d_compressedInLinksCount := d_compressedInLinksCount;
     d_compressedInLinks := d_compressedInLinks;
     outLinksStartIndex_h := outLinksStartIndex;
     defaultRank := defaultRank;
     defaultRankWithCorrection_h := defaultRankWithCorrection |}.

(** STEP7 - STEP9 of [calculate_rank], from the device rank the loop left. *)
Definition finish (p : Prepared) (cidsSize stakesSize : nat)
    (outLinksCount outLinksUsers : list nat) (out : Outputs) (d_rank : list D) : Outputs :=
  let rank_h := cudaMemcpy (rank out) d_rank cidsSize in
  (* STEP7 *)
  let d_light := mulArrays cidsSize d_rank (d_entropy p) in
  let light_h := cudaMemcpy (light out) d_light cidsSize in
  (* STEP8 *)
  let d_karma := take stakesSize (karma out) in
  let d_karma :=
    calculateKarma cidsSize (outLinksStartIndex_h p) outLinksCount outLinksUsers
      (d_cyberlinksLocalWeights p) d_light d_karma in
  let karma_h := cudaMemcpy (karma out) d_karma stakesSize in
  {| rank := rank_h; entropy := entropy out; light := light_h; karma := karma_h |}.

(** [calculate_rank].  [out] holds the caller's four output buffers as
    they are on entry; the result holds them as they are on return. *)
Definition calculate_rank (fuel : nat) (stakes : list Z) (stakesSize cidsSize linksSize : nat)
    (inLinksCount outLinksCount outLinksIns inLinksOuts inLinksUsers outLinksUsers : list nat)
    (dampingFactor tolerance : D) (out : Outputs) : option Outputs :=
  let p := prepare stakes cidsSize linksSize inLinksCount outLinksCount
             inLinksOuts inLinksUsers outLinksUsers dampingFactor in
  (* STEP5: rank[i] = defaultRank *)
  let out := {| rank := replicate cidsSize (defaultRank p) ++ drop cidsSize (rank out);
                entropy := entropy out; light := light out; karma := karma out |} in
  (* STEP6 *)
  let d_rank := take cidsSize (rank out) in
  let d_prevRank := take cidsSize (rank out) in
  let change := f_add A tolerance (f_one A) in
  match rank_loop fuel (d_compressedInLinks p) cidsSize
          (d_compressedInLinksStartIndex p) (d_compressedInLinksCount p)
          (defaultRankWithCorrection_h p) dampingFactor tolerance d_rank d_prevRank change with
  | None => None
  | Some (d_rank, _) =>
      Some (finish p cidsSize stakesSize outLinksCount outLinksUsers out d_rank)
  end.

End Kernels.

Arguments rank {A} _.
Arguments entropy {A} _.
Arguments light {A} _.
Arguments karma {A} _.
Arguments inLinksStartIndex_h {A} _.
Arguments d_cidsTotalOutStakes {A} _.
Arguments d_cidsTotalInStakes {A} _.
Arguments d_entropy {A} _.
Arguments d_cyberlinksLocalWeights {A} _.
Arguments d_compressedInLinksStartIndex {A} _.
Arguments d_compressedInLinksCount {A} _.
Arguments d_compressedInLinks {A} _.
Arguments outLinksStartIndex_h {A} _.
Arguments defaultRank {A} _.
Arguments defaultRankWithCorrection_h {A} _.

(** ** Concrete graphs *)

Module Scenario.

(** binary64 with the logarithm that is exact on powers of two. *)
Definition B : Arith := binary64 log2_floor.

Definition pzero : spec_float := S754_zero false.
Definition half : spec_float := S754_finite false 4503599627370496 (-53).
Definition one : spec_float := S754_finite false 4503599627370496 (-52).
Definition two : spec_float := S754_finite false 4503599627370496 (-51).
Definition quarter : spec_float := S754_finite false 4503599627370496 (-54).
Definition eighth : spec_float := S754_finite false 4503599627370496 (-55).
Definition three_quarters : spec_float := S754_finite false 6755399441055744 (-53).
Definition minus_one : spec_float := S754_finite true 4503599627370496 (-52).

(** Output buffers as a caller hands them over: all zero. *)
Definition zeroed (log2 : spec_float -> spec_float) (cids users : nat)
  : Outputs (binary64 log2) :=
  Build_Outputs (binary64 log2) (replicate cids pzero) (replicate cids pzero)
    (replicate cids pzero) (replicate users pzero).

End Scenario.

(** ** Vocabulary of the statements *)

(** The (cid, link index) pairs in the order in which a loop over the cids
    and, for each cid, over its links visits them. *)
Definition visits (cidsSize : nat) (linksStartIndex linksCount : list nat)
  : list (nat * nat) :=
  flat_map (fun i => map (pair i) (links_of linksStartIndex linksCount i)) (seq 0 cidsSize).

(** The links among [vs] that user [u] authored. *)
Definition authored_by (linksUsers : list nat) (u : nat) (vs : list (nat * nat))
  : list (nat * nat) :=
  filter (fun v => nth (snd v) linksUsers 0%nat = u) vs.

(** The exclusive prefix sum of the link counts at cid [i]. *)
Fixpoint links_before (linksCount : list nat) (i : nat) : nat :=
  match i with
  | O => 0%nat
  | S k => (links_before linksCount k + nth k linksCount 0)%nat
  end.

Definition sumR (l : list R) : R := fold_right Rplus 0%R l.

Definition sumZ (l : list Z) : Z := fold_right Z.add 0 l.

(** The stake behind link [j] of a view whose authors are [linksUsers]. *)
Definition stake_of (stakes : list Z) (linksUsers : list nat) (j : nat) : Z :=
  nth (nth j linksUsers 0%nat) stakes 0.

(** [light[i] * cyberlinksLocalWeights[j]] for the visit [(i, j)]: the term
    [calculateKarma] adds to the karma of the link's author. *)
Definition karma_term (A : Arith) (light ws : list (dbl A)) (v : nat * nat) : dbl A :=
  f_mul A (nth (fst v) light (f_zero A)) (nth (snd v) ws (f_zero A)).

(** The compressed links the emit loop of [getCompressedInLinks] produces
    for the link indices [js], entered with accumulated stake [acc], and
    the stake left in the accumulator. *)
Fixpoint emitted (A : Arith) (cidsTotalOutStakes : list Z)
    (inLinksOuts inLinksUsers : list nat) (stakes : list Z) (lastLinkIndex : nat)
    (js : list nat) (acc : Z) : list (CompressedInLink (dbl A)) * Z :=
  match js with
  | [] => ([], acc)
  | j :: js =>
      let acc := u64 (acc + stake_of stakes inLinksUsers j) in
      if (j =? lastLinkIndex)%nat
         || negb (nth j inLinksOuts 0 =? nth (j + 1) inLinksOuts 0)%nat
      then
        let oppositeCid := nth j inLinksOuts 0%nat in
        let rest := emitted A cidsTotalOutStakes inLinksOuts inLinksUsers stakes
                      lastLinkIndex js 0 in
        (Build_CompressedInLink oppositeCid
           (ddiv_rn A acc (nth oppositeCid cidsTotalOutStakes 0)) :: fst rest,
         snd rest)
      else emitted A cidsTotalOutStakes inLinksOuts inLinksUsers stakes lastLinkIndex js acc
  end.

(** The compressed links of cid [i]. *)
Definition compressed_of (A : Arith) (cidsTotalOutStakes : list Z)
    (inLinksStartIndex inLinksCount inLinksOuts inLinksUsers : list nat) (stakes : list Z)
    (i : nat) : list (CompressedInLink (dbl A)) :=
  if (nth i inLinksCount 0 =? 0)%nat then []
  else if (nth i inLinksCount 0 =? 1)%nat then
    let j := nth i inLinksStartIndex 0%nat in
    let oppositeCid := nth j inLinksOuts 0%nat in
    [Build_CompressedInLink oppositeCid
       (ddiv_rn A (stake_of stakes inLinksUsers j) (nth oppositeCid cidsTotalOutStakes 0))]
  else
    fst (emitted A cidsTotalOutStakes inLinksOuts inLinksUsers stakes
           (nth i inLinksStartIndex 0 + nth i inLinksCount 0 - 1)%nat
           (links_of inLinksStartIndex inLinksCount i) 0).

(** The number of positions [j] in [s, s + m) whose source differs from
    the source of the next link. *)
Fixpoint source_changes (inLinksOuts : list nat) (s m : nat) : nat :=
  match m with
  | O => 0%nat
  | S m =>
      ((if (nth s inLinksOuts 0 =? nth (s + 1) inLinksOuts 0)%nat then 0 else 1)
       + source_changes inLinksOuts (S s) m)%nat
  end.

(** [weight * totalOutStake[source]] of a compressed link, in exact
    arithmetic: the stake that backs the link. *)
Definition backing_stake (cidsTotalOutStakes : list Z) (l : CompressedInLink R) : R :=
  (weight l * IZR (nth (fromIndex l) cidsTotalOutStakes 0%Z))%R.

(** NaN test on binary64. *)
Definition is_nan (x : spec_float) : bool :=
  match x with S754_nan => true | _ => false end.

(** ** Vocabulary of binary64 rounding *)

(** [rne m n]: [m / 2^n] rounded to the nearest integer, ties to even. *)
Definition rne (m n : Z) : Z :=
  if n <=? 0 then m
  else
    let q := m / 2 ^ n in
    let r := m mod 2 ^ n in
    let h := 2 ^ (n - 1) in
    if r <? h then q else if h <? r then q + 1 else if Z.even q then q else q + 1.

(** The exponent binary64 gives a number of magnitude [2^e]. *)
Definition fexp64 (e : Z) : Z := Z.max (e - 53) (-1074).

(** The float with mantissa [q] (at most 2^53) and exponent [E]. *)
Definition pack (q E : Z) : spec_float :=
  match q with
  | Z0 => S754_zero false
  | Zpos p =>
      if q =? 2 ^ 53 then
        if E + 1 <=? 971 then S754_finite false 4503599627370496 (E + 1)
        else S754_infinity false
      else if E <=? 971 then S754_finite false p E else S754_infinity false
  | Zneg _ => S754_nan
  end.

(** The level of +infinity; NaN sits one above. *)
Definition inf_level : Z := 2 ^ 2098.

(** A non-negative binary64 datum in canonical form (NaN included). *)
Definition nonneg64 (x : spec_float) : bool :=
  match x with
  | S754_zero s => negb s
  | S754_infinity s => negb s
  | S754_nan => true
  | S754_finite s m e => negb s && bounded 53 1024 m e
  end.

(** The position of a non-negative datum in the order
    0 < subnormals < normals < +infinity < NaN, as an integer: a finite
    number [m * 2^e] sits at [m * 2^(e + 1074)]. *)
Definition level (x : spec_float) : Z :=
  match x with
  | S754_zero _ => 0
  | S754_finite _ m e => Zpos m * 2 ^ (e + 1074)
  | S754_infinity _ => inf_level
  | S754_nan => inf_level + 1
  end.

(** The level of the binary64 nearest to [U * 2^(-2148)]. *)
Definition round53 (U : Z) : Z :=
  let E := fexp64 (Zdigits2 U - 2148) in
  Z.min (rne U (E + 2148) * 2 ^ (E + 1074)) inf_level.

(** Mantissa and exponent fit together as in a canonical float. *)
Definition fits (q E : Z) : Prop :=
  0 <= q <= 2 ^ 53 /\ -1074 <= E /\ (E = -1074 \/ 2 ^ 52 <= q).

(** +0 or NaN. *)
Definition zero_or_nan (x : spec_float) : bool :=
  match x with S754_zero false | S754_nan => true | _ => false end.

(** ** Vocabulary of the termination argument *)

(** The reads of two rank buffers, the first below the second: every
    slot (a slot out of range reads as +0) holds canonical non-negative
    data, the level does not go down, and a +0 stays +0 or becomes NaN. *)
Definition reads_below (x x' : list spec_float) : Prop :=
  forall c,
    nonneg64 (nth c x (S754_zero false)) = true
    /\ nonneg64 (nth c x' (S754_zero false)) = true
    /\ level (nth c x (S754_zero false)) <= level (nth c x' (S754_zero false))
    /\ (nth c x (S754_zero false) = S754_zero false ->
        zero_or_nan (nth c x' (S754_zero false)) = true).

(** The sum of the levels of the first [n] slots. *)
Definition level_sum (x : list spec_float) (n : nat) : Z :=
  sumZ (map (fun c => level (nth c x (S754_zero false))) (seq 0 n)).

(** What the ping-pong pair of rank buffers satisfies at the head of the
    loop, when the loop runs on non-negative data: [update x c] stands for
    the value [run_rank_iteration] assigns to slot [c] from the buffer
    [x], and [r0] for the value both buffers start from. *)
Definition loop_invariant (update : list spec_float -> nat -> spec_float)
    (cidsSize : nat) (count : list nat) (r0 : spec_float)
    (cur prev : list spec_float) : Prop :=
  length cur = cidsSize /\ length prev = cidsSize /\
  forall c, (c < cidsSize)%nat ->
    let a := nth c prev (S754_zero false) in
    let b := nth c cur (S754_zero false) in
    nonneg64 a = true /\ nonneg64 b = true
    /\ level r0 <= level a /\ level a <= level b
    /\ (nth c count 0%nat = 0%nat -> b = a)
    /\ (nth c count 0%nat <> 0%nat -> level b <= level (update prev c))
    /\ (r0 = S754_zero false -> zero_or_nan a = true /\ zero_or_nan b = true).

(** ** The S_i, Q_j and chi kernels *)

Section Diagnostics.

Variable A : Arith.
Local Abbreviation D := (dbl A).
Local Notation "0.0" := (f_zero A).

(** [fabs] of the CUDA math library. *)
Variable fabs : D -> D.

(** [calculate_SI]: [d_si[tx] = damping * in[tx] + (1 - damping) * out[tx]]
    for [tx < size]. *)
Definition calculate_SI (size : nat) (out in_ : list Z) (damping : D) : list D :=
  map (fun tx =>
         f_add A (f_mul A damping (f_of_u64 A (nth tx in_ 0)))
           (f_mul A (f_sub A (f_one A) damping) (f_of_u64 A (nth tx out 0))))
      (seq 0 size).

(** [calculate_QJ]: every link [j] of the slice of cid [i] adds
    [damping * si[inLinksOuts[j]]] to [qj[i]]. *)
Definition calculate_QJ (cidsSize : nat) (outLinksStartIndex outLinksCount inLinksOuts : list nat)
    (si : list D) (damping : D) (qj : list D) : list D :=
  fold_left
    (fun qj i =>
       fold_left
         (fun qj j =>
            <[i := f_add A (nth i qj 0.0)
                     (f_mul A damping (nth (nth j inLinksOuts 0%nat) si 0.0))]> qj)
         (links_of outLinksStartIndex outLinksCount i) qj)
    (seq 0 cidsSize) qj.

(** [calculate_ENT]: every link [j] of the slice of cid [i] adds
    [|w * log2 w|] with [w = si[i] / qj[inLinksOuts[j]]] to [ent[i]]. *)
Definition calculate_ENT (cidsSize : nat) (outLinksStartIndex outLinksCount inLinksOuts : list nat)
    (si qj ent : list D) : list D :=
  fold_left
    (fun ent i =>
       fold_left
         (fun ent j =>
            let weight := f_div A (nth i si 0.0) (nth (nth j inLinksOuts 0%nat) qj 0.0) in
            let logw := f_log2 A weight in
            <[i := f_add A (nth i ent 0.0) (fabs (f_mul A weight logw))]> ent)
         (links_of outLinksStartIndex outLinksCount i) ent)
    (seq 0 cidsSize) ent.

End Diagnostics.

(** The [float] literals [0.8f] and [0.2f], as the [double] arguments they
    are converted to. *)
Definition float_0_8 : spec_float := S754_finite false 7205759511166976 (-53).
Definition float_0_2 : spec_float := S754_finite false 7205759511166976 (-55).

(** The buffers of the S_i / Q_j / chi stage of [calculate_rank]. *)
Record Diagnostics : Type := {
  d_si : list spec_float;
  d_qj_in : list spec_float;
  d_qj_out : list spec_float;
  d_qj_sum : list spec_float;
  d_ent_chi : list spec_float
}.

(** The S_i / Q_j / chi stage of [calculate_rank] on binary64: what the
    kernels leave in the five buffers before they are freed.  (The host
    prints the first 21 slots of four of them; the printing is not
    modelled.) *)
Definition diagnostics (log2 : spec_float -> spec_float)
    (stakes : list Z) (cidsSize linksSize : nat)
    (inLinksCount outLinksCount outLinksIns inLinksOuts inLinksUsers outLinksUsers : list nat)
    (dampingFactor : spec_float) : Diagnostics :=
  let A := binary64 log2 in
  let p := prepare A stakes cidsSize linksSize inLinksCount outLinksCount inLinksOuts
             inLinksUsers outLinksUsers dampingFactor in
  let d_si :=
    calculate_SI A cidsSize (d_cidsTotalOutStakes p) (d_cidsTotalInStakes p) dampingFactor in
  (* cudaMemset(d_qj_in, 0, ...) *)
  let d_qj_in :=
    calculate_QJ A cidsSize (inLinksStartIndex_h p) inLinksCount inLinksOuts d_si float_0_8
      (replicate cidsSize (S754_zero false)) in
  let d_qj_out :=
    calculate_QJ A cidsSize (outLinksStartIndex_h p) outLinksCount outLinksIns d_si float_0_2
      (replicate cidsSize (S754_zero false)) in
  let d_qj_sum := sumArrays A cidsSize d_qj_out d_qj_in in
  (* cudaMemset(d_ent_chi, 0, ...); the kernel runs on the inbound, then on
     the outbound view *)
  let d_ent_chi :=
    calculate_ENT A SFabs cidsSize (inLinksStartIndex_h p) inLinksCount inLinksOuts
      d_si d_qj_sum (replicate cidsSize (S754_zero false)) in
  let d_ent_chi :=
    calculate_ENT A SFabs cidsSize (outLinksStartIndex_h p) outLinksCount outLinksIns
      d_si d_qj_sum d_ent_chi in
  {| d_si := d_si; d_qj_in := d_qj_in; d_qj_out := d_qj_out; d_qj_sum := d_qj_sum;
     d_ent_chi := d_ent_chi |}.

(** Two cids, three users with the stakes 1, 1 and 5; the users 0 and 1
    each authored one link 0 -> 1, the user 2 none.  The caller's buffers
    hold leftovers, one slot more than the graph has cids. *)
Module Example.

Definition out : Outputs Scenario.B :=
  Build_Outputs Scenario.B
    [Scenario.pzero; Scenario.pzero; Scenario.one] [Scenario.pzero; Scenario.pzero]
    [Scenario.pzero; Scenario.pzero; Scenario.two]
    [Scenario.pzero; Scenario.pzero; Scenario.two].

Definition out' : Outputs Scenario.B :=
  Build_Outputs Scenario.B
    [Scenario.two; Scenario.two; Scenario.one] [Scenario.one; Scenario.one]
    [Scenario.half; Scenario.half; Scenario.two]
    [Scenario.pzero; Scenario.pzero; Scenario.two].

(** 0.4375 *)
Definition seven_sixteenths : spec_float := S754_finite false 7881299347898368 (-54).

Definition res : Outputs Scenario.B :=
  Build_Outputs Scenario.B
    [Scenario.quarter; seven_sixteenths; Scenario.one] [Scenario.pzero; Scenario.pzero]
    [Scenario.quarter; seven_sixteenths; Scenario.two]
    [Scenario.eighth; Scenario.eighth; Scenario.two].

Definition run (o : Outputs Scenario.B) : option (Outputs Scenario.B) :=
  calculate_rank Scenario.B 10 [1; 1; 5] 3 2 2 [0; 2]%nat [2; 0]%nat [1; 1]%nat [0; 0]%nat
    [0; 1]%nat [0; 1]%nat Scenario.half Scenario.half o.

End Example.

(** ** Loops that write one slot per index *)

Section SlotWrites.

Context {T : Type}.
Implicit Types (arr : list T) (l : list nat).

(** A loop whose step [i] either leaves the array alone or assigns slot
    [i] does not change the slots it skips. *)
Lemma fold_skip_insert_other (skip : nat -> bool) (g : list T -> nat -> T) l arr c d :
  (c ∈ l -> skip c = true) ->
  nth c (fold_left (fun a i => if skip i then a else <[i := g a i]> a) l arr) d = nth c arr d.
Proof.
  revert arr. induction l as [|i l IH]; intros arr Hc; simpl; [done|].
  rewrite IH by (intros ?; apply Hc; by right).
  destruct (skip i) eqn:Hs; [done|].
  destruct (decide (i = c)) as [->|Hne].
  - rewrite Hc in Hs by left. discriminate.
  - rewrite !nth_lookup, list_lookup_insert_ne by done. done.
Qed.

Lemma fold_skip_insert_length (skip : nat -> bool) (g : list T -> nat -> T) l arr :
  length (fold_left (fun a i => if skip i then a else <[i := g a i]> a) l arr) = length arr.
Proof.
  revert arr. induction l as [|i l IH]; intros arr; simpl; [done|].
  rewrite IH. destruct (skip i); [done|]. apply length_insert.
Qed.

(** ... and a slot it does not skip holds the value assigned to it, when
    that value does not depend on the array being written. *)
Lemma fold_skip_insert_same (skip : nat -> bool) (g : nat -> T) l arr c d :
  c ∈ l -> skip c = false -> (c < length arr)%nat ->
  nth c (fold_left (fun a i => if skip i then a else <[i := g i]> a) l arr) d = g c.
Proof.
  revert arr. induction l as [|i l IH]; intros arr Hin Hs Hlen; [by apply elem_of_nil in Hin|].
  simpl. destruct (decide (c ∈ l)) as [Hl|Hl].
  - apply IH; [done|done|]. destruct (skip i); [done|]. by rewrite length_insert.
  - apply elem_of_cons in Hin as [->|?]; [|done].
    rewrite (fold_skip_insert_other skip (fun _ => g)) by done.
    rewrite Hs, nth_lookup, list_lookup_insert_eq by done. done.
Qed.

End SlotWrites.

(** ** The rank iteration *)

Section RankIteration.

Variable A : Arith.
Local Abbreviation D := (dbl A).

Lemma run_rank_iteration_length (inLinks : list (CompressedInLink D)) prevRank rank0
    rankSize start count (rc d : D) :
  length (run_rank_iteration A inLinks prevRank rank0 rankSize start count rc d) = length rank0.
Proof.
  unfold run_rank_iteration.
  apply (fold_skip_insert_length (fun i => (nth i count 0 =? 0)%nat)
           (fun _ i => f_add A (f_mul A (ksum_of A inLinks prevRank start count i) d) rc)).
Qed.

(** A cid without compressed inbound links is skipped: its slot of the
    new rank buffer keeps what it held. *)
Lemma run_rank_iteration_skips (inLinks : list (CompressedInLink D)) prevRank rank0
    rankSize start count (rc d : D) c dflt :
  nth c count 0%nat = 0%nat ->
  nth c (run_rank_iteration A inLinks prevRank rank0 rankSize start count rc d) dflt
  = nth c rank0 dflt.
Proof.
  intros Hc. unfold run_rank_iteration.
  apply (fold_skip_insert_other (fun i => (nth i count 0 =? 0)%nat)
           (fun _ i => f_add A (f_mul A (ksum_of A inLinks prevRank start count i) d) rc)).
  intros _. by apply Nat.eqb_eq.
Qed.

(** A cid with compressed inbound links gets [ksum * dampingFactor +
    defaultRankWithCorrection]. *)
Lemma run_rank_iteration_updates (inLinks : list (CompressedInLink D)) prevRank rank0
    rankSize start count (rc d : D) c dflt :
  (c < rankSize)%nat -> (c < length rank0)%nat -> nth c count 0%nat <> 0%nat ->
  nth c (run_rank_iteration A inLinks prevRank rank0 rankSize start count rc d) dflt
  = f_add A (f_mul A (ksum_of A inLinks prevRank start count c) d) rc.
Proof.
  intros Hc Hlen Hcount. unfold run_rank_iteration.
  apply (fold_skip_insert_same (fun i => (nth i count 0 =? 0)%nat)
           (fun i => f_add A (f_mul A (ksum_of A inLinks prevRank start count i) d) rc)).
  - apply elem_of_seq. lia.
  - by apply Nat.eqb_neq.
  - done.
Qed.

(** Both buffers of the ping-pong pair keep the value they were
    initialised with at every cid the iteration skips. *)
Lemma rank_loop_skipped_slots fuel (inLinks : list (CompressedInLink D)) cidsSize start count
    (rc d tol : D) d_rank d_prevRank change r p c (v dflt : D) :
  nth c count 0%nat = 0%nat ->
  nth c d_rank dflt = v -> nth c d_prevRank dflt = v ->
  rank_loop A fuel inLinks cidsSize start count rc d tol d_rank d_prevRank change = Some (r, p) ->
  nth c r dflt = v /\ nth c p dflt = v.
Proof.
  intros Hc. revert d_rank d_prevRank change.
  induction fuel as [|fuel IH]; intros d_rank d_prevRank change Hr Hp; simpl.
  - destruct (f_lt A tol change); [discriminate|]. intros [= <- <-]. done.
  - destruct (f_lt A tol change); [|intros [= <- <-]; done].
    apply IH; [|done]. by rewrite run_rank_iteration_skips.
Qed.

End RankIteration.

Section RankLoop.

Variable A : Arith.
Local Abbreviation D := (dbl A).

Lemma rank_loop_length fuel (inLinks : list (CompressedInLink D)) cidsSize start count
    (rc d tol : D) d_rank d_prevRank change r p n :
  length d_rank = n -> length d_prevRank = n ->
  rank_loop A fuel inLinks cidsSize start count rc d tol d_rank d_prevRank change = Some (r, p) ->
  length r = n /\ length p = n.
Proof.
  revert d_rank d_prevRank change.
  induction fuel as [|fuel IH]; intros d_rank d_prevRank change Hr Hp; simpl.
  - destruct (f_lt A tol change); [discriminate|]. intros [= <- <-]. done.
  - destruct (f_lt A tol change); [|intros [= <- <-]; done].
    apply IH; [|done]. by rewrite run_rank_iteration_length.
Qed.

Lemma cudaMemcpy_nth {T : Type} (dst src : list T) n c d :
  (c < n)%nat -> (c < length src)%nat -> nth c (cudaMemcpy dst src n) d = nth c src d.
Proof.
  intros Hc Hlen. unfold cudaMemcpy.
  rewrite app_nth1 by (rewrite length_take; lia).
  rewrite !nth_lookup, lookup_take_lt by done. done.
Qed.

Lemma take_initial_rank cidsSize (r0 : D) (rank0 : list D) :
  take cidsSize (replicate cidsSize r0 ++ drop cidsSize rank0) = replicate cidsSize r0.
Proof. apply take_app_length'. by rewrite length_replicate. Qed.

(** C1 (as amended).  A cid without compressed inbound links is skipped
    by every power-method iteration: the iteration leaves its slot of the
    new rank buffer as it was.  Both buffers are initialised with
    r0 = (1 - d) / N, so the rank [calculate_rank] returns for such a cid
    is r0, not the corrected default. *)
Theorem dangling_cid_keeps_default_rank
    (stakes : list Z) (stakesSize cidsSize linksSize : nat)
    (inLinksCount outLinksCount outLinksIns inLinksOuts inLinksUsers outLinksUsers : list nat)
    (dampingFactor : D) (c : nat) :
  let p := prepare A stakes cidsSize linksSize inLinksCount outLinksCount
             inLinksOuts inLinksUsers outLinksUsers dampingFactor in
  (c < cidsSize)%nat ->
  nth c (d_compressedInLinksCount p) 0%nat = 0%nat ->
  (forall (prevRank rank0 : list D) (dflt : D),
     nth c (run_rank_iteration A (d_compressedInLinks p) prevRank rank0 cidsSize
              (d_compressedInLinksStartIndex p) (d_compressedInLinksCount p)
              (defaultRankWithCorrection_h p) dampingFactor) dflt
     = nth c rank0 dflt)
  /\ (forall (fuel : nat) (tolerance : D) (out res : Outputs A),
        calculate_rank A fuel stakes stakesSize cidsSize linksSize inLinksCount outLinksCount
          outLinksIns inLinksOuts inLinksUsers outLinksUsers dampingFactor tolerance out
        = Some res ->
        nth c (rank res) (f_zero A) = defaultRank p).
Proof.
  intros p Hc Hcount. split.
  - intros. by apply run_rank_iteration_skips.
  - intros fuel tolerance out res. unfold calculate_rank. fold p. cbn [rank].
    rewrite take_initial_rank.
    destruct (rank_loop _ _ _ _ _ _ _ _ _ _ _ _) as [[r q]|] eqn:Hloop; [|discriminate].
    intros [= <-]. unfold finish. cbn [rank].
    pose proof (rank_loop_length _ _ _ _ _ _ _ _ _ _ _ _ _ cidsSize
                  (length_replicate _ _) (length_replicate _ _) Hloop) as [Hlen _].
    rewrite cudaMemcpy_nth by lia.
    eapply (rank_loop_skipped_slots A) in Hloop as [Hr _]; [exact Hr|exact Hcount| |].
    all: rewrite nth_lookup, lookup_replicate_2 by done; done.
Qed.

End RankLoop.

(** Two users, stakes 1 and 1, both linking cid 0 to cid 1; d = 0.5.
    Cid 0 has no inbound link. *)
Lemma dangling_cid_keeps_default_rank_witness :
  let p := prepare Scenario.B [1; 1] 2 2 [0; 2]%nat [2; 0]%nat [0; 0]%nat [0; 1]%nat
             [0; 1]%nat Scenario.half in
  (forall (prevRank rank0 : list spec_float) (dflt : spec_float),
     nth 0 (run_rank_iteration Scenario.B (d_compressedInLinks p) prevRank rank0 2
              (d_compressedInLinksStartIndex p) (d_compressedInLinksCount p)
              (defaultRankWithCorrection_h p) Scenario.half) dflt
     = nth 0 rank0 dflt)
  /\ (forall (fuel : nat) (tolerance : spec_float) (out res : Outputs Scenario.B),
        calculate_rank Scenario.B fuel [1; 1] 2 2 2 [0; 2]%nat [2; 0]%nat [1; 1]%nat
          [0; 0]%nat [0; 1]%nat [0; 1]%nat Scenario.half tolerance out
        = Some res ->
        nth 0 (rank res) Scenario.pzero = defaultRank p).
Proof.
  apply (dangling_cid_keeps_default_rank Scenario.B [1; 1] 2 2 2 [0; 2]%nat [2; 0]%nat
           [1; 1]%nat [0; 0]%nat [0; 1]%nat [0; 1]%nat Scenario.half 0%nat);
    [lia | reflexivity].
Defined.

(** C1 fails as stated.  On the graph above cid 0 has no compressed
    inbound link, the corrected default is 0.3125, and yet the iteration
    leaves 0.25 = r0 in its slot, which is also the rank returned. *)
Lemma corrected_default_not_written :
  let p := prepare Scenario.B [1; 1] 2 2 [0; 2]%nat [2; 0]%nat [0; 0]%nat [0; 1]%nat
             [0; 1]%nat Scenario.half in
  nth 0 (d_compressedInLinksCount p) 7%nat = 0%nat
  /\ defaultRank p = Scenario.quarter
  /\ defaultRankWithCorrection_h p = S754_finite false 5629499534213120 (-54)
  /\ SFeqb (defaultRank p) (defaultRankWithCorrection_h p) = false
  /\ nth 0 (run_rank_iteration Scenario.B (d_compressedInLinks p)
              [Scenario.quarter; Scenario.quarter] [Scenario.quarter; Scenario.quarter] 2
              (d_compressedInLinksStartIndex p) (d_compressedInLinksCount p)
              (defaultRankWithCorrection_h p) Scenario.half) S754_nan
     = Scenario.quarter
  /\ option_map rank
       (calculate_rank Scenario.B 10 [1; 1] 2 2 2 [0; 2]%nat [2; 0]%nat [1; 1]%nat
          [0; 0]%nat [0; 1]%nat [0; 1]%nat Scenario.half Scenario.half
          (Scenario.zeroed log2_floor 2 2))
     = Some [Scenario.quarter; S754_finite false 7881299347898368 (-54)].
Proof. vm_compute. repeat split. Qed.

(** ** The entropy output *)

(** C3.  [calculate_rank] computes the entropy field on the device
    ([d_entropy], which feeds [light]) and never copies it back: the
    caller's [entropy] buffer is returned exactly as it was passed in. *)
Theorem entropy_buffer_never_written (A : Arith) (fuel : nat)
    (stakes : list Z) (stakesSize cidsSize linksSize : nat)
    (inLinksCount outLinksCount outLinksIns inLinksOuts inLinksUsers outLinksUsers : list nat)
    (dampingFactor tolerance : dbl A) (out res : Outputs A) :
  calculate_rank A fuel stakes stakesSize cidsSize linksSize inLinksCount outLinksCount
    outLinksIns inLinksOuts inLinksUsers outLinksUsers dampingFactor tolerance out = Some res ->
  entropy res = entropy out.
Proof.
  unfold calculate_rank.
  destruct (rank_loop _ _ _ _ _ _ _ _ _ _ _ _) as [[r q]|]; [|discriminate].
  intros [= <-]. reflexivity.
Qed.

(** A run is identified by the four buffers it returns. *)
Lemma Some_outputs_eq (A : Arith) (x : option (Outputs A)) (r e l k : list (dbl A)) :
  option_map (fun o => (rank o, entropy o, light o, karma o)) x = Some (r, e, l, k) ->
  x = Some (Build_Outputs A r e l k).
Proof.
  destruct x as [[r' e' l' k']|]; simpl; [|discriminate]. by intros [= -> -> -> ->].
Qed.

(** On the two-author graph (stakes 1 and 1, d = 0.5, tolerance 0.5) the
    entropy of both cids is 1.0 on the device, and the caller's zeroed
    buffer comes back zeroed. *)
Lemma entropy_buffer_never_written_witness :
  entropy
    (Build_Outputs Scenario.B
       [Scenario.quarter; S754_finite false 7881299347898368 (-54)]
       [Scenario.pzero; Scenario.pzero]
       [Scenario.quarter; S754_finite false 7881299347898368 (-54)]
       [Scenario.eighth; Scenario.eighth])
  = entropy (Scenario.zeroed log2_floor 2 2).
Proof.
  apply (entropy_buffer_never_written Scenario.B 10 [1; 1] 2 2 2 [0; 2]%nat [2; 0]%nat
           [1; 1]%nat [0; 0]%nat [0; 1]%nat [0; 1]%nat Scenario.half Scenario.half).
  apply Some_outputs_eq. vm_compute. reflexivity.
Defined.

Lemma entropy_on_device_example :
  d_entropy (prepare Scenario.B [1; 1] 2 2 [0; 2]%nat [2; 0]%nat [0; 0]%nat [0; 1]%nat
               [0; 1]%nat Scenario.half)
  = [Scenario.one; Scenario.one].
Proof. vm_compute. reflexivity. Qed.

(** ** Zero stakes in the entropy kernel *)

Section ZeroStake.

Variable log2 : spec_float -> spec_float.
Hypothesis log2_zero : forall s, log2 (S754_zero s) = S754_infinity true.

Lemma entropy_step_zero_stake stakes users oil acc j :
  nth (nth j users 0%nat) stakes 0 = 0 ->
  entropy_step (binary64 log2) stakes users oil acc j = S754_nan.
Proof.
  intros Hz. unfold entropy_step, ddiv_rn. rewrite Hz. cbn.
  change (b64_of_Z 0) with (S754_zero false).
  destruct (b64_of_Z oil) as [s|s| |s m e]; cbn;
    rewrite ?log2_zero; cbn; by destruct acc.
Qed.

Lemma entropy_step_nan stakes users oil l :
  fold_left (entropy_step (binary64 log2) stakes users oil) l S754_nan = S754_nan.
Proof. induction l as [|j l IH]; simpl; [done|]. exact IH. Qed.

Lemma entropy_fold_zero_stake stakes users oil l acc j :
  j ∈ l -> nth (nth j users 0%nat) stakes 0 = 0 ->
  fold_left (entropy_step (binary64 log2) stakes users oil) l acc = S754_nan.
Proof.
  intros Hin Hz. apply list_elem_of_split in Hin as (l1 & l2 & ->).
  rewrite fold_left_app. cbn [fold_left].
  rewrite entropy_step_zero_stake by done. apply entropy_step_nan.
Qed.

Lemma calculateNodeEntropy_zero_stake cidsSize stakes start count users tout tin c j dflt :
  (c < cidsSize)%nat -> j ∈ links_of start count c ->
  nth (nth j users 0%nat) stakes 0 = 0 ->
  nth c (calculateNodeEntropy (binary64 log2) cidsSize stakes start count users tout tin) dflt
  = S754_nan.
Proof.
  intros Hc Hin Hz. unfold calculateNodeEntropy.
  rewrite nth_lookup, list_lookup_fmap, lookup_seq_lt by done. simpl.
  by eapply entropy_fold_zero_stake.
Qed.

Lemma calculateNodeEntropy_length (A : Arith) cidsSize stakes start count users tout tin :
  length (calculateNodeEntropy A cidsSize stakes start count users tout tin) = cidsSize.
Proof. unfold calculateNodeEntropy. by rewrite length_map, length_seq. Qed.

(** C5 (as amended).  The entropy kernel has no guard.  A link whose
    author has stake 0 contributes [w * log2 w] with [w = 0 / oil], which
    is NaN (0 times minus infinity, or 0 / 0 when oil is 0); the entropy
    of a cid with such a link in its outbound or in its inbound slice is
    therefore NaN. *)
Theorem zero_stake_makes_entropy_nan
    (stakes : list Z) (cidsSize linksSize : nat)
    (inLinksCount outLinksCount inLinksOuts inLinksUsers outLinksUsers : list nat)
    (dampingFactor dflt : spec_float) (c j : nat) :
  let p := prepare (binary64 log2) stakes cidsSize linksSize inLinksCount outLinksCount
             inLinksOuts inLinksUsers outLinksUsers dampingFactor in
  (c < cidsSize)%nat ->
  (j ∈ links_of (fst (getLinksStartIndex cidsSize outLinksCount)) outLinksCount c
   /\ nth (nth j outLinksUsers 0%nat) stakes 0 = 0)
  \/ (j ∈ links_of (fst (getLinksStartIndex cidsSize inLinksCount)) inLinksCount c
      /\ nth (nth j inLinksUsers 0%nat) stakes 0 = 0) ->
  nth c (d_entropy p) dflt = S754_nan.
Proof.
  intros p Hc Hj. subst p. unfold prepare. cbn [d_entropy]. unfold sumArrays.
  rewrite nth_lookup, list_lookup_fmap, lookup_seq_lt by done. simpl.
  destruct Hj as [[Hin Hz]|[Hin Hz]].
  - rewrite (calculateNodeEntropy_zero_stake _ _ _ _ _ _ _ c j) by done. done.
  - rewrite (calculateNodeEntropy_zero_stake _ _ _ _ inLinksUsers _ _ c j) by done.
    by destruct (nth c _ _).
Qed.

End ZeroStake.

(** One user with stake 0 linking cid 0 to cid 1. *)
Lemma zero_stake_makes_entropy_nan_witness :
  nth 0 (d_entropy (prepare Scenario.B [0] 2 1 [0; 1]%nat [1; 0]%nat [0]%nat [0]%nat [0]%nat
                      Scenario.half)) Scenario.pzero
  = S754_nan.
Proof.
  apply (zero_stake_makes_entropy_nan log2_floor (fun s => eq_refl) [0] 2 1 [0; 1]%nat
           [1; 0]%nat [0]%nat [0]%nat [0]%nat Scenario.half Scenario.pzero 0%nat 0%nat).
  - lia.
  - left. split; [|reflexivity]. vm_compute. left.
Defined.

(** C5 fails as stated.  With one user of stake 0 linking cid 0 to cid 1
    the kernel's term is NaN rather than 0: both entropies are NaN, and so
    are the light and the karma handed back to the caller. *)
Lemma zero_stake_entropy_not_finite :
  calculateNodeEntropy Scenario.B 2 [0] [0; 1]%nat [1; 0]%nat [0]%nat [0; 0] [0; 0]
  = [S754_nan; Scenario.pzero]
  /\ d_entropy (prepare Scenario.B [0] 2 1 [0; 1]%nat [1; 0]%nat [0]%nat [0]%nat [0]%nat
                  Scenario.half)
     = [S754_nan; S754_nan]
  /\ option_map (fun res => (light res, karma res))
       (calculate_rank Scenario.B 10 [0] 1 2 1 [0; 1]%nat [1; 0]%nat [1]%nat [0]%nat
          [0]%nat [0]%nat Scenario.half Scenario.half (Scenario.zeroed log2_floor 2 1))
     = Some ([S754_nan; S754_nan], [S754_nan]).
Proof. vm_compute. repeat split. Qed.

(** ** Scenario S4 *)

(** C9.  Two users with stakes 3 and 7 both link cid 0 to cid 1.  Total
    outbound stake of cid 0 is 10; compression yields one entry for cid 1,
    with source 0 and weight 10 / 10 = 1.0 (whatever the damping factor
    and the logarithm). *)
Theorem S4_two_authors_one_compressed_link
    (log2 : spec_float -> spec_float) (dampingFactor : spec_float) :
  let inLinksStartIndex := fst (getLinksStartIndex 2 [0; 2]%nat) in
  let outLinksStartIndex := fst (getLinksStartIndex 2 [2; 0]%nat) in
  let p := prepare (binary64 log2) [3; 7] 2 2 [0; 2]%nat [2; 0]%nat [0; 0]%nat [0; 1]%nat
             [0; 1]%nat dampingFactor in
  calculateCidTotalOutStake 2 [3; 7] outLinksStartIndex [2; 0]%nat [0; 1]%nat = [10; 0]
  /\ getCompressedInLinksCount 2 inLinksStartIndex [0; 2]%nat [0; 0]%nat = [0; 1]%nat
  /\ d_compressedInLinksCount p = [0; 1]%nat
  /\ d_compressedInLinksStartIndex p = [0; 0]%nat
  /\ d_compressedInLinks p = [Build_CompressedInLink 0%nat Scenario.one]
  /\ ddiv_rn (binary64 log2) (3 + 7) 10 = Scenario.one.
Proof. cbv zeta. repeat split; vm_compute; reflexivity. Qed.

(** ** Prefix sums and link slices *)

Lemma links_before_S count i :
  links_before count (S i) = (links_before count i + nth i count 0)%nat.
Proof. reflexivity. Qed.

Lemma links_before_mono count i k :
  (i < k)%nat -> (links_before count i + nth i count 0 <= links_before count k)%nat.
Proof.
  induction 1 as [|k Hle IH].
  - rewrite links_before_S. lia.
  - rewrite (links_before_S count k). lia.
Qed.

Lemma getLinksStartIndex_spec cidsSize count :
  getLinksStartIndex cidsSize count
  = (map (links_before count) (seq 0 cidsSize), links_before count cidsSize).
Proof.
  unfold getLinksStartIndex. induction cidsSize as [|n IH]; [done|].
  rewrite seq_S, fold_left_app, IH, map_app. reflexivity.
Qed.

Lemma getLinksStartIndex_nth cidsSize count i :
  (i < cidsSize)%nat ->
  nth i (fst (getLinksStartIndex cidsSize count)) 0%nat = links_before count i.
Proof.
  intros Hi. rewrite getLinksStartIndex_spec. simpl.
  rewrite nth_lookup, list_lookup_fmap, lookup_seq_lt by done. done.
Qed.

Lemma elem_of_visits cidsSize start count i j :
  (i, j) ∈ visits cidsSize start count <->
  (i < cidsSize)%nat /\ j ∈ links_of start count i.
Proof.
  unfold visits. rewrite list_elem_of_In, in_flat_map. split.
  - intros (k & Hk & Hin). apply in_map_iff in Hin as (j' & [= <- <-] & Hj).
    apply in_seq in Hk. split; [lia|]. by apply list_elem_of_In.
  - intros [Hi Hj]. exists i. split; [apply in_seq; lia|].
    apply in_map_iff. exists j. split; [done|]. by apply list_elem_of_In.
Qed.

(** With start indices that are prefix sums, a link index belongs to the
    slice of one cid only. *)
Lemma visits_one_owner cidsSize count i j c :
  let start := fst (getLinksStartIndex cidsSize count) in
  (i, j) ∈ visits cidsSize start count -> (c, j) ∈ visits cidsSize start count -> i = c.
Proof.
  intros start. rewrite !elem_of_visits. unfold links_of, start.
  intros [Hi Hj] [Hc Hj']. rewrite getLinksStartIndex_nth in Hj, Hj' by done.
  apply elem_of_seq in Hj, Hj'.
  destruct (Nat.lt_trichotomy i c) as [Hlt|[->|Hlt]]; [|done|].
  - pose proof (links_before_mono count i c Hlt). lia.
  - pose proof (links_before_mono count c i Hlt). lia.
Qed.

(** A loop over the cids and their links is a loop over [visits]. *)
Lemma nested_fold_visits {S : Type} (f : S -> nat -> nat -> S) cidsSize start count s0 :
  fold_left (fun s i => fold_left (fun s j => f s i j) (links_of start count i) s)
    (seq 0 cidsSize) s0
  = fold_left (fun s v => f s (fst v) (snd v)) (visits cidsSize start count) s0.
Proof.
  unfold visits. generalize (seq 0 cidsSize) as cids. intros cids. revert s0.
  induction cids as [|i cids IH]; intros s0; simpl; [done|].
  rewrite fold_left_app, IH. f_equal.
  generalize (links_of start count i) as l. intros l. revert s0.
  induction l as [|j l IHl]; intros s0; simpl; [done|]. apply IHl.
Qed.

(** ** Writes at link indices *)

Section LinkWrites.

Context {T : Type}.

Lemma fold_insert_length (g : nat -> nat -> T) (vs : list (nat * nat)) (ws : list T) :
  length (fold_left (fun ws v => <[snd v := g (fst v) (snd v)]> ws) vs ws) = length ws.
Proof.
  revert ws. induction vs as [|v vs IH]; intros ws; simpl; [done|].
  by rewrite IH, length_insert.
Qed.

Lemma fold_insert_other (g : nat -> nat -> T) (vs : list (nat * nat)) (ws : list T) e d :
  (forall v, v ∈ vs -> snd v <> e) ->
  nth e (fold_left (fun ws v => <[snd v := g (fst v) (snd v)]> ws) vs ws) d = nth e ws d.
Proof.
  revert ws. induction vs as [|v vs IH]; intros ws Hne; simpl; [done|].
  rewrite IH by (intros; apply Hne; by right).
  rewrite !nth_lookup, list_lookup_insert_ne; [done|]. apply Hne. by left.
Qed.

Lemma fold_insert_owner (g : nat -> nat -> T) (vs : list (nat * nat)) (ws : list T) c e d :
  (c, e) ∈ vs -> (forall i, (i, e) ∈ vs -> i = c) -> (e < length ws)%nat ->
  nth e (fold_left (fun ws v => <[snd v := g (fst v) (snd v)]> ws) vs ws) d = g c e.
Proof.
  revert ws. induction vs as [|v vs IH]; intros ws Hin Hown Hlen;
    [by apply elem_of_nil in Hin|].
  simpl. destruct (decide ((c, e) ∈ vs)) as [Hvs|Hvs].
  - apply IH; [done| |by rewrite length_insert]. intros; apply Hown; by right.
  - apply elem_of_cons in Hin as [<-|?]; [|done]. simpl.
    rewrite fold_insert_other.
    + by rewrite nth_lookup, list_lookup_insert_eq.
    + intros [i j] Hv. simpl. intros ->. apply Hvs.
      by rewrite <- (Hown i) by (by right).
Qed.

End LinkWrites.

(** ** Local weights and karma *)

Section Karma.

Variable A : Arith.
Local Abbreviation D := (dbl A).
Local Notation "0.0" := (f_zero A).

Lemma calculateKarma_visits cidsSize start count users ws light (karma0 : list D) :
  calculateKarma A cidsSize start count users ws light karma0
  = fold_left
      (fun karma v =>
         <[nth (snd v) users 0%nat :=
             f_add A (nth (nth (snd v) users 0%nat) karma 0.0) (karma_term A light ws v)]> karma)
      (visits cidsSize start count) karma0.
Proof.
  unfold calculateKarma.
  apply (nested_fold_visits
           (fun karma i j =>
              <[nth j users 0%nat :=
                  f_add A (nth (nth j users 0%nat) karma 0.0)
                    (f_mul A (nth i light 0.0) (nth j ws 0.0))]> karma)).
Qed.

Lemma calculateKarma_length cidsSize start count users ws light (karma0 : list D) :
  length (calculateKarma A cidsSize start count users ws light karma0) = length karma0.
Proof.
  rewrite calculateKarma_visits. generalize (visits cidsSize start count) as vs.
  intros vs. revert karma0. induction vs as [|v vs IH]; intros karma0; simpl; [done|].
  by rewrite IH, length_insert.
Qed.

(** The slot of user [u] accumulates, on top of what it held, the terms of
    the links that [u] authored, in the order of the visits. *)
Lemma calculateKarma_slot cidsSize start count users ws light (karma0 : list D) u :
  (u < length karma0)%nat ->
  nth u (calculateKarma A cidsSize start count users ws light karma0) 0.0
  = fold_left (fun acc v => f_add A acc (karma_term A light ws v))
      (authored_by users u (visits cidsSize start count)) (nth u karma0 0.0).
Proof.
  rewrite calculateKarma_visits. unfold authored_by.
  generalize (visits cidsSize start count) as vs. intros vs. revert karma0.
  induction vs as [|v vs IH]; intros karma0 Hu; simpl; [done|].
  rewrite IH by (by rewrite length_insert). rewrite filter_cons.
  destruct (decide (nth (snd v) users 0%nat = u)) as [->|Hne]; simpl.
  - by rewrite (nth_lookup (<[_:=_]> _)), list_lookup_insert_eq.
  - by rewrite (nth_lookup (<[_:=_]> _)), list_lookup_insert_ne, <- nth_lookup.
Qed.

Lemma mulArrays_length size (in1 in2 : list D) : length (mulArrays A size in1 in2) = size.
Proof. unfold mulArrays. by rewrite length_map, length_seq. Qed.

(** The karma slot of user [u] on return of [calculate_rank]. *)
Lemma calculate_rank_karma_slot fuel stakes stakesSize cidsSize linksSize
    inLinksCount outLinksCount outLinksIns inLinksOuts inLinksUsers outLinksUsers
    (dampingFactor tolerance : D) (out res : Outputs A) u :
  let p := prepare A stakes cidsSize linksSize inLinksCount outLinksCount
             inLinksOuts inLinksUsers outLinksUsers dampingFactor in
  calculate_rank A fuel stakes stakesSize cidsSize linksSize inLinksCount outLinksCount
    outLinksIns inLinksOuts inLinksUsers outLinksUsers dampingFactor tolerance out = Some res ->
  (u < stakesSize)%nat -> (stakesSize <= length (karma out))%nat ->
  nth u (karma res) 0.0
  = fold_left
      (fun acc v => f_add A acc (karma_term A (light res) (d_cyberlinksLocalWeights p) v))
      (authored_by outLinksUsers u (visits cidsSize (outLinksStartIndex_h p) outLinksCount))
      (nth u (karma out) 0.0).
Proof.
  intros p. unfold calculate_rank. fold p.
  destruct (rank_loop _ _ _ _ _ _ _ _ _ _ _ _) as [[r q]|]; [|discriminate].
  intros [= <-] Hu Hlen. unfold finish. cbn [karma light rank].
  rewrite cudaMemcpy_nth by (rewrite ?calculateKarma_length, ?length_take; lia).
  rewrite calculateKarma_slot by (rewrite length_take; lia).
  rewrite (nth_lookup (take _ _)), lookup_take_lt, <- nth_lookup by done.
  generalize (nth u (karma out) 0.0) as acc.
  assert (Hvs : forall v, v ∈ authored_by outLinksUsers u
                              (visits cidsSize (outLinksStartIndex_h p) outLinksCount) ->
                (fst v < cidsSize)%nat).
  { intros [i j] Hv. apply list_elem_of_filter in Hv as [_ Hv].
    apply elem_of_visits in Hv. simpl. tauto. }
  revert Hvs. generalize (authored_by outLinksUsers u
                            (visits cidsSize (outLinksStartIndex_h p) outLinksCount)) as vs.
  induction vs as [|v vs IH]; intros Hvs acc; simpl; [done|].
  rewrite IH by (intros; apply Hvs; by right). do 2 f_equal.
  unfold karma_term. f_equal. symmetry. apply cudaMemcpy_nth.
  - apply Hvs. by left.
  - rewrite mulArrays_length. apply Hvs. by left.
Qed.

End Karma.

(** The local weight of a link, read back from the buffer the kernel
    filled: the stake of its author over the oil of its cid. *)
Lemma calculateCyberlinksLocalWeights_nth (A : Arith) cidsSize stakes count users tout tin
    (ws0 : list (dbl A)) c e d :
  let start := fst (getLinksStartIndex cidsSize count) in
  (c, e) ∈ visits cidsSize start count -> (e < length ws0)%nat ->
  nth e (calculateCyberlinksLocalWeights A cidsSize stakes start count users tout tin ws0) d
  = ddiv_rn A (stake_of stakes users e) (u64 (nth c tout 0 + nth c tin 0)).
Proof.
  intros start Hin Hlen. unfold calculateCyberlinksLocalWeights.
  rewrite (nested_fold_visits
             (fun ws i j =>
                <[j := ddiv_rn A (nth (nth j users 0%nat) stakes 0)
                         (u64 (nth i tout 0 + nth i tin 0))]> ws)).
  apply (fold_insert_owner
           (fun i j => ddiv_rn A (nth (nth j users 0%nat) stakes 0)
                         (u64 (nth i tout 0 + nth i tin 0)))); [done| |done].
  intros i Hi. by apply (visits_one_owner cidsSize count i e c).
Qed.

(** ** Karma in exact arithmetic *)

Section KarmaExact.

Open Scope R_scope.

Lemma fold_left_Rplus_terms {V : Type} (t : V -> R) (vs : list V) (acc : R) :
  fold_left (fun acc v => acc + t v) vs acc = acc + sumR (map t vs).
Proof.
  revert acc. induction vs as [|v vs IH]; intros acc; simpl; [lra|]. rewrite IH. lra.
Qed.

Lemma sumR_app (l k : list R) : sumR (l ++ k) = sumR l + sumR k.
Proof. induction l as [|x l IH]; simpl; [lra|]. rewrite IH. lra. Qed.

Lemma sumR_insert (l : list R) (u : nat) (x : R) :
  (u < length l)%nat -> sumR (<[u := x]> l) = sumR l - nth u l 0 + x.
Proof.
  revert u. induction l as [|y l IH]; intros u Hu; simpl in *; [lia|].
  destruct u as [|u]; simpl; [lra|]. rewrite IH by lia. lra.
Qed.

Lemma sumR_flat_map {V W : Type} (t : W -> R) (f : V -> list W) (l : list V) :
  sumR (map t (flat_map f l)) = sumR (map (fun x => sumR (map t (f x))) l).
Proof.
  induction l as [|x l IH]; simpl; [done|]. by rewrite map_app, sumR_app, IH.
Qed.

Lemma sumR_map_ext {V : Type} (t t' : V -> R) (l : list V) :
  (forall v, v ∈ l -> t v = t' v) -> sumR (map t l) = sumR (map t' l).
Proof.
  induction l as [|x l IH]; intros Heq; simpl; [done|].
  rewrite IH by (intros; apply Heq; by right). rewrite Heq by left. done.
Qed.

Lemma sumR_scale {V : Type} (a : R) (t : V -> R) (l : list V) :
  sumR (map (fun v => a * t v) l) = a * sumR (map t l).
Proof. induction l as [|x l IH]; simpl; [lra|]. rewrite IH. lra. Qed.

(** The scatter of [calculateKarma] moves the terms into the karma
    buffer without losing any, as long as every author is a valid slot. *)
Lemma calculateKarma_total cidsSize start count users ws light (karma0 : list R) :
  (forall v, v ∈ visits cidsSize start count -> (nth (snd v) users 0 < length karma0)%nat) ->
  sumR (calculateKarma exactR cidsSize start count users ws light karma0)
  = sumR karma0 + sumR (map (karma_term exactR light ws) (visits cidsSize start count)).
Proof.
  rewrite calculateKarma_visits. generalize (visits cidsSize start count) as vs.
  intros vs. revert karma0. induction vs as [|v vs IH]; intros karma0 Hin; simpl; [lra|].
  rewrite IH.
  - rewrite sumR_insert by (apply Hin; by left).
    cbn [f_add f_zero exactR]. change (dbl exactR) with R. lra.
  - intros v' Hv'. rewrite length_insert. apply Hin. by right.
Qed.

End KarmaExact.

Lemma sumR_cudaMemcpy (dst src : list R) n :
  length src = n -> sumR (cudaMemcpy dst src n) = (sumR src + sumR (drop n dst))%R.
Proof.
  intros Hlen. unfold cudaMemcpy. by rewrite take_ge, sumR_app by lia.
Qed.

(** C6 (as amended).  In exact arithmetic, when every author is a valid
    user and the weight buffer holds all links, the karma [calculate_rank]
    hands out on top of the caller's buffer is, cid by cid, the light of
    the cid times the sum of the local weights of its outbound links,
    i.e. times (sum of the outbound stakes) / oil: a cid passes on the
    share of its light that its outbound stake has in its oil, not all of
    its light. *)
Theorem karma_total_is_outbound_share_of_light
    (fuel : nat) (stakes : list Z) (stakesSize cidsSize linksSize : nat)
    (inLinksCount outLinksCount outLinksIns inLinksOuts inLinksUsers outLinksUsers : list nat)
    (dampingFactor tolerance : R) (out res : Outputs exactR) :
  let p := prepare exactR stakes cidsSize linksSize inLinksCount outLinksCount
             inLinksOuts inLinksUsers outLinksUsers dampingFactor in
  let oil c := u64 (nth c (d_cidsTotalOutStakes p) 0 + nth c (d_cidsTotalInStakes p) 0) in
  calculate_rank exactR fuel stakes stakesSize cidsSize linksSize inLinksCount outLinksCount
    outLinksIns inLinksOuts inLinksUsers outLinksUsers dampingFactor tolerance out = Some res ->
  (stakesSize <= length (karma out))%nat ->
  (links_before outLinksCount cidsSize <= linksSize)%nat ->
  (forall c e, (c < cidsSize)%nat -> e ∈ links_of (outLinksStartIndex_h p) outLinksCount c ->
               (nth e outLinksUsers 0 < stakesSize)%nat) ->
  sumR (karma res)
  = (sumR (karma out)
     + sumR (map (fun c =>
                    nth c (light res) 0
                    * sumR (map (fun e => IZR (stake_of stakes outLinksUsers e) / IZR (oil c))
                              (links_of (outLinksStartIndex_h p) outLinksCount c)))
               (seq 0 cidsSize)))%R.
Proof.
  intros p oil. unfold calculate_rank. fold p.
  destruct (rank_loop _ _ _ _ _ _ _ _ _ _ _ _) as [[r q]|]; [|discriminate].
  intros [= <-] HU HL Husers. unfold finish. cbn [karma light rank].
  rewrite sumR_cudaMemcpy.
  2:{ etransitivity; [apply (calculateKarma_length exactR)|]. rewrite length_take. lia. }
  rewrite calculateKarma_total.
  2:{ intros [c e] Hv. rewrite length_take. apply elem_of_visits in Hv as [Hc He].
      simpl. specialize (Husers c e Hc He). change (dbl exactR) with R in *. lia. }
  rewrite <- (take_drop stakesSize (karma out)) at 3. rewrite sumR_app.
  enough (Hterms :
    sumR (map (karma_term exactR (mulArrays exactR cidsSize r (d_entropy p))
                 (d_cyberlinksLocalWeights p))
            (visits cidsSize (outLinksStartIndex_h p) outLinksCount))
    = sumR (map (fun c =>
                   (nth c (cudaMemcpy (light out) (mulArrays exactR cidsSize r (d_entropy p))
                             cidsSize) 0
                    * sumR (map (fun e => IZR (stake_of stakes outLinksUsers e) / IZR (oil c))
                              (links_of (outLinksStartIndex_h p) outLinksCount c)))%R)
              (seq 0 cidsSize))).
  { rewrite Hterms. change (dbl exactR) with R. lra. }
  unfold visits. rewrite sumR_flat_map. apply sumR_map_ext. intros c Hc.
  apply elem_of_seq in Hc. rewrite map_map, <- sumR_scale.
  apply sumR_map_ext. intros e He. unfold karma_term. cbn [fst snd f_mul f_zero exactR].
  rewrite cudaMemcpy_nth by (rewrite ?mulArrays_length; lia). f_equal.
  change (d_cyberlinksLocalWeights p)
    with (calculateCyberlinksLocalWeights exactR cidsSize stakes
            (fst (getLinksStartIndex cidsSize outLinksCount)) outLinksCount outLinksUsers
            (d_cidsTotalOutStakes p) (d_cidsTotalInStakes p) (replicate linksSize 0%R)).
  rewrite (calculateCyberlinksLocalWeights_nth exactR _ _ _ _ _ _ _ c e); [done| |].
  - apply elem_of_visits. split; [lia|exact He].
  - rewrite length_replicate. change (outLinksStartIndex_h p)
      with (fst (getLinksStartIndex cidsSize outLinksCount)) in He.
    unfold links_of in He. rewrite getLinksStartIndex_nth in He by lia.
    apply elem_of_seq in He.
    destruct (decide (S c = cidsSize)) as [<-|Hne].
    + rewrite links_before_S in HL. lia.
    + pose proof (links_before_mono outLinksCount c cidsSize). rewrite Nat.le_lteq in HL.
      pose proof (links_before_S outLinksCount c).
      pose proof (links_before_mono outLinksCount c (S c)). lia.
Qed.

(** ** Exact runs of the rank loop *)

Lemma Rltb_true (x y : R) : (x < y)%R -> Rltb x y = true.
Proof. intros. unfold Rltb. destruct (Rlt_dec x y); [done|lra]. Qed.

Lemma Rltb_false (x y : R) : (y <= x)%R -> Rltb x y = false.
Proof. intros. unfold Rltb. destruct (Rlt_dec x y); [lra|done]. Qed.

(** One user with stake 1 and one link from cid 0 to itself; d = 1/2 and
    tolerance 1.  The loop stops after its first iteration. *)
Lemma selfloop_returns :
  exists res : Outputs exactR,
    calculate_rank exactR 1 [1] 1 1 1 [1]%nat [1]%nat [0]%nat [0]%nat [0]%nat [0]%nat
      (1 / 2)%R 1%R (Build_Outputs exactR [0%R] [0%R] [0%R] [0%R]) = Some res.
Proof.
  eexists. unfold calculate_rank.
  cbn -[Rltb Rplus Rmult Rdiv Rminus IZR ln u32 u64].
  change (u32 0) with 0%nat. change (u64 (0 + 1)) with 1.
  cbn -[Rltb Rplus Rmult Rdiv Rminus IZR ln].
  repeat match goal with
    | |- context [Z.of_nat (length ?l)] => change (Z.of_nat (length l)) with 0
    end.
  change (Z.of_nat 1) with 1.
  rewrite Rltb_true by lra.
  rewrite Rltb_false; [reflexivity|].
  unfold maximum, absolute_value. cbn -[Rltb Rplus Rmult Rdiv Rminus IZR ln].
  unfold Rltb. repeat destruct (Rlt_dec _ _); lra.
Qed.

Lemma karma_total_is_outbound_share_of_light_witness :
  let p := prepare exactR [1] 1 1 [1]%nat [1]%nat [0]%nat [0]%nat [0]%nat (1 / 2)%R in
  let oil c := u64 (nth c (d_cidsTotalOutStakes p) 0 + nth c (d_cidsTotalInStakes p) 0) in
  exists res : Outputs exactR,
    calculate_rank exactR 1 [1] 1 1 1 [1]%nat [1]%nat [0]%nat [0]%nat [0]%nat [0]%nat
      (1 / 2)%R 1%R (Build_Outputs exactR [0%R] [0%R] [0%R] [0%R]) = Some res
    /\ sumR (karma res)
       = (sumR [0%R]
          + sumR (map (fun c =>
                         nth c (light res) 0
                         * sumR (map (fun e => IZR (stake_of [1%Z] [0%nat] e) / IZR (oil c))
                                   (links_of (outLinksStartIndex_h p) [1%nat] c)))
                    (seq 0 1)))%R.
Proof.
  cbv zeta. destruct selfloop_returns as [res Hres]. exists res. split; [exact Hres|].
  apply (karma_total_is_outbound_share_of_light 1 [1] 1 1 1 [1]%nat [1]%nat [0]%nat [0]%nat
           [0]%nat [0]%nat (1 / 2)%R 1%R (Build_Outputs exactR [0%R] [0%R] [0%R] [0%R]) res Hres).
  - simpl. lia.
  - cbv. lia.
  - intros c e _ _. destruct e as [|[|e]]; simpl; lia.
Defined.

(** C6 fails as stated.  Two users with stake 1 each link cid 0 to cid 1
    (d = 0.5, tolerance 0.5, zeroed buffers).  The light is
    [0.25; 0.4375], total 0.6875; the karma is [0.125; 0.125], total
    0.25: cid 1 has light and no outbound link to pass it on, and cid 0
    passes on all of its light only because it has no inbound stake. *)
Lemma karma_total_differs_from_light_total :
  option_map (fun res => (light res, karma res))
    (calculate_rank Scenario.B 10 [1; 1] 2 2 2 [0; 2]%nat [2; 0]%nat [1; 1]%nat
       [0; 0]%nat [0; 1]%nat [0; 1]%nat Scenario.half Scenario.half
       (Scenario.zeroed log2_floor 2 2))
  = Some ([Scenario.quarter; S754_finite false 7881299347898368 (-54)],
          [Scenario.eighth; Scenario.eighth])
  /\ SFadd 53 1024 Scenario.quarter (S754_finite false 7881299347898368 (-54))
     = S754_finite false 6192449487634432 (-53)
  /\ SFadd 53 1024 Scenario.eighth Scenario.eighth = Scenario.quarter
  /\ SFltb Scenario.quarter (S754_finite false 6192449487634432 (-53)) = true.
Proof. vm_compute. repeat split. Qed.

(** ** The karma output *)

(** C10.  [calculate_rank] copies the caller's karma buffer to the device
    and accumulates on top of it.  For every arithmetic the slot of user
    [u] on return is the caller's value with the terms
    [light[c] * w[e]] of the links [u] authored added one by one; in exact
    arithmetic it is the caller's value plus their sum, and it is that
    sum exactly when the caller's value was 0. *)
Theorem karma_accumulates_on_caller_buffer
    (stakes : list Z) (stakesSize cidsSize linksSize : nat)
    (inLinksCount outLinksCount outLinksIns inLinksOuts inLinksUsers outLinksUsers : list nat)
    (u : nat) :
  (u < stakesSize)%nat ->
  (forall (A : Arith) (fuel : nat) (dampingFactor tolerance : dbl A) (out res : Outputs A),
     let p := prepare A stakes cidsSize linksSize inLinksCount outLinksCount
                inLinksOuts inLinksUsers outLinksUsers dampingFactor in
     calculate_rank A fuel stakes stakesSize cidsSize linksSize inLinksCount outLinksCount
       outLinksIns inLinksOuts inLinksUsers outLinksUsers dampingFactor tolerance out
     = Some res ->
     (stakesSize <= length (karma out))%nat ->
     nth u (karma res) (f_zero A)
     = fold_left
         (fun acc v => f_add A acc (karma_term A (light res) (d_cyberlinksLocalWeights p) v))
         (authored_by outLinksUsers u (visits cidsSize (outLinksStartIndex_h p) outLinksCount))
         (nth u (karma out) (f_zero A)))
  /\ (forall (fuel : nat) (dampingFactor tolerance : R) (out res : Outputs exactR),
        let p := prepare exactR stakes cidsSize linksSize inLinksCount outLinksCount
                   inLinksOuts inLinksUsers outLinksUsers dampingFactor in
        let authored_sum :=
          sumR (map (karma_term exactR (light res) (d_cyberlinksLocalWeights p))
                  (authored_by outLinksUsers u
                     (visits cidsSize (outLinksStartIndex_h p) outLinksCount))) in
        calculate_rank exactR fuel stakes stakesSize cidsSize linksSize inLinksCount
          outLinksCount outLinksIns inLinksOuts inLinksUsers outLinksUsers dampingFactor
          tolerance out
        = Some res ->
        (stakesSize <= length (karma out))%nat ->
        nth u (karma res) 0%R = (nth u (karma out) 0 + authored_sum)%R
        /\ (nth u (karma res) 0%R = authored_sum <-> nth u (karma out) 0%R = 0%R)).
Proof.
  intros Hu. split.
  - intros A fuel d tol out res p Hres Hlen.
    by apply (calculate_rank_karma_slot A fuel stakes stakesSize cidsSize linksSize
                inLinksCount outLinksCount outLinksIns inLinksOuts inLinksUsers outLinksUsers
                d tol out res u).
  - intros fuel d tol out res p authored_sum Hres Hlen.
    pose proof (calculate_rank_karma_slot exactR fuel stakes stakesSize cidsSize linksSize
                  inLinksCount outLinksCount outLinksIns inLinksOuts inLinksUsers
                  outLinksUsers d tol out res u Hres Hu Hlen) as Hslot.
    cbn [f_zero f_add exactR] in Hslot. rewrite fold_left_Rplus_terms in Hslot.
    fold p in Hslot. rewrite Hslot. subst authored_sum.
    change (dbl exactR) with R. set (total := sumR _). split; [done|]. lra.
Qed.

(** The two-author graph with the karma buffer holding 2.0 for user 1:
    the karma returned for user 1 is 2.0 + 0.25 * 0.5. *)
Lemma karma_accumulates_on_caller_buffer_witness :
  (forall (A : Arith) (fuel : nat) (dampingFactor tolerance : dbl A) (out res : Outputs A),
     let p := prepare A [1; 1] 2 2 [0; 2]%nat [2; 0]%nat [0; 0]%nat [0; 1]%nat [0; 1]%nat
                dampingFactor in
     calculate_rank A fuel [1; 1] 2 2 2 [0; 2]%nat [2; 0]%nat [1; 1]%nat [0; 0]%nat
       [0; 1]%nat [0; 1]%nat dampingFactor tolerance out
     = Some res ->
     (2 <= length (karma out))%nat ->
     nth 1 (karma res) (f_zero A)
     = fold_left
         (fun acc v => f_add A acc (karma_term A (light res) (d_cyberlinksLocalWeights p) v))
         (authored_by [0; 1]%nat 1 (visits 2 (outLinksStartIndex_h p) [2; 0]%nat))
         (nth 1 (karma out) (f_zero A)))
  /\ option_map karma
       (calculate_rank Scenario.B 10 [1; 1] 2 2 2 [0; 2]%nat [2; 0]%nat [1; 1]%nat
          [0; 0]%nat [0; 1]%nat [0; 1]%nat Scenario.half Scenario.half
          (Build_Outputs Scenario.B [Scenario.pzero; Scenario.pzero]
             [Scenario.pzero; Scenario.pzero] [Scenario.pzero; Scenario.pzero]
             [Scenario.pzero; Scenario.two]))
     = Some [Scenario.eighth; S754_finite false 4785074604081152 (-51)].
Proof.
  split.
  - apply (karma_accumulates_on_caller_buffer [1; 1] 2 2 2 [0; 2]%nat [2; 0]%nat [1; 1]%nat
             [0; 0]%nat [0; 1]%nat [0; 1]%nat 1%nat). lia.
  - vm_compute. reflexivity.
Defined.

(** ** The order of binary64 *)

Ltac cmp_cases :=
  repeat match goal with
    | |- context [Z.compare ?a ?b] => destruct (Z.compare_spec a b)
    | H : context [Z.compare ?a ?b] |- _ => destruct (Z.compare_spec a b)
    | |- context [Pos.compare_cont Eq ?a ?b] =>
        change (Pos.compare_cont Eq a b) with (Pos.compare a b);
        destruct (Pos.compare_spec a b)
    | H : context [Pos.compare_cont Eq ?a ?b] |- _ =>
        change (Pos.compare_cont Eq a b) with (Pos.compare a b) in H;
        destruct (Pos.compare_spec a b)
    end.

Ltac sf_cases x := destruct x as [[]|[]| |[] ? ?].

Ltac sf_order :=
  simpl; try discriminate; try reflexivity; cmp_cases; simpl; intros;
  try discriminate; try reflexivity; try lia.

Lemma SFltb_not_nan x y : SFltb x y = true -> is_nan x = false /\ is_nan y = false.
Proof. unfold SFltb. by sf_cases x; sf_cases y. Qed.

Lemma SFleb_not_nan x y : SFleb x y = true -> is_nan x = false /\ is_nan y = false.
Proof. unfold SFleb. by sf_cases x; sf_cases y. Qed.

Lemma SFleb_refl x : is_nan x = false -> SFleb x x = true.
Proof. unfold SFleb. sf_cases x; sf_order. Qed.

Lemma SFltb_false_leb x y :
  is_nan x = false -> is_nan y = false -> SFltb x y = false -> SFleb y x = true.
Proof. unfold SFltb, SFleb. sf_cases x; sf_cases y; sf_order. Qed.

Lemma SFleb_ltb_false x y : SFleb y x = true -> SFltb x y = false.
Proof. unfold SFltb, SFleb. sf_cases x; sf_cases y; sf_order. Qed.

Lemma SFltb_leb x y : SFltb x y = true -> SFleb x y = true.
Proof. unfold SFltb, SFleb. sf_cases x; sf_cases y; sf_order. Qed.

Lemma SFltb_trans x y z : SFltb x y = true -> SFltb y z = true -> SFltb x z = true.
Proof. unfold SFltb. sf_cases x; sf_cases y; sf_order; sf_cases z; sf_order. Qed.

Lemma SFleb_trans x y z : SFleb x y = true -> SFleb y z = true -> SFleb x z = true.
Proof. unfold SFleb. sf_cases x; sf_cases y; sf_order; sf_cases z; sf_order. Qed.

(** ** The convergence test *)

Section MaxDiff.

Variable log2 : spec_float -> spec_float.
Local Abbreviation A := (binary64 log2).

Lemma maximum_cases (acc x : spec_float) :
  (SFltb acc x = true /\ maximum A acc x = x)
  \/ (SFltb acc x = false /\ maximum A acc x = acc).
Proof. unfold maximum. cbn [f_lt binary64]. destruct (SFltb acc x); auto. Qed.

(** The left-to-right reduction with [maximum] from a number that is not
    NaN returns a number that is not NaN, at least the initial value and
    at least every term that is not NaN, and it returns the initial value
    or one of the terms. *)
Lemma fold_maximum (xs : list spec_float) (acc : spec_float) :
  let r := fold_left (fun acc x => maximum A acc (absolute_value A x)) xs acc in
  is_nan acc = false ->
  is_nan r = false
  /\ SFleb acc r = true
  /\ (forall x, x ∈ xs -> is_nan (absolute_value A x) = false ->
                SFleb (absolute_value A x) r = true)
  /\ (r = acc \/ exists x, x ∈ xs /\ r = absolute_value A x).
Proof.
  revert acc. induction xs as [|x xs IH]; intros acc r Hacc; subst r; cbn [fold_left].
  - split; [done|]. split; [by apply SFleb_refl|]. split; [|by left].
    intros x Hx. by apply elem_of_nil in Hx.
  - destruct (maximum_cases acc (absolute_value A x)) as [[Hlt ->]|[Hlt ->]].
    + apply SFltb_not_nan in Hlt as Hnn. destruct Hnn as [_ Hx].
      destruct (IH (absolute_value A x) Hx) as (Hn & Hle & Hub & Hatt).
      split; [done|]. split; [eapply SFleb_trans; [by apply SFltb_leb|done]|].
      split.
      * intros y Hy Hynan. apply elem_of_cons in Hy as [->|Hy]; [done|by apply Hub].
      * right. destruct Hatt as [->|(y & Hy & ->)].
        -- exists x. split; [by left|done].
        -- exists y. split; [by right|done].
    + destruct (IH acc Hacc) as (Hn & Hle & Hub & Hatt).
      split; [done|]. split; [done|]. split.
      * intros y Hy Hynan. apply elem_of_cons in Hy as [->|Hy]; [|by apply Hub].
        eapply SFleb_trans; [|exact Hle]. by apply SFltb_false_leb.
      * destruct Hatt as [->|(y & Hy & ->)]; [by left|].
        right. exists y. split; [by right|done].
Qed.

End MaxDiff.

Lemma SFltb_leb_trans x y z : SFltb x y = true -> SFleb y z = true -> SFltb x z = true.
Proof. unfold SFltb, SFleb. sf_cases x; sf_cases y; sf_order; sf_cases z; sf_order. Qed.

Section ConvergenceTest.

Variable log2 : spec_float -> spec_float.
Local Abbreviation A := (binary64 log2).

(** [|prevRank[i] - newRank[i]|] as [find_max_ranks_diff] computes it. *)
Lemma find_max_ranks_diff_spec (prevRank newRank : list spec_float) (rankSize : nat) :
  let term i :=
    absolute_value A (SFsub 53 1024 (nth i prevRank (S754_zero false))
                        (nth i newRank (S754_zero false))) in
  let delta := find_max_ranks_diff A prevRank newRank rankSize in
  is_nan delta = false
  /\ SFleb (S754_zero false) delta = true
  /\ (forall i, (i < rankSize)%nat -> is_nan (term i) = false -> SFleb (term i) delta = true)
  /\ (delta = S754_zero false \/ exists i, (i < rankSize)%nat /\ delta = term i).
Proof.
  intros term delta. subst delta. unfold find_max_ranks_diff.
  destruct (fold_maximum log2
              (map (fun i => f_sub A (nth i prevRank (f_zero A)) (nth i newRank (f_zero A)))
                 (seq 0 rankSize)) (f_zero A) eq_refl) as (Hn & Hle & Hub & Hatt).
  split; [exact Hn|]. split; [exact Hle|]. split.
  - intros i Hi Hnan. apply (Hub (SFsub 53 1024 (nth i prevRank (S754_zero false))
                                    (nth i newRank (S754_zero false)))); [|exact Hnan].
    apply list_elem_of_fmap. exists i. split; [done|]. apply elem_of_seq. lia.
  - destruct Hatt as [Heq|(x & Hx & Heq)]; [by left|]. right.
    apply list_elem_of_fmap in Hx as (i & -> & Hi). apply elem_of_seq in Hi.
    exists i. split; [lia|exact Heq].
Qed.

(** Once the tolerance is below every value the reduction can return,
    the loop never leaves. *)
Lemma rank_loop_never_exits fuel (inLinks : list (CompressedInLink spec_float)) cidsSize
    start count (rc d tol : spec_float) d_rank d_prevRank change :
  SFltb tol (S754_zero false) = true -> SFltb tol change = true ->
  rank_loop A fuel inLinks cidsSize start count rc d tol d_rank d_prevRank change = None.
Proof.
  intros Htol. revert d_rank d_prevRank change.
  induction fuel as [|fuel IH]; intros d_rank d_prevRank change Hchange;
    cbn [rank_loop f_lt binary64]; rewrite Hchange; [done|].
  apply IH. eapply SFltb_leb_trans; [exact Htol|].
  apply (find_max_ranks_diff_spec d_rank _ cidsSize).
Qed.

End ConvergenceTest.

(** ** Input validation *)

(** C4 (as amended).  [calculate_rank] returns [void] and validates
    neither the damping factor nor the tolerance; an invocation outside
    the documented ranges is processed like any other.  With a negative
    tolerance for which tolerance + 1.0 > tolerance (every negative
    tolerance above -2^53) the convergence test can never succeed: the
    loop does not leave, whatever the number of iterations. *)
Theorem negative_tolerance_never_returns
    (log2 : spec_float -> spec_float) (fuel : nat)
    (stakes : list Z) (stakesSize cidsSize linksSize : nat)
    (inLinksCount outLinksCount outLinksIns inLinksOuts inLinksUsers outLinksUsers : list nat)
    (dampingFactor tolerance : spec_float) (out : Outputs (binary64 log2)) :
  SFltb tolerance (S754_zero false) = true ->
  SFltb tolerance (SFadd 53 1024 tolerance (b64_of_Z 1)) = true ->
  calculate_rank (binary64 log2) fuel stakes stakesSize cidsSize linksSize inLinksCount
    outLinksCount outLinksIns inLinksOuts inLinksUsers outLinksUsers dampingFactor tolerance out
  = None.
Proof.
  intros Hneg Hstart. unfold calculate_rank.
  by rewrite (rank_loop_never_exits log2 fuel _ _ _ _ _ _ tolerance _ _ _ Hneg Hstart).
Qed.

(** The two-author graph with tolerance -1.0. *)
Lemma negative_tolerance_never_returns_witness :
  calculate_rank Scenario.B 1000 [1; 1] 2 2 2 [0; 2]%nat [2; 0]%nat [1; 1]%nat
    [0; 0]%nat [0; 1]%nat [0; 1]%nat Scenario.half Scenario.minus_one
    (Scenario.zeroed log2_floor 2 2)
  = None.
Proof.
  apply (negative_tolerance_never_returns log2_floor 1000 [1; 1] 2 2 2 [0; 2]%nat
           [2; 0]%nat [1; 1]%nat [0; 0]%nat [0; 1]%nat [0; 1]%nat Scenario.half
           Scenario.minus_one); vm_compute; reflexivity.
Defined.

(** C4 fails as stated.  On the two-author graph, d = 2.0 (tolerance 0.5)
    is processed and negative ranks [-0.5; -2.0] are written to the
    caller's buffer; tolerance 0.0 and tolerance -2^60 (d = 0.5) are
    processed as well, the latter without a single iteration. *)
Lemma invalid_parameters_are_processed :
  option_map rank
    (calculate_rank Scenario.B 10 [1; 1] 2 2 2 [0; 2]%nat [2; 0]%nat [1; 1]%nat
       [0; 0]%nat [0; 1]%nat [0; 1]%nat Scenario.two Scenario.half
       (Scenario.zeroed log2_floor 2 2))
  = Some [S754_finite true 4503599627370496 (-53); S754_finite true 4503599627370496 (-51)]
  /\ option_map rank
       (calculate_rank Scenario.B 10 [1; 1] 2 2 2 [0; 2]%nat [2; 0]%nat [1; 1]%nat
          [0; 0]%nat [0; 1]%nat [0; 1]%nat Scenario.half Scenario.pzero
          (Scenario.zeroed log2_floor 2 2))
     = Some [Scenario.quarter; S754_finite false 7881299347898368 (-54)]
  /\ option_map rank
       (calculate_rank Scenario.B 0 [1; 1] 2 2 2 [0; 2]%nat [2; 0]%nat [1; 1]%nat
          [0; 0]%nat [0; 1]%nat [0; 1]%nat Scenario.half (b64_of_Z (- 2 ^ 60))
          (Scenario.zeroed log2_floor 2 2))
     = Some [Scenario.quarter; Scenario.quarter].
Proof. vm_compute. repeat split. Qed.

(** ** The power-method update and its exit test *)



(** ** Compression *)

Lemma u32_small (n : nat) : Z.of_nat n < 2 ^ 32 -> u32 n = n.
Proof.
  intros Hn. unfold u32. rewrite N.mod_small; [apply Nat2N.id|].
  change (2 ^ 32)%N with (Z.to_N (2 ^ 32)). lia.
Qed.

Section Compression.

Variable A : Arith.
Local Abbreviation D := (dbl A).
Variables (cidsTotalOutStakes : list Z) (inLinksOuts inLinksUsers : list nat) (stakes : list Z).

Local Abbreviation emitted' := (emitted A cidsTotalOutStakes inLinksOuts inLinksUsers stakes).

(** The emit loop writes the entries of [emitted] one after the other. *)
Lemma emit_fold last js (arr : list (CompressedInLink D)) idx acc :
  Z.of_nat (idx + length (fst (emitted' last js acc))) < 2 ^ 32 ->
  fold_left (emit_step A cidsTotalOutStakes inLinksOuts inLinksUsers stakes last) js
    (arr, idx, acc)
  = (list_inserts idx (fst (emitted' last js acc)) arr,
     (idx + length (fst (emitted' last js acc)))%nat,
     snd (emitted' last js acc)).
Proof.
  revert arr idx acc. induction js as [|j js IH]; intros arr idx acc Hidx.
  - simpl. by rewrite Nat.add_0_r.
  - cbn [fold_left emitted emit_step] in *. fold (stake_of stakes inLinksUsers j) in *.
    destruct ((j =? last)%nat || negb (nth j inLinksOuts 0 =? nth (j + 1) inLinksOuts 0)%nat).
    + cbn [fst snd length] in *. rewrite u32_small by lia.
      rewrite IH by (rewrite Nat.add_1_r; cbn [fst] in *; lia).
      rewrite Nat.add_1_r. cbn [list_inserts].
      rewrite list_insert_inserts_lt by lia. f_equal. f_equal. lia.
    + by apply IH.
Qed.

(** The last link of a slice closes the last run. *)
Lemma emitted_leftover last js acc :
  snd (emitted' last (js ++ [last]) acc) = 0.
Proof.
  revert acc. induction js as [|j js IH]; intros acc; cbn [app emitted].
  - rewrite Nat.eqb_refl. reflexivity.
  - destruct (_ || _); [cbn [snd]|]; apply IH.
Qed.

(** The number of entries for a slice of [S m] links is the number of
    source changes plus one. *)
Lemma emitted_length s m acc :
  length (fst (emitted' (s + m) (seq s (S m)) acc)) = S (source_changes inLinksOuts s m).
Proof.
  revert s acc. induction m as [|m IH]; intros s acc.
  - cbn [seq emitted]. rewrite Nat.add_0_r, Nat.eqb_refl. reflexivity.
  - change (seq s (S (S m))) with (s :: seq (S s) (S m)). cbn [emitted source_changes].
    replace (s =? s + S m)%nat with false by (symmetry; apply Nat.eqb_neq; lia).
    replace (s + S m)%nat with (S s + m)%nat by lia. cbn [orb].
    destruct (nth s inLinksOuts 0 =? nth (s + 1) inLinksOuts 0)%nat; cbn [negb fst length].
    + by rewrite IH.
    + by rewrite IH.
Qed.

End Compression.

(** The count pass of [getCompressedInLinksCount] finds as many runs. *)
Lemma count_fold_changes (inLinksOuts : list nat) (s0 s m cnt : nat) :
  (s0 <= s)%nat ->
  fold_left
    (fun compressedLinksCount j =>
       if (j =? s0)%nat || negb (nth j inLinksOuts 0 =? nth (j - 1) inLinksOuts 0)%nat
       then S compressedLinksCount else compressedLinksCount)
    (seq (S s) m) cnt
  = (cnt + source_changes inLinksOuts s m)%nat.
Proof.
  revert s cnt. induction m as [|m IH]; intros s cnt Hs; cbn [seq fold_left source_changes].
  - lia.
  - replace (S s =? s0)%nat with false by (symmetry; apply Nat.eqb_neq; lia).
    replace (S s - 1)%nat with s by lia. replace (s + 1)%nat with (S s) by lia.
    rewrite (Nat.eqb_sym (nth (S s) inLinksOuts 0%nat)). cbn [orb].
    destruct (nth s inLinksOuts 0 =? nth (S s) inLinksOuts 0)%nat; cbn [negb];
      rewrite IH by lia; lia.
Qed.

Lemma compressed_of_length (A : Arith) cidsSize tout inStart inCount inOuts inUsers stakes i :
  (i < cidsSize)%nat ->
  length (compressed_of A tout inStart inCount inOuts inUsers stakes i)
  = nth i (getCompressedInLinksCount cidsSize inStart inCount inOuts) 0%nat.
Proof.
  intros Hi. unfold getCompressedInLinksCount, compressed_of.
  rewrite (nth_lookup (map _ _)), list_lookup_fmap, lookup_seq_lt by done. cbn [fmap option_fmap option_map default Nat.add].
  destruct (nth i inCount 0 =? 0)%nat eqn:H0; [done|].
  apply Nat.eqb_neq in H0. unfold links_of.
  destruct (nth i inCount 0%nat) as [|m] eqn:Hm; [done|].
  cbn [seq fold_left]. rewrite Nat.eqb_refl. cbn [orb].
  rewrite count_fold_changes by lia.
  destruct (S m =? 1)%nat eqn:H1.
  - apply Nat.eqb_eq in H1. injection H1 as ->. reflexivity.
  - replace (nth i inStart 0 + S m - 1)%nat with (nth i inStart 0 + m)%nat by lia.
    change (nth i inStart 0%nat :: seq (S (nth i inStart 0%nat)) m)
      with (seq (nth i inStart 0%nat) (S m)).
    by rewrite emitted_length.
Qed.

(** What [getCompressedInLinks] does for one cid. *)
Lemma getCompressedInLinks_cid_spec (A : Arith) tout inStart inCount inOuts inUsers stakes
    compStart (arr : list (CompressedInLink (dbl A))) i :
  Z.of_nat (nth i compStart 0%nat
            + length (compressed_of A tout inStart inCount inOuts inUsers stakes i)) < 2 ^ 32 ->
  getCompressedInLinks_cid A tout inStart inCount inOuts inUsers stakes compStart arr i
  = list_inserts (nth i compStart 0%nat)
      (compressed_of A tout inStart inCount inOuts inUsers stakes i) arr.
Proof.
  unfold getCompressedInLinks_cid, compressed_of.
  destruct (nth i inCount 0 =? 0)%nat; [done|].
  destruct (nth i inCount 0 =? 1)%nat; intros Hidx.
  - rewrite u32_small by lia. reflexivity.
  - rewrite u32_small by lia. rewrite emit_fold by exact Hidx. reflexivity.
Qed.

(** Writing runs of entries at positions that do not overlap. *)
Lemma fold_inserts_slice {T : Type} (es : nat -> list T) (start : nat -> nat)
    (cids : list nat) (arr : list T) c k d :
  c ∈ cids ->
  (forall i, i ∈ cids -> i <> c ->
             (start i + length (es i) <= start c)%nat
             \/ (start c + length (es c) <= start i)%nat) ->
  (k < length (es c))%nat -> (start c + k < length arr)%nat ->
  nth (start c + k) (fold_left (fun a i => list_inserts (start i) (es i) a) cids arr) d
  = nth k (es c) d.
Proof.
  revert arr. induction cids as [|i cids IH]; intros arr Hin Hdis Hk Hlen;
    [by apply elem_of_nil in Hin|].
  cbn [fold_left]. destruct (decide (c ∈ cids)) as [Hc|Hc].
  - apply IH; [done| |done|by rewrite length_inserts]. intros; apply Hdis; [by right|done].
  - apply elem_of_cons in Hin as [<-|?]; [|done].
    assert (Hframe : forall (cs : list nat) (a : list T),
              (forall i, i ∈ cs -> i <> c ->
                         (start i + length (es i) <= start c)%nat
                         \/ (start c + length (es c) <= start i)%nat) ->
              c ∉ cs ->
              fold_left (fun a i => list_inserts (start i) (es i) a) cs a !! (start c + k)%nat
              = a !! (start c + k)%nat).
    { induction cs as [|j cs IHcs]; intros a Hd Hnot; [done|]. cbn [fold_left].
      rewrite IHcs.
      - destruct (Hd j) as [Hl|Hr]; [by left|intros ->; apply Hnot; by left| |].
        + apply list_lookup_inserts_ge. lia.
        + apply list_lookup_inserts_lt. lia.
      - intros; apply Hd; [by right|done].
      - intros ?; apply Hnot; by right. }
    rewrite !nth_lookup, Hframe; [|intros; apply Hdis; [by right|done]|done].
    rewrite list_lookup_inserts by lia. by replace (start c + k - start c)%nat with k by lia.
Qed.

Lemma fold_left_ext_in {S V : Type} (f g : S -> V -> S) (l : list V) (s : S) :
  (forall s v, v ∈ l -> f s v = g s v) -> fold_left f l s = fold_left g l s.
Proof.
  revert s. induction l as [|v l IH]; intros s Heq; [done|]. cbn [fold_left].
  rewrite Heq by left. apply IH. intros; apply Heq; by right.
Qed.

(** The compressed links of cid [c], read back from the array the kernel
    filled, when the start indices are the prefix sums of the counts. *)
Lemma getCompressedInLinks_nth (A : Arith) cidsSize tout inStart inCount inOuts inUsers stakes
    (arr : list (CompressedInLink (dbl A))) c k d :
  let count := getCompressedInLinksCount cidsSize inStart inCount inOuts in
  let compStart := fst (getLinksStartIndex cidsSize count) in
  Z.of_nat (links_before count cidsSize) < 2 ^ 32 ->
  (links_before count cidsSize <= length arr)%nat ->
  (c < cidsSize)%nat -> (k < nth c count 0)%nat ->
  nth (nth c compStart 0 + k)%nat
    (getCompressedInLinks A cidsSize tout inStart inCount inOuts inUsers stakes compStart arr) d
  = nth k (compressed_of A tout inStart inCount inOuts inUsers stakes c) d.
Proof.
  intros count compStart HK Hlen Hc Hk. unfold getCompressedInLinks.
  assert (Hend : forall i, (i < cidsSize)%nat ->
            (links_before count i + nth i count 0 <= links_before count cidsSize)%nat).
  { intros i Hi. destruct (decide (S i = cidsSize)) as [<-|Hne]; [done|].
    apply links_before_mono. lia. }
  rewrite (fold_left_ext_in _
             (fun a i => list_inserts (links_before count i)
                           (compressed_of A tout inStart inCount inOuts inUsers stakes i) a)).
  2:{ intros a i Hi. apply elem_of_seq in Hi.
      rewrite getCompressedInLinks_cid_spec; unfold compStart;
        rewrite getLinksStartIndex_nth by lia; [done|].
      rewrite (compressed_of_length A cidsSize) by lia. fold count.
      specialize (Hend i). lia. }
  unfold compStart. rewrite getLinksStartIndex_nth by lia.
  apply (fold_inserts_slice
           (fun i => compressed_of A tout inStart inCount inOuts inUsers stakes i)
           (links_before count)).
  - apply elem_of_seq. lia.
  - intros i Hi Hne. apply elem_of_seq in Hi.
    rewrite !(compressed_of_length A cidsSize) by lia. fold count.
    destruct (Nat.lt_trichotomy i c) as [Hlt|[->|Hlt]]; [left|done|right];
      by apply links_before_mono.
  - rewrite (compressed_of_length A cidsSize) by lia. exact Hk.
  - specialize (Hend c Hc). lia.
Qed.

Lemma sumZ_nonneg {V : Type} (f : V -> Z) (l : list V) :
  (forall v, v ∈ l -> 0 <= f v) -> 0 <= sumZ (map f l).
Proof.
  induction l as [|v l IH]; intros Hf; cbn [map sumZ fold_right]; [lia|].
  fold (sumZ (map f l)). specialize (Hf v (list_elem_of_here _ _)) as Hv.
  assert (0 <= sumZ (map f l)) by (apply IH; intros; apply Hf; by right). lia.
Qed.

Lemma map_seq_nth {T V : Type} (f : T -> V) (arr es : list T) (start : nat) (d : T) :
  (forall k, (k < length es)%nat -> nth (start + k) arr d = nth k es d) ->
  map (fun k => f (nth k arr d)) (seq start (length es)) = map f es.
Proof.
  revert start. induction es as [|e es IH]; intros start Hnth; [done|].
  cbn [length seq map]. f_equal.
  - specialize (Hnth 0%nat). rewrite Nat.add_0_r in Hnth. rewrite Hnth by (simpl; lia). done.
  - apply IH. intros k Hk. specialize (Hnth (S k)).
    rewrite Nat.add_succ_r in Hnth. cbn [Nat.add]. rewrite Hnth by (simpl; lia). done.
Qed.

(** ** Compression in exact arithmetic *)

Section CompressionExact.

Variables (cidsTotalOutStakes : list Z) (inLinksOuts inLinksUsers : list nat) (stakes : list Z).

Local Abbreviation backing := (backing_stake cidsTotalOutStakes).

Lemma emitted_sum last js acc :
  0 <= acc ->
  (forall j, j ∈ js -> 0 <= stake_of stakes inLinksUsers j) ->
  acc + sumZ (map (stake_of stakes inLinksUsers) js) < 2 ^ 64 ->
  (forall j, j ∈ js -> nth (nth j inLinksOuts 0%nat) cidsTotalOutStakes 0 <> 0) ->
  (sumR (map backing
           (fst (emitted exactR cidsTotalOutStakes inLinksOuts inLinksUsers stakes last js acc)))
   + IZR (snd (emitted exactR cidsTotalOutStakes inLinksOuts inLinksUsers stakes last js acc)))%R
  = IZR (acc + sumZ (map (stake_of stakes inLinksUsers) js)).
Proof.
  revert acc. induction js as [|j js IH]; intros acc Hacc Hpos Hsum Hout;
    cbn [emitted map sumZ fold_right] in *.
  - cbn [fst snd map sumR fold_right]. rewrite Z.add_0_r. lra.
  - fold (sumZ (map (stake_of stakes inLinksUsers) js)) in *.
    assert (Hj : 0 <= stake_of stakes inLinksUsers j) by (apply Hpos; by left).
    assert (Hrest : 0 <= sumZ (map (stake_of stakes inLinksUsers) js))
      by (apply sumZ_nonneg; intros; apply Hpos; by right).
    assert (Hu : u64 (acc + stake_of stakes inLinksUsers j) = acc + stake_of stakes inLinksUsers j)
      by (unfold u64; apply Z.mod_small; lia).
    rewrite Hu.
    destruct ((j =? last)%nat || negb (nth j inLinksOuts 0 =? nth (j + 1) inLinksOuts 0)%nat).
    + cbn [fst snd map sumR fold_right]. unfold backing_stake at 1.
      cbn [weight fromIndex].
      fold (sumR (map backing
                    (fst (emitted exactR cidsTotalOutStakes inLinksOuts inLinksUsers stakes
                            last js 0)))).
      specialize (IH 0). rewrite Z.add_0_l in IH.
      rewrite Rplus_assoc, IH; [|lia|intros; apply Hpos; by right|lia|intros; apply Hout; by right].
      unfold ddiv_rn. cbn [f_div f_of_u64 exactR].
      rewrite !plus_IZR. field. apply not_0_IZR. apply Hout. by left.
    + rewrite IH; [|lia|intros; apply Hpos; by right|lia|intros; apply Hout; by right].
      f_equal. lia.
Qed.

Lemma compressed_of_sum inStart inCount i :
  (forall j, j ∈ links_of inStart inCount i -> 0 <= stake_of stakes inLinksUsers j) ->
  sumZ (map (stake_of stakes inLinksUsers) (links_of inStart inCount i)) < 2 ^ 64 ->
  (forall j, j ∈ links_of inStart inCount i ->
             nth (nth j inLinksOuts 0%nat) cidsTotalOutStakes 0 <> 0) ->
  sumR (map backing
          (compressed_of exactR cidsTotalOutStakes inStart inCount inLinksOuts inLinksUsers
             stakes i))
  = IZR (sumZ (map (stake_of stakes inLinksUsers) (links_of inStart inCount i))).
Proof.
  unfold compressed_of, links_of. intros Hpos Hsum Hout.
  destruct (nth i inCount 0%nat) as [|[|m]] eqn:Hm.
  - reflexivity.
  - cbn [Nat.eqb seq map sumZ sumR fold_right] in *. unfold backing_stake.
    cbn [weight fromIndex]. unfold ddiv_rn. cbn [f_div f_of_u64 exactR]. rewrite Z.add_0_r, Rplus_0_r.
    field. apply not_0_IZR. apply Hout. by left.
  - cbn [Nat.eqb].
    pose proof (emitted_sum (nth i inStart 0 + S (S m) - 1)%nat
                  (seq (nth i inStart 0%nat) (S (S m))) 0 (Z.le_refl 0) Hpos Hsum Hout) as Hs.
    rewrite Z.add_0_l in Hs. rewrite <- Hs.
    assert (Hl : snd (emitted exactR cidsTotalOutStakes inLinksOuts inLinksUsers stakes
                        (nth i inStart 0 + S (S m) - 1)%nat
                        (seq (nth i inStart 0%nat) (S (S m))) 0) = 0).
    { rewrite (seq_S (S m)).
      replace (nth i inStart 0 + S m)%nat with (nth i inStart 0 + S (S m) - 1)%nat by lia.
      apply emitted_leftover. }
    rewrite Hl. lra.
Qed.

End CompressionExact.




(** ** Binary digits *)

Lemma digits2_pos_bounds p :
  2 ^ (Zpos (digits2_pos p) - 1) <= Zpos p < 2 ^ Zpos (digits2_pos p).
Proof.
  induction p as [p IH|p IH|]; cbn [digits2_pos].
  - rewrite Pos2Z.inj_succ, Z.pow_succ_r by lia.
    replace (Z.succ (Zpos (digits2_pos p)) - 1) with (Z.succ (Zpos (digits2_pos p) - 1)) by lia.
    rewrite Z.pow_succ_r by lia. lia.
  - rewrite Pos2Z.inj_succ, Z.pow_succ_r by lia.
    replace (Z.succ (Zpos (digits2_pos p)) - 1) with (Z.succ (Zpos (digits2_pos p) - 1)) by lia.
    rewrite Z.pow_succ_r by lia. lia.
  - cbn. lia.
Qed.

Lemma Zdigits2_bounds m : 0 < m -> 2 ^ (Zdigits2 m - 1) <= m < 2 ^ Zdigits2 m.
Proof. destruct m as [|p|p]; try lia. intros _. apply digits2_pos_bounds. Qed.

Lemma Zdigits2_pos m : 0 < m -> 0 < Zdigits2 m.
Proof. destruct m; simpl; lia. Qed.

Lemma Zdigits2_unique m d : 0 < m -> 2 ^ (d - 1) <= m < 2 ^ d -> Zdigits2 m = d.
Proof.
  intros Hm [Hl Hu]. pose proof (Zdigits2_bounds m Hm) as [Hl' Hu'].
  pose proof (Zdigits2_pos m Hm).
  assert (0 < d).
  { destruct (Z.lt_ge_cases 0 d) as [|Hd]; [done|].
    destruct (Z.eq_dec d 0) as [->|]; [simpl in Hu; lia|].
    rewrite Z.pow_neg_r in Hu by lia. lia. }
  assert (d - 1 < Zdigits2 m) by (apply (Z.pow_lt_mono_r_iff 2); lia).
  assert (Zdigits2 m - 1 < d) by (apply (Z.pow_lt_mono_r_iff 2); lia).
  lia.
Qed.

Lemma Zdigits2_le m m' : 0 < m -> m <= m' -> Zdigits2 m <= Zdigits2 m'.
Proof.
  intros Hm Hle. pose proof (Zdigits2_bounds m Hm) as [Hl _].
  pose proof (Zdigits2_bounds m' ltac:(lia)) as [_ Hu].
  pose proof (Zdigits2_pos m Hm). pose proof (Zdigits2_pos m' ltac:(lia)).
  assert (Zdigits2 m - 1 < Zdigits2 m'); [|lia].
  apply (Z.pow_lt_mono_r_iff 2); lia.
Qed.

Lemma Zdigits2_shift m k : 0 < m -> 0 <= k -> Zdigits2 (m * 2 ^ k) = Zdigits2 m + k.
Proof.
  intros Hm Hk. pose proof (Zdigits2_bounds m Hm) as [Hl Hu].
  pose proof (Zdigits2_pos m Hm).
  apply Zdigits2_unique; [nia|].
  replace (Zdigits2 m + k - 1) with (Zdigits2 m - 1 + k) by lia.
  rewrite !Z.pow_add_r by lia. nia.
Qed.

(** ** Shifting a mantissa to the right *)

Lemma shr_1_spec m r s :
  0 <= m -> shr_1 (Build_shr_record m r s) = Build_shr_record (m / 2) (Z.odd m) (r || s).
Proof.
  intros Hm. destruct m as [|p|p]; [reflexivity| |lia].
  rewrite <- Z.div2_div. destruct p; reflexivity.
Qed.

Lemma iter_pos_nat {T : Type} (f : T -> T) p x :
  SpecFloat.iter_pos f p x = Nat.iter (Pos.to_nat p) f x.
Proof.
  revert x. induction p as [p IH|p IH|]; intros x; cbn [SpecFloat.iter_pos].
  - rewrite !IH, Pos2Nat.inj_xI.
    replace (S (2 * Pos.to_nat p)) with (Pos.to_nat p + (Pos.to_nat p + 1))%nat by lia.
    rewrite !Nat.iter_add. reflexivity.
  - rewrite !IH, Pos2Nat.inj_xO.
    replace (2 * Pos.to_nat p)%nat with (Pos.to_nat p + Pos.to_nat p)%nat by lia.
    rewrite Nat.iter_add. reflexivity.
  - reflexivity.
Qed.

Lemma mod_pow2_succ m k :
  0 <= m -> 0 <= k ->
  (m mod 2 ^ (k + 1) =? 0) = negb (Z.testbit m k) && (m mod 2 ^ k =? 0).
Proof.
  intros Hm Hk.
  assert (H2k : 0 < 2 ^ k) by (apply Z.pow_pos_nonneg; lia).
  rewrite Z.pow_add_r, Z.pow_1_r by lia.
  rewrite Z.rem_mul_r by lia.
  rewrite Z.testbit_eqb by lia.
  pose proof (Z.mod_pos_bound m (2 ^ k) H2k).
  pose proof (Z.mod_pos_bound (m / 2 ^ k) 2 ltac:(lia)).
  destruct (Z.eqb_spec ((m / 2 ^ k) mod 2) 1) as [->|Hne]; cbn [negb andb].
  - apply Z.eqb_neq. lia.
  - replace ((m / 2 ^ k) mod 2) with 0 by lia. f_equal. lia.
Qed.

Lemma shr_iter k m r s :
  0 <= m ->
  Nat.iter (S k) shr_1 (Build_shr_record m r s)
  = Build_shr_record (m / 2 ^ (Z.of_nat (S k))) (Z.testbit m (Z.of_nat k))
      (r || s || negb (m mod 2 ^ (Z.of_nat k) =? 0)).
Proof.
  intros Hm. induction k as [|k IH].
  - cbn [Nat.iter]. rewrite shr_1_spec by done. f_equal.
    change (Z.of_nat 0) with 0. rewrite Z.pow_0_r, Z.mod_1_r. cbn. by rewrite orb_false_r.
  - rewrite Nat.iter_succ, IH.
    assert (H2k : 0 < 2 ^ Z.of_nat (S k)) by (apply Z.pow_pos_nonneg; lia).
    rewrite shr_1_spec by (apply Z.div_pos; lia). f_equal.
    + rewrite Z.div_div by lia. f_equal. rewrite (Nat2Z.inj_succ (S k)), Z.pow_succ_r; lia.
    + rewrite Z.testbit_odd, Z.shiftr_div_pow2 by lia. reflexivity.
    + rewrite (Nat2Z.inj_succ k), <- Z.add_1_r, mod_pow2_succ by lia.
      rewrite negb_andb, negb_involutive.
      destruct (Z.testbit m (Z.of_nat k)), r, s, (m mod 2 ^ Z.of_nat k =? 0); reflexivity.
Qed.

(** ** Rounding an integer to nearest, ties to even *)

Lemma pow2_pos k : 0 <= k -> 0 < 2 ^ k.
Proof. intros. apply Z.pow_pos_nonneg; lia. Qed.

Lemma pow2_split n : 0 < n -> 2 ^ n = 2 * 2 ^ (n - 1).
Proof. intros. rewrite <- Z.pow_succ_r by lia. f_equal. lia. Qed.

Lemma rne_range m n : 0 <= m -> 0 < n -> m / 2 ^ n <= rne m n <= m / 2 ^ n + 1.
Proof.
  intros Hm Hn. unfold rne. destruct (Z.leb_spec n 0); [lia|]. cbv zeta.
  repeat match goal with |- context [if ?b then _ else _] => destruct b end; lia.
Qed.

Lemma rne_mono m1 m2 n : 0 <= m1 -> m1 <= m2 -> 0 <= n -> rne m1 n <= rne m2 n.
Proof.
  intros H1 H12 Hn. unfold rne. destruct (Z.leb_spec n 0); [lia|]. cbv zeta.
  pose proof (pow2_pos n ltac:(lia)) as Hp. pose proof (pow2_split n ltac:(lia)) as Hs.
  pose proof (pow2_pos (n - 1) ltac:(lia)) as Hh.
  pose proof (Z.div_mod m1 (2 ^ n) ltac:(lia)) as E1.
  pose proof (Z.div_mod m2 (2 ^ n) ltac:(lia)) as E2.
  pose proof (Z.mod_pos_bound m1 (2 ^ n) Hp) as B1.
  pose proof (Z.mod_pos_bound m2 (2 ^ n) Hp) as B2.
  assert (Hq : m1 / 2 ^ n <= m2 / 2 ^ n) by (apply Z.div_le_mono; lia).
  destruct (Z.eq_dec (m1 / 2 ^ n) (m2 / 2 ^ n)) as [Heq|Hne].
  - rewrite Heq in *.
    repeat match goal with
      | |- context [Z.ltb ?a ?b] => destruct (Z.ltb_spec a b)
      | |- context [Z.even ?a] => destruct (Z.even a)
      end; nia.
  - repeat match goal with
      | |- context [if ?b then _ else _] => destruct b
      end; lia.
Qed.

Lemma rne_exact a n : 0 <= n -> rne (a * 2 ^ n) n = a.
Proof.
  intros Hn. unfold rne. destruct (Z.leb_spec n 0).
  - replace n with 0 by lia. rewrite Z.pow_0_r. lia.
  - cbv zeta. pose proof (pow2_pos n ltac:(lia)). pose proof (pow2_pos (n - 1) ltac:(lia)).
    rewrite Z.div_mul, Z.mod_mul by lia.
    destruct (Z.ltb_spec 0 (2 ^ (n - 1))); lia.
Qed.

Lemma rne_scale m n k : 0 < n -> 0 <= k -> rne (m * 2 ^ k) (n + k) = rne m n.
Proof.
  intros Hn Hk. unfold rne.
  destruct (Z.leb_spec (n + k) 0); [lia|]. destruct (Z.leb_spec n 0); [lia|]. cbv zeta.
  pose proof (pow2_pos n ltac:(lia)). pose proof (pow2_pos k Hk).
  pose proof (pow2_pos (n - 1) ltac:(lia)).
  rewrite (Z.pow_add_r 2 n k) by lia.
  rewrite Z.div_mul_cancel_r, Z.mul_mod_distr_r by lia.
  replace (n + k - 1) with (n - 1 + k) by lia. rewrite (Z.pow_add_r 2 (n - 1) k) by lia.
  set (q := m / 2 ^ n). set (r := m mod 2 ^ n). set (h := 2 ^ (n - 1)).
  destruct (Z.ltb_spec (r * 2 ^ k) (h * 2 ^ k)), (Z.ltb_spec r h); try nia.
  destruct (Z.ltb_spec (h * 2 ^ k) (r * 2 ^ k)), (Z.ltb_spec h r); try nia; reflexivity.
Qed.

Lemma rne_upper m n a : 0 <= m -> 0 <= n -> 0 <= a -> m < 2 ^ (a + n) -> rne m n <= 2 ^ a.
Proof.
  intros Hm Hn Ha Hlt. destruct (Z.eq_dec n 0) as [->|Hne].
  - unfold rne. cbn [Z.leb Z.compare]. rewrite Z.add_0_r in Hlt. lia.
  - pose proof (rne_range m n Hm ltac:(lia)). pose proof (pow2_pos n Hn).
    assert (m / 2 ^ n < 2 ^ a); [|lia].
    apply Z.div_lt_upper_bound; [lia|]. rewrite <- Z.pow_add_r by lia.
    by rewrite Z.add_comm.
Qed.

Lemma rne_lower m n a : 0 <= n -> 0 <= a -> 2 ^ (a + n) <= m -> 2 ^ a <= rne m n.
Proof.
  intros Hn Ha Hle. pose proof (pow2_pos (a + n) ltac:(lia)).
  destruct (Z.eq_dec n 0) as [->|Hne].
  - unfold rne. cbn [Z.leb Z.compare]. rewrite Z.add_0_r in Hle. lia.
  - pose proof (rne_range m n ltac:(lia) ltac:(lia)). pose proof (pow2_pos n Hn).
    assert (2 ^ a <= m / 2 ^ n); [|lia].
    apply Z.div_le_lower_bound; [lia|]. rewrite <- Z.pow_add_r by lia.
    by rewrite Z.add_comm.
Qed.

Lemma rne_nonneg m n : 0 <= m -> 0 <= n -> 0 <= rne m n.
Proof.
  intros Hm Hn. destruct (Z.eq_dec n 0) as [->|Hne]; [unfold rne; cbn; lia|].
  pose proof (rne_range m n Hm ltac:(lia)). pose proof (pow2_pos n Hn).
  pose proof (Z.div_pos m (2 ^ n) Hm ltac:(lia)). lia.
Qed.

(** The rounding bits that [shr] collects select [rne]. *)
Lemma shr_round m p :
  0 <= m ->
  let mrs := SpecFloat.iter_pos shr_1 p (shr_record_of_loc m loc_Exact) in
  round_nearest_even (shr_m mrs) (loc_of_shr_record mrs) = rne m (Zpos p).
Proof.
  intros Hm mrs. subst mrs. rewrite iter_pos_nat. cbn [shr_record_of_loc].
  destruct (Pos2Nat.is_succ p) as [k Hk]. rewrite Hk, shr_iter by done.
  assert (Hn : Zpos p = Z.of_nat k + 1) by lia.
  replace (Z.of_nat (S k)) with (Zpos p) by lia.
  unfold rne. destruct (Z.leb_spec (Zpos p) 0); [lia|]. cbv zeta.
  replace (Zpos p - 1) with (Z.of_nat k) by lia. cbn [shr_m orb].
  set (h := 2 ^ Z.of_nat k). set (q := m / 2 ^ Zpos p).
  pose proof (pow2_pos (Z.of_nat k) ltac:(lia)) as Hh. fold h in Hh.
  assert (Hr : m mod 2 ^ Zpos p = m mod h + h * ((m / h) mod 2)).
  { rewrite Hn, Z.pow_add_r, Z.pow_1_r by lia. apply Z.rem_mul_r; lia. }
  rewrite Hr. rewrite (Z.testbit_eqb m (Z.of_nat k)) by lia. fold h.
  pose proof (Z.mod_pos_bound m h Hh). pose proof (Z.mod_pos_bound (m / h) 2 ltac:(lia)).
  destruct (Z.eqb_spec ((m / h) mod 2) 1) as [Hb|Hb];
    destruct (Z.eqb_spec (m mod h) 0) as [Ht|Ht]; cbn [negb loc_of_shr_record round_nearest_even].
  - rewrite Hb, Ht.
    destruct (Z.ltb_spec (0 + h * 1) h); [lia|].
    destruct (Z.ltb_spec h (0 + h * 1)); [lia|]. reflexivity.
  - rewrite Hb.
    destruct (Z.ltb_spec (m mod h + h * 1) h); [lia|].
    destruct (Z.ltb_spec h (m mod h + h * 1)); [reflexivity|lia].
  - replace ((m / h) mod 2) with 0 by lia. rewrite Ht.
    destruct (Z.ltb_spec (0 + h * 0) h); [reflexivity|lia].
  - replace ((m / h) mod 2) with 0 by lia.
    destruct (Z.ltb_spec (m mod h + h * 0) h); [reflexivity|lia].
Qed.

(** ** What binary64 rounding returns *)

Lemma fexp_fexp64 x : fexp 53 1024 x = fexp64 x.
Proof. reflexivity. Qed.

Lemma Zdigits2_small q : 0 < q -> q < 2 ^ 53 -> Zdigits2 q <= 53.
Proof.
  intros Hq Hlt. pose proof (Zdigits2_bounds q Hq) as [Hl _].
  pose proof (Zdigits2_pos q Hq).
  assert (Zdigits2 q - 1 < 53); [|lia]. apply (Z.pow_lt_mono_r_iff 2); lia.
Qed.

(** The second shift of [binary_round_aux] renormalises a mantissa that
    rounding has pushed to 2^53. *)
Lemma renormalize q E :
  0 <= q <= 2 ^ 53 -> -1074 <= E ->
  (let '(mrs, e) := shr_fexp 53 1024 q E loc_Exact in
   match shr_m mrs with
   | Z0 => S754_zero false
   | Zpos m => if e <=? 1024 - 53 then S754_finite false m e else S754_infinity false
   | Zneg _ => S754_nan
   end)
  = pack q E.
Proof.
  intros Hq HE. unfold shr_fexp. rewrite fexp_fexp64.
  destruct (Z.eq_dec q (2 ^ 53)) as [->|Hne].
  - change (Zdigits2 (2 ^ 53)) with 54. unfold fexp64.
    replace (Z.max (54 + E - 53) (-1074) - E) with 1 by lia.
    cbn [shr SpecFloat.iter_pos shr_record_of_loc]. change (2 ^ 53) with 9007199254740992.
    cbn [shr_1 shr_m pack Z.eqb Pos.eqb]. reflexivity.
  - destruct q as [|p|p]; [| |lia].
    + change (Zdigits2 0) with 0. unfold fexp64.
      destruct (Z.max (0 + E - 53) (-1074) - E) eqn:Hn; [reflexivity|lia|reflexivity].
    + pose proof (Zdigits2_small (Zpos p) ltac:(lia) ltac:(lia)) as Hd.
      unfold fexp64.
      destruct (Z.max (Zdigits2 (Zpos p) + E - 53) (-1074) - E) eqn:Hn; [|lia|];
        cbn [shr shr_record_of_loc shr_m pack];
        destruct (Z.eqb_spec (Zpos p) (2 ^ 53)); try lia; reflexivity.
Qed.

(** [binary_round_aux] on a positive mantissa that has at least as many
    digits as the format needs. *)
Lemma bra_spec M e :
  0 < M -> e <= fexp64 (Zdigits2 M + e) ->
  binary_round_aux 53 1024 false M e loc_Exact
  = pack (rne M (fexp64 (Zdigits2 M + e) - e)) (fexp64 (Zdigits2 M + e)).
Proof.
  intros HM He. set (E := fexp64 (Zdigits2 M + e)) in *.
  assert (HE : -1074 <= E) by (unfold E, fexp64; lia).
  assert (Hq : 0 <= rne M (E - e) <= 2 ^ 53).
  { split; [apply rne_nonneg; lia|]. apply rne_upper; try lia.
    pose proof (Zdigits2_bounds M HM) as [_ Hu]. pose proof (Zdigits2_pos M HM).
    eapply Z.lt_le_trans; [exact Hu|]. apply Z.pow_le_mono_r; [lia|].
    unfold E, fexp64. lia. }
  rewrite <- (renormalize (rne M (E - e)) E Hq HE).
  unfold binary_round_aux. unfold shr_fexp at 1. rewrite fexp_fexp64. fold E.
  destruct (E - e) as [|p|p] eqn:Hn; [| |lia].
  - cbn [shr shr_record_of_loc shr_m loc_of_shr_record round_nearest_even].
    replace e with E by lia. reflexivity.
  - cbn [shr]. rewrite shr_round by lia.
    replace (e + Zpos p) with E by lia. reflexivity.
Qed.

Lemma pow2_le a b : 0 <= a <= b -> 2 ^ a <= 2 ^ b.
Proof. intros. apply Z.pow_le_mono_r; lia. Qed.

Lemma pow2_lt a b : 0 <= a < b -> 2 ^ a < 2 ^ b.
Proof. intros. apply Z.pow_lt_mono_r; lia. Qed.

Lemma pow2_mul a b : 0 <= a -> 0 <= b -> 2 ^ a * 2 ^ b = 2 ^ (a + b).
Proof. intros. rewrite Z.pow_add_r; lia. Qed.

Lemma inf_level_pos : 0 < inf_level.
Proof. reflexivity. Qed.

Lemma scaled_below q E a b :
  0 <= q < 2 ^ a -> 0 <= a -> 0 <= E + 1074 -> a + (E + 1074) <= b ->
  q * 2 ^ (E + 1074) < 2 ^ b.
Proof.
  intros Hq Ha HE Hb. pose proof (pow2_pos (E + 1074) HE).
  pose proof (pow2_mul a (E + 1074) Ha HE). pose proof (pow2_le (a + (E + 1074)) b ltac:(lia)).
  nia.
Qed.

Lemma scaled_above q E a b :
  2 ^ a <= q -> 0 <= a -> 0 <= E + 1074 -> b <= a + (E + 1074) ->
  2 ^ b <= q * 2 ^ (E + 1074).
Proof.
  intros Hq Ha HE Hb. pose proof (pow2_pos (E + 1074) HE).
  pose proof (pow2_mul a (E + 1074) Ha HE).
  destruct (Z.le_gt_cases 0 b).
  - pose proof (pow2_le b (a + (E + 1074)) ltac:(lia)). nia.
  - rewrite (Z.pow_neg_r 2 b) by lia. pose proof (pow2_pos a Ha). nia.
Qed.

(** [pack] yields canonical non-negative floats. *)
Lemma pack_nonneg q E : fits q E -> nonneg64 (pack q E) = true.
Proof.
  intros [[Hq0 Hq] [HE Hn]]. unfold pack. destruct q as [|p|p]; [reflexivity| |reflexivity].
  destruct (Z.eqb_spec (Zpos p) (2 ^ 53)) as [Heq|Hne].
  - destruct (Z.leb_spec (E + 1) 971); [|reflexivity].
    cbn [nonneg64 negb andb]. unfold bounded, canonical_mantissa.
    rewrite fexp_fexp64. change (Zpos (digits2_pos 4503599627370496)) with 53.
    unfold fexp64. apply andb_true_intro; split; [|apply Z.leb_le; lia].
    apply Z.eqb_eq. lia.
  - destruct (Z.leb_spec E 971); [|reflexivity].
    cbn [nonneg64 negb andb]. unfold bounded, canonical_mantissa.
    rewrite fexp_fexp64. change (Zpos (digits2_pos p)) with (Zdigits2 (Zpos p)).
    apply andb_true_intro; split; [|apply Z.leb_le; lia].
    apply Z.eqb_eq. unfold fexp64.
    pose proof (Zdigits2_small (Zpos p) ltac:(lia) ltac:(lia)).
    destruct Hn as [->|Hn]; [lia|].
    assert (53 <= Zdigits2 (Zpos p)); [|lia].
    pose proof (Zdigits2_bounds (Zpos p) ltac:(lia)) as [_ Hu].
    assert (52 < Zdigits2 (Zpos p)); [|lia].
    apply (Z.pow_lt_mono_r_iff 2); [lia| |lia].
    pose proof (Zdigits2_pos (Zpos p) ltac:(lia)). lia.
Qed.

(** The level of [pack q E] is [q * 2^(E + 1074)], capped at +infinity. *)
Lemma pack_level q E :
  fits q E -> level (pack q E) = Z.min (q * 2 ^ (E + 1074)) inf_level.
Proof.
  intros [[Hq0 Hq] [HE Hn]]. unfold pack. pose proof inf_level_pos.
  destruct q as [|p|p]; [cbn [level]; lia| |lia].
  destruct (Z.eqb_spec (Zpos p) (2 ^ 53)) as [Heq|Hne].
  - rewrite Heq. destruct (Z.leb_spec (E + 1) 971).
    + cbn [level]. replace (E + 1 + 1074) with (1 + (E + 1074)) by lia.
      rewrite <- pow2_mul by lia.
      change 4503599627370496 with (2 ^ 52). change (2 ^ 1) with 2.
      replace (2 ^ 52 * (2 * 2 ^ (E + 1074))) with (2 ^ 53 * 2 ^ (E + 1074))
        by (change (2 ^ 53) with (2 * 2 ^ 52); ring).
      pose proof (scaled_below (2 ^ 53) E 54 2098 ltac:(split; [lia|reflexivity])
                    ltac:(lia) ltac:(lia) ltac:(lia)).
      unfold inf_level. lia.
    + cbn [level].
      pose proof (scaled_above (2 ^ 53) E 53 2098 ltac:(lia) ltac:(lia) ltac:(lia) ltac:(lia)).
      unfold inf_level in *. lia.
  - destruct (Z.leb_spec E 971).
    + cbn [level].
      pose proof (scaled_below (Zpos p) E 53 2098 ltac:(lia) ltac:(lia) ltac:(lia) ltac:(lia)).
      unfold inf_level. lia.
    + cbn [level]. destruct Hn as [->|Hn]; [lia|].
      pose proof (scaled_above (Zpos p) E 52 2098 ltac:(lia) ltac:(lia) ltac:(lia) ltac:(lia)).
      unfold inf_level in *. lia.
Qed.

Lemma round_fits M e :
  0 < M -> e <= fexp64 (Zdigits2 M + e) ->
  fits (rne M (fexp64 (Zdigits2 M + e) - e)) (fexp64 (Zdigits2 M + e)).
Proof.
  intros HM He. set (E := fexp64 (Zdigits2 M + e)) in *.
  pose proof (Zdigits2_bounds M HM) as [Hl Hu]. pose proof (Zdigits2_pos M HM).
  assert (HE : -1074 <= E) by (unfold E, fexp64; lia).
  split; [split|split; [exact HE|]].
  - apply rne_nonneg; lia.
  - apply rne_upper; try lia.
    eapply Z.lt_le_trans; [exact Hu|]. apply pow2_le. unfold E, fexp64. lia.
  - destruct (Z.eq_dec E (-1074)) as [|Hne]; [left; assumption|right].
    apply rne_lower; try lia.
    eapply Z.le_trans; [|exact Hl]. apply pow2_le. unfold E, fexp64 in *. lia.
Qed.

Lemma bra_nonneg M e :
  0 < M -> e <= fexp64 (Zdigits2 M + e) ->
  nonneg64 (binary_round_aux 53 1024 false M e loc_Exact) = true.
Proof.
  intros HM He. rewrite bra_spec by assumption. apply pack_nonneg, round_fits; assumption.
Qed.

Lemma round53_scaled M e :
  0 < M -> -2148 <= e -> e <= fexp64 (Zdigits2 M + e) ->
  round53 (M * 2 ^ (e + 2148))
  = Z.min (rne M (fexp64 (Zdigits2 M + e) - e) * 2 ^ (fexp64 (Zdigits2 M + e) + 1074)) inf_level.
Proof.
  intros HM He HE. unfold round53. rewrite Zdigits2_shift by lia.
  replace (Zdigits2 M + (e + 2148) - 2148) with (Zdigits2 M + e) by lia.
  set (E := fexp64 (Zdigits2 M + e)) in *. cbv zeta. f_equal. f_equal.
  destruct (Z.eq_dec E e) as [Heq|Hne].
  - rewrite Heq, rne_exact by lia. replace (e - e) with 0 by lia. reflexivity.
  - replace (E + 2148) with (E - e + (e + 2148)) by lia. apply rne_scale; lia.
Qed.

Lemma bra_level M e :
  0 < M -> -2148 <= e -> e <= fexp64 (Zdigits2 M + e) ->
  level (binary_round_aux 53 1024 false M e loc_Exact) = round53 (M * 2 ^ (e + 2148)).
Proof.
  intros HM He HE. rewrite bra_spec, pack_level, round53_scaled by auto using round_fits.
  reflexivity.
Qed.

Lemma shl_align_spec m e e' :
  shl_align m e e' = if e' <? e then (Z.to_pos (Zpos m * 2 ^ (e - e')), e') else (m, e).
Proof.
  unfold shl_align. destruct (Z.ltb_spec e' e) as [Hlt|Hge].
  - destruct (e' - e) as [|d|d] eqn:Hd; [lia|lia|].
    f_equal. replace (e - e') with (Zpos d) by lia.
    fold (shift_pos d m). apply Pos2Z.inj. rewrite shift_pos_correct, Z2Pos.id.
    + rewrite Z.mul_comm. reflexivity.
    + pose proof (pow2_pos (Zpos d) ltac:(lia)). lia.
  - destruct (e' - e) as [|d|d] eqn:Hd; [reflexivity|reflexivity|lia].
Qed.

Lemma round53_0 : round53 0 = 0.
Proof. reflexivity. Qed.

(** Rounding a non-negative integer times a power of two. *)
Lemma normalize_spec M e :
  0 <= M ->
  nonneg64 (binary_normalize 53 1024 M e false) = true /\
  (-2148 <= e -> level (binary_normalize 53 1024 M e false) = round53 (M * 2 ^ (e + 2148))).
Proof.
  intros HM. destruct M as [|p|p]; [split; [reflexivity|]| |lia].
  { intros _. rewrite Z.mul_0_l. reflexivity. }
  cbn [binary_normalize]. unfold binary_round. rewrite fexp_fexp64, shl_align_spec.
  change (Zpos (digits2_pos p)) with (Zdigits2 (Zpos p)).
  set (E := fexp64 (Zdigits2 (Zpos p) + e)).
  assert (HE : -1074 <= E) by (unfold E, fexp64; lia).
  destruct (Z.ltb_spec E e) as [Hlt|Hge].
  - pose proof (pow2_pos (e - E) ltac:(lia)) as Hp.
    rewrite Z2Pos.id by lia.
    assert (Hd : fexp64 (Zdigits2 (Zpos p * 2 ^ (e - E)) + E) = E).
    { rewrite Zdigits2_shift by lia. fold E.
      replace (Zdigits2 (Zpos p) + (e - E) + E) with (Zdigits2 (Zpos p) + e) by lia.
      reflexivity. }
    split; [apply bra_nonneg; lia|]. intros _.
    rewrite bra_level by lia. f_equal.
    rewrite <- Z.mul_assoc, pow2_mul by lia. f_equal. f_equal. lia.
  - split; [apply bra_nonneg; [lia|assumption]|]. intros He.
    apply bra_level; [lia|assumption|assumption].
Qed.

Lemma rne_nonneg' m n : 0 <= m -> 0 <= rne m n.
Proof.
  intros Hm. destruct (Z.le_gt_cases 0 n); [apply rne_nonneg; assumption|].
  unfold rne. destruct (Z.leb_spec n 0); lia.
Qed.

Lemma fexp64_ge e : -1074 <= fexp64 e.
Proof. unfold fexp64. lia. Qed.

Lemma round53_range U : 0 <= U -> 0 <= round53 U <= inf_level.
Proof.
  intros HU. unfold round53. cbv zeta. pose proof inf_level_pos.
  pose proof (fexp64_ge (Zdigits2 U - 2148)).
  pose proof (rne_nonneg' U (fexp64 (Zdigits2 U - 2148) + 2148) HU).
  pose proof (pow2_pos (fexp64 (Zdigits2 U - 2148) + 1074) ltac:(lia)). nia.
Qed.

(** Rounding to nearest is monotone. *)
Lemma round53_mono U U' : 0 <= U -> U <= U' -> round53 U <= round53 U'.
Proof.
  intros HU Hle. destruct (Z.eq_dec U 0) as [->|Hne].
  { rewrite round53_0. apply round53_range. lia. }
  assert (HU0 : 0 < U) by lia. assert (HU'0 : 0 < U') by lia.
  pose proof (Zdigits2_le U U' HU0 Hle) as Hd.
  pose proof (Zdigits2_bounds U HU0) as [Hl Hu].
  pose proof (Zdigits2_bounds U' HU'0) as [Hl' Hu'].
  pose proof (Zdigits2_pos U HU0). pose proof (Zdigits2_pos U' HU'0).
  unfold round53. cbv zeta.
  set (E := fexp64 (Zdigits2 U - 2148)). set (E' := fexp64 (Zdigits2 U' - 2148)).
  assert (HE : -1074 <= E) by apply fexp64_ge.
  assert (HEE : E <= E') by (unfold E, E', fexp64; lia).
  apply Z.min_le_compat_r.
  destruct (Z.eq_dec E E') as [Heq|Hlt].
  - rewrite <- Heq. apply Z.mul_le_mono_nonneg_r; [pose proof (pow2_pos (E + 1074)); lia|].
    apply rne_mono; lia.
  - assert (Hq : rne U (E + 2148) <= 2 ^ 53).
    { apply rne_upper; try lia. eapply Z.lt_le_trans; [exact Hu|].
      apply pow2_le. unfold E, fexp64. lia. }
    assert (Hq' : 2 ^ 52 <= rne U' (E' + 2148)).
    { apply rne_lower; try lia. eapply Z.le_trans; [|exact Hl'].
      apply pow2_le. unfold E', E, fexp64 in *. lia. }
    pose proof (pow2_pos (E + 1074) ltac:(lia)).
    pose proof (pow2_mul 1 (E + 1074) ltac:(lia) ltac:(lia)) as Hm.
    pose proof (pow2_le (1 + (E + 1074)) (E' + 1074) ltac:(lia)).
    change (2 ^ 1) with 2 in Hm. change (2 ^ 53) with (2 * 2 ^ 52) in Hq.
    assert (0 < 2 ^ 52) by reflexivity. nia.
Qed.

(** Everything from 2^1024 on rounds to +infinity. *)
Lemma round53_big U : 2 ^ 3172 <= U -> round53 U = inf_level.
Proof.
  intros HU. assert (HU0 : 0 < U) by (pose proof (pow2_pos 3172); lia).
  pose proof (Zdigits2_bounds U HU0) as [Hl Hu]. pose proof (Zdigits2_pos U HU0).
  assert (Hd : 3172 < Zdigits2 U).
  { apply (Z.pow_lt_mono_r_iff 2); lia. }
  unfold round53. cbv zeta. set (E := fexp64 (Zdigits2 U - 2148)).
  assert (HE : E = Zdigits2 U - 2148 - 53) by (unfold E, fexp64; lia).
  assert (Hq : 2 ^ 52 <= rne U (E + 2148)).
  { apply rne_lower; try lia. eapply Z.le_trans; [|exact Hl]. apply pow2_le. lia. }
  pose proof (scaled_above _ E 52 2098 Hq ltac:(lia) ltac:(lia) ltac:(lia)).
  unfold inf_level in *. lia.
Qed.

(** What canonical form says about mantissa and exponent. *)
Lemma bounded_spec m e :
  bounded 53 1024 m e = true ->
  -1074 <= e <= 971 /\ Zpos m < 2 ^ 53 /\ fexp64 (Zdigits2 (Zpos m) + e) = e /\
  (e = -1074 \/ Zdigits2 (Zpos m) = 53).
Proof.
  unfold bounded, canonical_mantissa. intros H. apply andb_prop in H as [Hc He].
  apply Z.eqb_eq in Hc. apply Z.leb_le in He. rewrite fexp_fexp64 in Hc.
  change (Zpos (digits2_pos m)) with (Zdigits2 (Zpos m)) in Hc.
  pose proof (Zdigits2_bounds (Zpos m) ltac:(lia)) as [Hl Hu].
  pose proof (Zdigits2_pos (Zpos m) ltac:(lia)).
  assert (Hd : Zdigits2 (Zpos m) <= 53) by (unfold fexp64 in Hc; lia).
  split; [unfold fexp64 in Hc; lia|]. split; [|split; [exact Hc|unfold fexp64 in Hc; lia]].
  eapply Z.lt_le_trans; [exact Hu|]. apply pow2_le. lia.
Qed.

Lemma finite_level m e :
  bounded 53 1024 m e = true -> 0 < Zpos m * 2 ^ (e + 1074) < inf_level.
Proof.
  intros H. apply bounded_spec in H as (He & Hm & _ & _).
  pose proof (pow2_pos (e + 1074) ltac:(lia)).
  pose proof (scaled_below (Zpos m) e 53 2098 ltac:(lia) ltac:(lia) ltac:(lia) ltac:(lia)).
  unfold inf_level. lia.
Qed.

(** A canonical number rounds to itself. *)
Lemma round53_canonical m e :
  bounded 53 1024 m e = true ->
  round53 (Zpos m * 2 ^ (e + 1074) * 2 ^ 1074) = Zpos m * 2 ^ (e + 1074).
Proof.
  intros H. pose proof (finite_level m e H). apply bounded_spec in H as (He & Hm & Hc & _).
  rewrite <- Z.mul_assoc, pow2_mul by lia.
  replace (e + 1074 + 1074) with (e + 2148) by lia.
  rewrite round53_scaled by lia. rewrite Hc.
  replace (e - e) with 0 by lia. change (rne (Zpos m) 0) with (Zpos m). lia.
Qed.

Ltac nonneg_cases x H :=
  destruct x as [[]|[]| |[] ? ?]; cbn [nonneg64 negb andb] in H; try discriminate H.

Lemma level_range x : nonneg64 x = true -> 0 <= level x <= inf_level + 1.
Proof.
  intros H. pose proof inf_level_pos. nonneg_cases x H; cbn [level]; try lia.
  pose proof (finite_level _ _ H). lia.
Qed.

Lemma level_nan x : nonneg64 x = true -> inf_level < level x -> x = S754_nan.
Proof.
  intros H. pose proof inf_level_pos.
  nonneg_cases x H; cbn [level]; intros; try reflexivity; try lia.
  pose proof (finite_level _ _ H). lia.
Qed.

Lemma level_zero x : nonneg64 x = true -> level x <= 0 -> x = S754_zero false.
Proof.
  intros H. pose proof inf_level_pos.
  nonneg_cases x H; cbn [level]; intros; try reflexivity; try lia.
  pose proof (finite_level _ _ H). lia.
Qed.

(** Canonical non-negative data are determined by their level. *)
Lemma level_inj x y : nonneg64 x = true -> nonneg64 y = true -> level x = level y -> x = y.
Proof.
  intros Hx Hy. pose proof inf_level_pos.
  nonneg_cases x Hx; nonneg_cases y Hy; cbn [level]; try reflexivity; try lia;
    try (pose proof (finite_level _ _ Hx)); try (pose proof (finite_level _ _ Hy)); try lia.
  intros Heq.
  apply bounded_spec in Hx as (Hex & Hmx & Hcx & _).
  apply bounded_spec in Hy as (Hey & Hmy & Hcy & _).
  assert (Hd : Zdigits2 (Zpos m) + e = Zdigits2 (Zpos m0) + e0).
  { pose proof (Zdigits2_shift (Zpos m) (e + 1074) ltac:(lia) ltac:(lia)).
    pose proof (Zdigits2_shift (Zpos m0) (e0 + 1074) ltac:(lia) ltac:(lia)).
    rewrite Heq in *. lia. }
  assert (e = e0) by congruence. subst e0.
  pose proof (pow2_pos (e + 1074) ltac:(lia)).
  assert (Zpos m = Zpos m0) by nia. congruence.
Qed.

(** *** Multiplication *)

Lemma SFmul_finite mx ex my ey :
  bounded 53 1024 mx ex = true -> bounded 53 1024 my ey = true ->
  let z := SFmul 53 1024 (S754_finite false mx ex) (S754_finite false my ey) in
  nonneg64 z = true /\
  level z = round53 (Zpos mx * 2 ^ (ex + 1074) * (Zpos my * 2 ^ (ey + 1074))).
Proof.
  intros Hx Hy. cbn [SFmul xorb]. cbv zeta.
  apply bounded_spec in Hx as (Hex & Hmx & Hcx & Hdx).
  apply bounded_spec in Hy as (Hey & Hmy & Hcy & Hdy).
  rewrite Pos2Z.inj_mul.
  assert (HM : 0 < Zpos mx * Zpos my) by lia.
  assert (Hfit : ex + ey <= fexp64 (Zdigits2 (Zpos mx * Zpos my) + (ex + ey))).
  { unfold fexp64.
    pose proof (Zdigits2_le (Zpos mx) (Zpos mx * Zpos my) ltac:(lia) ltac:(nia)).
    pose proof (Zdigits2_le (Zpos my) (Zpos mx * Zpos my) ltac:(lia) ltac:(nia)).
    lia. }
  split; [apply bra_nonneg; assumption|].
  rewrite bra_level by lia. f_equal.
  replace (ex + ey + 2148) with ((ex + 1074) + (ey + 1074)) by lia.
  rewrite <- pow2_mul by lia. ring.
Qed.

Lemma SFmul_nonneg x y :
  nonneg64 x = true -> nonneg64 y = true -> nonneg64 (SFmul 53 1024 x y) = true.
Proof.
  intros Hx Hy. nonneg_cases x Hx; nonneg_cases y Hy; try reflexivity.
  apply SFmul_finite; assumption.
Qed.

Lemma SFmul_level x m e :
  nonneg64 x = true -> bounded 53 1024 m e = true ->
  level (SFmul 53 1024 x (S754_finite false m e))
  = match x with
    | S754_nan => inf_level + 1
    | S754_infinity _ => inf_level
    | _ => round53 (level x * (Zpos m * 2 ^ (e + 1074)))
    end.
Proof.
  intros Hx Hw. nonneg_cases x Hx; try reflexivity.
  apply SFmul_finite; assumption.
Qed.

(** Multiplication by a fixed right operand is monotone.  The one
    exception is the operand +infinity, which sends +0 to NaN and every
    positive number to +infinity. *)
Lemma SFmul_mono x x' w :
  nonneg64 x = true -> nonneg64 x' = true -> nonneg64 w = true ->
  level x <= level x' ->
  (x = S754_zero false -> w = S754_infinity false -> zero_or_nan x' = true) ->
  level (SFmul 53 1024 x w) <= level (SFmul 53 1024 x' w).
Proof.
  intros Hx Hx' Hw Hle Hz. pose proof inf_level_pos.
  nonneg_cases w Hw.
  - (* w = +0 *)
    nonneg_cases x Hx; nonneg_cases x' Hx'; cbn [SFmul xorb level] in *; try lia;
      try (pose proof (finite_level _ _ Hx)); try (pose proof (finite_level _ _ Hx')); lia.
  - (* w = +infinity *)
    nonneg_cases x Hx; nonneg_cases x' Hx'; cbn [SFmul xorb level] in *; try lia;
      try (pose proof (finite_level _ _ Hx)); try (pose proof (finite_level _ _ Hx')); try lia;
      specialize (Hz eq_refl eq_refl); discriminate Hz.
  - (* w = NaN *)
    nonneg_cases x Hx; nonneg_cases x' Hx'; cbn [SFmul level]; lia.
  - (* w finite *)
    pose proof (finite_level _ _ Hw) as Hlw.
    rewrite !SFmul_level by assumption.
    nonneg_cases x Hx; nonneg_cases x' Hx'; cbn [level] in *;
      try (pose proof (finite_level _ _ Hx) as Hlx);
      try (pose proof (finite_level _ _ Hx') as Hlx');
      try lia;
      try (apply round53_mono; nia);
      match goal with
      | |- context [round53 ?U] => pose proof (round53_range U ltac:(nia)); lia
      end.
Qed.

(** *** Addition *)

Lemma shl_align_le m e e' :
  e' <= e -> Zpos (fst (shl_align m e e')) = Zpos m * 2 ^ (e - e').
Proof.
  intros Hle. rewrite shl_align_spec. destruct (Z.ltb_spec e' e); cbn [fst].
  - pose proof (pow2_pos (e - e') ltac:(lia)). rewrite Z2Pos.id; lia.
  - replace (e - e') with 0 by lia. lia.
Qed.

Lemma round53_inf U : inf_level <= U -> round53 (U * 2 ^ 1074) = inf_level.
Proof.
  intros HU. apply round53_big. unfold inf_level in HU.
  change (2 ^ 3172) with (2 ^ 2098 * 2 ^ 1074). apply Z.mul_le_mono_nonneg_r; [|exact HU].
  apply Z.lt_le_incl, pow2_pos. lia.
Qed.

Lemma SFadd_finite mx ex my ey :
  bounded 53 1024 mx ex = true -> bounded 53 1024 my ey = true ->
  let z := SFadd 53 1024 (S754_finite false mx ex) (S754_finite false my ey) in
  nonneg64 z = true /\
  level z = round53 ((Zpos mx * 2 ^ (ex + 1074) + Zpos my * 2 ^ (ey + 1074)) * 2 ^ 1074).
Proof.
  intros Hx Hy. cbn [SFadd cond_Zopp]. cbv zeta.
  apply bounded_spec in Hx as (Hex & Hmx & Hcx & Hdx).
  apply bounded_spec in Hy as (Hey & Hmy & Hcy & Hdy).
  set (ez := Z.min ex ey). rewrite !shl_align_le by lia.
  pose proof (pow2_pos (ex - ez) ltac:(lia)). pose proof (pow2_pos (ey - ez) ltac:(lia)).
  destruct (normalize_spec (Zpos mx * 2 ^ (ex - ez) + Zpos my * 2 ^ (ey - ez)) ez ltac:(lia))
    as [Hn Hl].
  split; [exact Hn|]. rewrite Hl by lia. f_equal.
  rewrite !Z.mul_add_distr_r, <- !Z.mul_assoc, !pow2_mul by lia.
  f_equal; f_equal; f_equal; lia.
Qed.

Lemma SFadd_level x y :
  nonneg64 x = true -> nonneg64 y = true ->
  nonneg64 (SFadd 53 1024 x y) = true /\
  level (SFadd 53 1024 x y)
  = if is_nan x || is_nan y then inf_level + 1
    else round53 ((level x + level y) * 2 ^ 1074).
Proof.
  intros Hx Hy. pose proof inf_level_pos.
  nonneg_cases x Hx; nonneg_cases y Hy; cbn [is_nan orb];
    try (pose proof (finite_level _ _ Hx)); try (pose proof (finite_level _ _ Hy));
    try (split; reflexivity);
    try (apply SFadd_finite; assumption);
    cbn [SFadd level nonneg64 negb andb]; (split; [assumption || reflexivity|]);
    try (rewrite round53_inf by lia; reflexivity).
  - rewrite Z.add_0_l, round53_canonical by assumption. reflexivity.
  - rewrite Z.add_0_r, round53_canonical by assumption. reflexivity.
Qed.

Lemma SFadd_nonneg x y :
  nonneg64 x = true -> nonneg64 y = true -> nonneg64 (SFadd 53 1024 x y) = true.
Proof. intros Hx Hy. apply SFadd_level; assumption. Qed.

(** Addition is monotone in both operands. *)
Lemma SFadd_mono x x' y y' :
  nonneg64 x = true -> nonneg64 x' = true -> nonneg64 y = true -> nonneg64 y' = true ->
  level x <= level x' -> level y <= level y' ->
  level (SFadd 53 1024 x y) <= level (SFadd 53 1024 x' y').
Proof.
  intros Hx Hx' Hy Hy' Hlx Hly.
  destruct (SFadd_level x y Hx Hy) as [Hn Hl].
  destruct (SFadd_level x' y' Hx' Hy') as [_ Hl'].
  pose proof (level_range _ Hn) as Hr. rewrite Hl'.
  destruct (is_nan x' || is_nan y') eqn:Hnan'; [lia|].
  apply orb_false_elim in Hnan' as [Hnx' Hny'].
  assert (Hnx : is_nan x = false).
  { destruct x; try reflexivity. pose proof (level_nan x' Hx' ltac:(cbn [level] in Hlx; lia)).
    subst x'. discriminate Hnx'. }
  assert (Hny : is_nan y = false).
  { destruct y; try reflexivity. pose proof (level_nan y' Hy' ltac:(cbn [level] in Hly; lia)).
    subst y'. discriminate Hny'. }
  rewrite Hl, Hnx, Hny. cbn [orb].
  pose proof (level_range _ Hx). pose proof (level_range _ Hy).
  pose proof (pow2_pos 1074 ltac:(lia)). apply round53_mono; nia.
Qed.

(** Adding to +0 returns the other operand. *)
Lemma SFadd_zero_l y : nonneg64 y = true -> SFadd 53 1024 (S754_zero false) y = y.
Proof. intros Hy. nonneg_cases y Hy; reflexivity. Qed.

(** *** +0 and NaN under the operations *)

Lemma SFmul_zero_or_nan_l x w :
  zero_or_nan x = true -> nonneg64 w = true -> zero_or_nan (SFmul 53 1024 x w) = true.
Proof.
  intros Hx Hw. destruct x as [[]| | |]; try discriminate Hx; nonneg_cases w Hw; reflexivity.
Qed.

Lemma SFmul_zero_or_nan_r x w :
  zero_or_nan x = true -> nonneg64 w = true -> zero_or_nan (SFmul 53 1024 w x) = true.
Proof.
  intros Hx Hw. destruct x as [[]| | |]; try discriminate Hx; nonneg_cases w Hw; reflexivity.
Qed.

Lemma SFadd_zero_or_nan x y :
  zero_or_nan x = true -> zero_or_nan y = true -> zero_or_nan (SFadd 53 1024 x y) = true.
Proof.
  intros Hx Hy. destruct x as [[]| | |]; try discriminate Hx;
    destruct y as [[]| | |]; try discriminate Hy; reflexivity.
Qed.

Lemma zero_or_nan_nonneg x : zero_or_nan x = true -> nonneg64 x = true.
Proof. destruct x as [[]| | |]; intros H; try discriminate H; reflexivity. Qed.

(** The difference of a datum and itself is +0 or NaN. *)
Lemma SFsub_diag x : nonneg64 x = true -> zero_or_nan (SFsub 53 1024 x x) = true.
Proof.
  intros Hx. nonneg_cases x Hx; try reflexivity.
  cbn [SFsub cond_Zopp]. cbv zeta. rewrite Z.sub_diag. reflexivity.
Qed.

(** *** Division, conversion and 1 - d *)

Lemma shr_record_of_loc_m q l : shr_m (shr_record_of_loc q l) = q.
Proof. destruct l as [|[]]; reflexivity. Qed.

Lemma shr_m_shr q l e n mrs e' :
  0 <= q -> 0 <= n -> shr (shr_record_of_loc q l) e n = (mrs, e') ->
  shr_m mrs = q / 2 ^ n /\ e' = e + n.
Proof.
  intros Hq Hn. destruct n as [|p|p]; [| |lia]; cbn [shr].
  - intros [= <- <-]. rewrite shr_record_of_loc_m, Z.pow_0_r, Z.div_1_r. lia.
  - intros [= <- <-]. split; [|reflexivity].
    pose proof (shr_record_of_loc_m q l) as Hm.
    destruct (shr_record_of_loc q l) as [m r s]. cbn [shr_m] in Hm. subst m.
    rewrite iter_pos_nat. destruct (Pos2Nat.is_succ p) as [k Hk].
    rewrite Hk, shr_iter by done. cbn [shr_m]. f_equal. f_equal. lia.
Qed.

Lemma round_nearest_even_range m l : m <= round_nearest_even m l <= m + 1.
Proof. destruct l as [|[]]; cbn [round_nearest_even]; try destruct (Z.even m); lia. Qed.

(** Whatever the rounding bits, [binary_round_aux] yields canonical
    non-negative data from a non-negative mantissa with enough digits. *)
Lemma bra_any_nonneg q e l :
  0 <= q -> e <= fexp64 (Zdigits2 q + e) ->
  nonneg64 (binary_round_aux 53 1024 false q e l) = true.
Proof.
  intros Hq He. set (E := fexp64 (Zdigits2 q + e)) in *.
  assert (HE : -1074 <= E) by apply fexp64_ge.
  unfold binary_round_aux. destruct (shr_fexp 53 1024 q e l) as [mrs e'] eqn:Hs.
  unfold shr_fexp in Hs. rewrite fexp_fexp64 in Hs. fold E in Hs.
  apply shr_m_shr in Hs as [Hm He']; [|done|lia].
  replace e' with E by lia.
  pose proof (round_nearest_even_range (shr_m mrs) (loc_of_shr_record mrs)) as Hr.
  set (q1 := round_nearest_even (shr_m mrs) (loc_of_shr_record mrs)) in *.
  pose proof (pow2_pos (E - e) ltac:(lia)) as Hp.
  assert (Hfit : fits q1 E).
  { destruct (Z.eq_dec q 0) as [->|Hq0].
    - rewrite Z.div_0_l in Hm by lia. change (Zdigits2 0) with 0 in E.
      assert (E = -1074) by (unfold E, fexp64 in *; lia).
      split; [lia|]. split; [lia|]. by left.
    - pose proof (Zdigits2_bounds q ltac:(lia)) as [Hl Hu].
      pose proof (Zdigits2_pos q ltac:(lia)) as Hd.
      assert (Hlt : shr_m mrs < 2 ^ 53).
      { rewrite Hm. apply Z.div_lt_upper_bound; [lia|]. rewrite Z.mul_comm, pow2_mul by lia.
        eapply Z.lt_le_trans; [exact Hu|]. apply pow2_le. unfold E, fexp64. lia. }
      assert (0 <= shr_m mrs) by (rewrite Hm; apply Z.div_pos; lia).
      split; [lia|]. split; [lia|].
      destruct (Z.eq_dec E (-1074)) as [|Hne]; [by left|right].
      assert (2 ^ 52 <= shr_m mrs); [|lia].
      rewrite Hm. apply Z.div_le_lower_bound; [lia|]. rewrite Z.mul_comm, pow2_mul by lia.
      eapply Z.le_trans; [|exact Hl]. apply pow2_le. unfold E, fexp64 in *. lia. }
  rewrite (renormalize q1 E (proj1 Hfit) HE). apply pack_nonneg, Hfit.
Qed.

Lemma SFdiv_core_spec m1 e1 m2 e2 :
  0 < m1 -> 0 < m2 ->
  let '(q, e', _) := SFdiv_core_binary 53 1024 m1 e1 m2 e2 in
  0 <= q /\ e' <= fexp64 (Zdigits2 q + e').
Proof.
  intros H1 H2. unfold SFdiv_core_binary. rewrite fexp_fexp64.
  set (X := Zdigits2 m1 + e1 - (Zdigits2 m2 + e2)).
  set (e' := Z.min (fexp64 X) (e1 - e2)). set (s := e1 - e2 - e').
  assert (Hs : 0 <= s) by (unfold s, e'; lia).
  set (m' := match s with Z0 => m1 | Zpos _ => Z.shiftl m1 s | Zneg _ => 0 end).
  assert (Hm' : m' = m1 * 2 ^ s).
  { unfold m'. destruct s as [|p|p] eqn:Hp; [lia| |lia]. by rewrite Z.shiftl_mul_pow2. }
  pose proof (pow2_pos s Hs) as Hps.
  assert (Hq : fst (Z.div_eucl m' m2) = m' / m2) by reflexivity.
  destruct (Z.div_eucl m' m2) as [q r]. cbn [fst] in Hq. subst q.
  assert (Hq0 : 0 <= m' / m2) by (apply Z.div_pos; nia).
  split; [done|].
  destruct (Z.le_gt_cases e' (-1074)) as [Hlow|Hhigh].
  { pose proof (fexp64_ge (Zdigits2 (m' / m2) + e')). lia. }
  pose proof (Zdigits2_bounds m1 H1) as [Hl1 _]. pose proof (Zdigits2_bounds m2 H2) as [_ Hu2].
  pose proof (Zdigits2_pos m1 H1). pose proof (Zdigits2_pos m2 H2).
  assert (Hs' : Zdigits2 m2 - Zdigits2 m1 + 53 <= s) by (unfold s, e', X, fexp64 in *; lia).
  assert (Hbig : 2 ^ 52 <= m' / m2).
  { apply Z.div_le_lower_bound; [lia|].
    pose proof (pow2_mul (Zdigits2 m1 - 1) s ltac:(lia) ltac:(lia)) as Ha.
    pose proof (pow2_mul (Zdigits2 m2) 52 ltac:(lia) ltac:(lia)) as Hb.
    pose proof (pow2_le (Zdigits2 m2 + 52) (Zdigits2 m1 - 1 + s) ltac:(lia)).
    pose proof (pow2_pos 52 ltac:(lia)). nia. }
  assert (Hd : 53 <= Zdigits2 (m' / m2)).
  { pose proof (Zdigits2_bounds (m' / m2) ltac:(lia)) as [_ Hu].
    pose proof (Zdigits2_pos (m' / m2) ltac:(lia)).
    assert (52 < Zdigits2 (m' / m2)); [|lia].
    apply (Z.pow_lt_mono_r_iff 2); lia. }
  unfold fexp64. lia.
Qed.

Lemma SFdiv_nonneg x y :
  nonneg64 x = true -> nonneg64 y = true -> nonneg64 (SFdiv 53 1024 x y) = true.
Proof.
  intros Hx Hy. nonneg_cases x Hx; nonneg_cases y Hy; try reflexivity.
  cbn [SFdiv xorb].
  pose proof (SFdiv_core_spec (Zpos m) e (Zpos m0) e0 ltac:(lia) ltac:(lia)) as H.
  destruct (SFdiv_core_binary 53 1024 (Zpos m) e (Zpos m0) e0) as [[q e'] l].
  destruct H as [Hq He]. by apply bra_any_nonneg.
Qed.

Lemma b64_of_Z_nonneg z : 0 <= z -> nonneg64 (b64_of_Z z) = true.
Proof. intros Hz. by apply normalize_spec. Qed.

Lemma SFleb_finite m e m' e' :
  SFleb (S754_finite false m e) (S754_finite false m' e') = true ->
  e < e' \/ (e = e' /\ Zpos m <= Zpos m').
Proof.
  unfold SFleb, SFcompare. destruct (Z.compare_spec e e') as [Heq|Hlt|Hgt].
  - rewrite Pos.compare_cont_spec. cbn [Pos.switch_Eq].
    destruct (Pos.compare_spec m m') as [Hc|Hc|Hc]; intros H; try discriminate H; right; lia.
  - by left.
  - discriminate.
Qed.

(** 1 - d for a damping factor in [0, 1]. *)
Lemma one_minus_nonneg d :
  nonneg64 d = true -> SFleb d (b64_of_Z 1) = true ->
  nonneg64 (SFsub 53 1024 (b64_of_Z 1) d) = true.
Proof.
  intros Hd Hle. change (b64_of_Z 1) with (S754_finite false 4503599627370496 (-52)) in *.
  nonneg_cases d Hd; try reflexivity; try discriminate Hle.
  apply SFleb_finite in Hle.
  cbn [SFsub cond_Zopp]. cbv zeta.
  pose proof (bounded_spec _ _ Hd) as (He & Hm & _ & _).
  set (ez := Z.min (-52) e). rewrite !shl_align_le by lia.
  apply normalize_spec. change (2 ^ 53) with 9007199254740992 in Hm.
  destruct Hle as [Hlt|[-> Hc]].
  - replace ez with e by lia. replace (e - e) with 0 by lia. rewrite Z.pow_0_r, Z.mul_1_r.
    pose proof (pow2_le 1 (-52 - e) ltac:(lia)) as Hp. change (2 ^ 1) with 2 in Hp. lia.
  - subst ez. change (Z.min (-52) (-52)) with (-52).
    change (-52 - -52) with 0. rewrite Z.pow_0_r, !Z.mul_1_r. lia.
Qed.

(** ** Termination of the rank loop *)

(** The loop has no iteration cap.  With a negative damping factor it can
    run for ever ([rank_loop_two_cycle]).  With a damping factor in [0, 1]
    it leaves: all data are non-negative, so every operation of
    [run_rank_iteration] is monotone, the first iterate is at least the
    initial buffer, and the iterates go up slot by slot; [level_sum] is
    bounded, so they stop changing, and then the change is 0.0. *)

(** Two buffers that the iteration maps onto each other, with a change
    above the tolerance, keep the loop running for ever. *)
Lemma rank_loop_two_cycle (A : Arith) (inLinks : list (CompressedInLink (dbl A))) cidsSize
    start count (rc d tol : dbl A) (R1 R2 : list (dbl A)) (delta : dbl A) :
  f_lt A tol delta = true ->
  run_rank_iteration A inLinks R1 R2 cidsSize start count rc d = R2 ->
  find_max_ranks_diff A R1 R2 cidsSize = delta ->
  run_rank_iteration A inLinks R2 R1 cidsSize start count rc d = R1 ->
  find_max_ranks_diff A R2 R1 cidsSize = delta ->
  forall fuel,
    rank_loop A fuel inLinks cidsSize start count rc d tol R2 R1 delta = None
    /\ rank_loop A fuel inLinks cidsSize start count rc d tol R1 R2 delta = None.
Proof.
  intros Hlt H12 Hd12 H21 Hd21 fuel.
  induction fuel as [|fuel [IH1 IH2]]; cbn [rank_loop]; rewrite Hlt; [done|].
  rewrite H21, Hd21, H12, Hd12. done.
Qed.

Lemma sumZ_map_le (f g : nat -> Z) (l : list nat) :
  (forall c, c ∈ l -> f c <= g c) ->
  sumZ (map f l) <= sumZ (map g l)
  /\ (sumZ (map f l) = sumZ (map g l) -> forall c, c ∈ l -> f c = g c).
Proof.
  induction l as [|a l IH]; intros Hle; cbn [map sumZ fold_right].
  - split; [lia|]. intros _ c Hc. by apply elem_of_nil in Hc.
  - pose proof (Hle a ltac:(left)) as Ha.
    destruct IH as [IH1 IH2]; [intros c Hc; apply Hle; by right|].
    fold (sumZ (map f l)) (sumZ (map g l)) in *.
    split; [lia|]. intros Heq c Hc. apply elem_of_cons in Hc as [->|Hc]; [lia|].
    apply IH2; [lia|done].
Qed.

Lemma level_sum_bound (x : list spec_float) (n : nat) :
  (forall c, nonneg64 (nth c x (S754_zero false)) = true) ->
  level_sum x n <= Z.of_nat n * (inf_level + 1).
Proof.
  intros Hx. unfold level_sum.
  assert (H : forall l : list nat,
             sumZ (map (fun c => level (nth c x (S754_zero false))) l)
             <= Z.of_nat (length l) * (inf_level + 1)).
  { induction l as [|a l IH]; cbn [map sumZ fold_right length]; [lia|].
    fold (sumZ (map (fun c => level (nth c x (S754_zero false))) l)).
    pose proof (level_range _ (Hx a)). lia. }
  specialize (H (seq 0 n)). by rewrite length_seq in H.
Qed.

Lemma nth_replicate_lt {T : Type} (n c : nat) (x dflt : T) :
  (c < n)%nat -> nth c (replicate n x) dflt = x.
Proof. intros Hc. by rewrite nth_lookup, lookup_replicate_2. Qed.

(** Going up in every slot, the sum of the levels goes up, and it stays
    the same only if every slot does. *)
Lemma level_sum_le (x x' : list spec_float) (n : nat) :
  reads_below x x' ->
  level_sum x n <= level_sum x' n
  /\ (level_sum x n = level_sum x' n ->
      forall c, (c < n)%nat -> nth c x (S754_zero false) = nth c x' (S754_zero false)).
Proof.
  intros Hr. unfold level_sum.
  destruct (sumZ_map_le (fun c => level (nth c x (S754_zero false)))
              (fun c => level (nth c x' (S754_zero false))) (seq 0 n)
              ltac:(intros c _; apply Hr)) as [Hle Heq].
  split; [exact Hle|]. intros Hsame c Hc.
  apply level_inj; [apply Hr|apply Hr|]. apply (Heq Hsame), elem_of_seq. lia.
Qed.

Section Termination.

Variable log2 : spec_float -> spec_float.
Local Abbreviation A := (binary64 log2).
Local Abbreviation pzero := (S754_zero false).

Variables (inLinks : list (CompressedInLink spec_float)) (cidsSize : nat).
Variables (start count : list nat) (rc d tol r0 : spec_float).

Hypothesis weights_nonneg : Forall (fun l => nonneg64 (weight l) = true) inLinks.
Hypothesis d_nonneg : nonneg64 d = true.
Hypothesis d_finite : level d < inf_level.
Hypothesis rc_nonneg : nonneg64 rc = true.
Hypothesis r0_nonneg : nonneg64 r0 = true.
Hypothesis r0_rc : level r0 <= level rc.
Hypothesis r0_zero : r0 = pzero -> zero_or_nan rc = true.
Hypothesis tol_pos : SFltb pzero tol = true.

Local Abbreviation update x c :=
  (SFadd 53 1024 (SFmul 53 1024 (ksum_of A inLinks x start count c) d) rc).

Lemma weight_nonneg j :
  nonneg64 (weight (nth j inLinks (Build_CompressedInLink 0%nat pzero))) = true.
Proof.
  destruct (nth_in_or_default j inLinks (Build_CompressedInLink 0%nat pzero)) as [Hin| ->];
    [|reflexivity].
  exact (proj1 (List.Forall_forall _ _) weights_nonneg _ Hin).
Qed.

Lemma ksum_fold_nonneg (x : list spec_float) js acc :
  (forall c, nonneg64 (nth c x pzero) = true) -> nonneg64 acc = true ->
  nonneg64
    (fold_left
       (fun ksum j =>
          let l := nth j inLinks (Build_CompressedInLink 0%nat (f_zero A)) in
          f_add A (f_mul A (nth (fromIndex l) x (f_zero A)) (weight l)) ksum)
       js acc) = true.
Proof.
  intros Hx. revert acc. induction js as [|j js IH]; intros acc Hacc; cbn [fold_left]; [done|].
  apply IH. cbv zeta. cbn [f_add f_mul f_zero binary64].
  apply SFadd_nonneg; [|done]. apply SFmul_nonneg; [apply Hx|apply weight_nonneg].
Qed.

Lemma ksum_fold_mono (x x' : list spec_float) js acc acc' :
  reads_below x x' -> nonneg64 acc = true -> nonneg64 acc' = true ->
  level acc <= level acc' ->
  level
    (fold_left
       (fun ksum j =>
          let l := nth j inLinks (Build_CompressedInLink 0%nat (f_zero A)) in
          f_add A (f_mul A (nth (fromIndex l) x (f_zero A)) (weight l)) ksum)
       js acc)
  <= level
       (fold_left
          (fun ksum j =>
             let l := nth j inLinks (Build_CompressedInLink 0%nat (f_zero A)) in
             f_add A (f_mul A (nth (fromIndex l) x' (f_zero A)) (weight l)) ksum)
          js acc').
Proof.
  intros Hx. revert acc acc'.
  induction js as [|j js IH]; intros acc acc' Hacc Hacc' Hle; cbn [fold_left]; [done|].
  cbv zeta. cbn [f_add f_mul f_zero binary64].
  set (l := nth j inLinks (Build_CompressedInLink 0%nat pzero)).
  destruct (Hx (fromIndex l)) as (Ha & Hb & Hab & Hz).
  pose proof (weight_nonneg j) as Hw. fold l in Hw.
  apply IH.
  - apply SFadd_nonneg; [by apply SFmul_nonneg|done].
  - apply SFadd_nonneg; [by apply SFmul_nonneg|done].
  - apply SFadd_mono; try done; try by apply SFmul_nonneg.
    apply SFmul_mono; try done. intros H0 _. by apply Hz.
Qed.

Lemma ksum_fold_zero_or_nan (x : list spec_float) js acc :
  (forall c, zero_or_nan (nth c x pzero) = true) -> zero_or_nan acc = true ->
  zero_or_nan
    (fold_left
       (fun ksum j =>
          let l := nth j inLinks (Build_CompressedInLink 0%nat (f_zero A)) in
          f_add A (f_mul A (nth (fromIndex l) x (f_zero A)) (weight l)) ksum)
       js acc) = true.
Proof.
  intros Hx. revert acc. induction js as [|j js IH]; intros acc Hacc; cbn [fold_left]; [done|].
  apply IH. cbv zeta. cbn [f_add f_mul f_zero binary64].
  apply SFadd_zero_or_nan; [|done]. apply SFmul_zero_or_nan_l; [apply Hx|apply weight_nonneg].
Qed.

Lemma update_nonneg (x : list spec_float) c :
  (forall k, nonneg64 (nth k x pzero) = true) -> nonneg64 (update x c) = true.
Proof.
  intros Hx. apply SFadd_nonneg; [|done]. apply SFmul_nonneg; [|done].
  by apply ksum_fold_nonneg.
Qed.

Lemma update_mono (x x' : list spec_float) c :
  reads_below x x' -> level (update x c) <= level (update x' c).
Proof.
  intros Hx.
  assert (Hn : forall k, nonneg64 (nth k x pzero) = true) by (intros k; apply Hx).
  assert (Hn' : forall k, nonneg64 (nth k x' pzero) = true) by (intros k; apply Hx).
  apply SFadd_mono; try done; try (apply SFmul_nonneg; [by apply ksum_fold_nonneg|done]).
  apply SFmul_mono; try done; try by apply ksum_fold_nonneg.
  - by apply ksum_fold_mono.
  - intros _ ->. cbn [level] in d_finite. lia.
Qed.

Lemma update_zero_or_nan (x : list spec_float) c :
  (forall k, zero_or_nan (nth k x pzero) = true) -> zero_or_nan rc = true ->
  zero_or_nan (update x c) = true.
Proof.
  intros Hx Hrc. apply SFadd_zero_or_nan; [|done]. apply SFmul_zero_or_nan_l; [|done].
  by apply ksum_fold_zero_or_nan.
Qed.

(** The corrected default is at most what the iteration assigns. *)
Lemma update_above_rc (x : list spec_float) c :
  (forall k, nonneg64 (nth k x pzero) = true) -> level rc <= level (update x c).
Proof.
  intros Hx. rewrite <- (SFadd_zero_l rc rc_nonneg) at 1.
  assert (Hk : nonneg64 (SFmul 53 1024 (ksum_of A inLinks x start count c) d) = true).
  { apply SFmul_nonneg; [by apply ksum_fold_nonneg|done]. }
  apply SFadd_mono; try done. cbn [level]. apply (level_range _ Hk).
Qed.

Lemma invariant_reads cur prev :
  loop_invariant (fun x c => update x c) cidsSize count r0 cur prev -> reads_below prev cur.
Proof.
  intros (Hlc & Hlp & H) c. destruct (lt_dec c cidsSize) as [Hc|Hc].
  - destruct (H c Hc) as (Ha & Hb & Hr0 & Hab & _ & _ & Hzn). cbv zeta in *.
    split; [done|]. split; [done|]. split; [done|]. intros Hz. apply Hzn.
    apply level_zero; [done|]. rewrite Hz in Hr0. exact Hr0.
  - rewrite !nth_overflow by lia. done.
Qed.

Lemma invariant_step cur prev :
  loop_invariant (fun x c => update x c) cidsSize count r0 cur prev ->
  loop_invariant (fun x c => update x c) cidsSize count r0
    (run_rank_iteration A inLinks cur prev cidsSize start count rc d) cur.
Proof.
  intros HI. pose proof (invariant_reads _ _ HI) as Hr. destruct HI as (Hlc & Hlp & H).
  assert (Hn : forall k, nonneg64 (nth k cur pzero) = true) by (intros k; apply Hr).
  split; [etransitivity; [apply (run_rank_iteration_length A)|exact Hlp]|].
  split; [done|]. intros c Hc.
  destruct (H c Hc) as (Ha & Hb & Hr0 & Hab & Hskip & Hupd & Hzn). cbv zeta in *.
  destruct (Nat.eq_dec (nth c count 0%nat) 0%nat) as [Hz|Hnz].
  - pose proof (run_rank_iteration_skips A inLinks cur prev cidsSize start count rc d c pzero Hz)
      as Hs.
    change (dbl A) with spec_float in Hs. rewrite Hs, <- (Hskip Hz).
    repeat split; try done; try lia; by apply Hzn.
  - pose proof (run_rank_iteration_updates A inLinks cur prev cidsSize start count rc d c pzero
                  Hc ltac:(change (dbl A) with spec_float; lia) Hnz) as Hu.
    change (dbl A) with spec_float in Hu. rewrite Hu. cbn [f_add f_mul binary64].
    pose proof (update_mono _ _ c Hr) as Hm. specialize (Hupd Hnz).
    split; [done|]. split; [by apply update_nonneg|]. split; [lia|]. split; [lia|].
    split; [done|]. split; [lia|]. intros H0. split; [by apply Hzn|].
    apply update_zero_or_nan; [|by apply r0_zero].
    intros k. destruct (lt_dec k cidsSize) as [Hk|Hk].
    + by apply (H k Hk).
    + by rewrite nth_overflow by lia.
Qed.

Lemma invariant_initial :
  loop_invariant (fun x c => update x c) cidsSize count r0
    (replicate cidsSize r0) (replicate cidsSize r0).
Proof.
  split; [by rewrite length_replicate|]. split; [by rewrite length_replicate|].
  intros c Hc. cbv zeta. rewrite nth_replicate_lt by done.
  split; [done|]. split; [done|]. split; [lia|]. split; [lia|]. split; [done|].
  split.
  - intros _. etransitivity; [exact r0_rc|]. apply update_above_rc.
    intros k. destruct (lt_dec k cidsSize) as [Hk|Hk].
    + by rewrite nth_replicate_lt.
    + by rewrite nth_overflow by (rewrite length_replicate; lia).
  - intros ->. done.
Qed.

(** Two equal buffers of non-negative data pass the convergence test. *)
Lemma equal_buffers_change (cur next : list spec_float) :
  (forall c, (c < cidsSize)%nat ->
     nonneg64 (nth c cur pzero) = true /\ nth c cur pzero = nth c next pzero) ->
  find_max_ranks_diff A cur next cidsSize = pzero.
Proof.
  intros Heq.
  destruct (find_max_ranks_diff_spec log2 cur next cidsSize) as (Hn & _ & _ & [H0|(i & Hi & H)]);
    [done|].
  destruct (Heq i Hi) as [Hp He]. rewrite <- He in H.
  pose proof (SFsub_diag _ Hp) as Hd. rewrite H in Hn |- *.
  destruct (SFsub 53 1024 (nth i cur pzero) (nth i cur pzero)) as [[]| | |];
    try discriminate Hd; [reflexivity|discriminate Hn].
Qed.

(** The loop leaves after finitely many iterations: the sum of the levels
    of the current buffer grows with every iteration that does not pass
    the convergence test. *)
Lemma rank_loop_terminates (b : nat) cur prev change :
  loop_invariant (fun x c => update x c) cidsSize count r0 cur prev ->
  Z.of_nat cidsSize * (inf_level + 1) - level_sum cur cidsSize <= Z.of_nat b ->
  exists fuel res,
    rank_loop A fuel inLinks cidsSize start count rc d tol cur prev change = Some res.
Proof.
  revert cur prev change. induction b as [|b IH]; intros cur prev change HI Hb.
  all: destruct (SFltb tol change) eqn:Hlt;
    [|exists 0%nat, (cur, prev); cbn [rank_loop f_lt binary64]; by rewrite Hlt].
  all: pose proof (invariant_step _ _ HI) as HI';
    set (next := run_rank_iteration A inLinks cur prev cidsSize start count rc d) in *;
    pose proof (invariant_reads _ _ HI') as Hr;
    destruct (level_sum_le cur next cidsSize Hr) as [Hle Heq];
    pose proof (level_sum_bound next cidsSize ltac:(intros c; apply Hr)) as Hbound;
    assert (Hstop : level_sum cur cidsSize = level_sum next cidsSize ->
                    exists fuel res,
                      rank_loop A fuel inLinks cidsSize start count rc d tol cur prev change
                      = Some res).
  1,3: intros Hsame; exists 1%nat, (next, cur); cbn [rank_loop f_lt binary64];
    rewrite Hlt; fold next;
    rewrite (equal_buffers_change cur next);
    [ destruct tol as [[]|[]| |[] ? ?]; try discriminate tol_pos; reflexivity
    | intros c Hc; split; [apply Hr|by apply Heq] ].
  - apply Hstop. lia.
  - destruct (Z.eq_dec (level_sum cur cidsSize) (level_sum next cidsSize)) as [Hsame|Hgrow];
      [by apply Hstop|].
    destruct (IH next cur (find_max_ranks_diff A cur next cidsSize) HI' ltac:(lia))
      as (fuel & res & Hres).
    exists (S fuel), res. cbn [rank_loop f_lt binary64]. rewrite Hlt. exact Hres.
Qed.

End Termination.

(** *** The data the loop runs on *)

Section Prepared.

Variable log2 : spec_float -> spec_float.
Local Abbreviation A := (binary64 log2).
Local Abbreviation pzero := (S754_zero false).

Lemma u64_nonneg z : 0 <= u64 z.
Proof. unfold u64. apply Z.mod_pos_bound. reflexivity. Qed.

Lemma nth_nonneg (l : list Z) k : Forall (fun s => 0 <= s) l -> 0 <= nth k l 0.
Proof.
  intros Hl. destruct (nth_in_or_default k l 0) as [Hin| ->]; [|lia].
  exact (proj1 (List.Forall_forall _ _) Hl _ Hin).
Qed.

Lemma calculateCidTotalOutStake_nonneg cidsSize stakes start count users :
  Forall (fun s => 0 <= s) (calculateCidTotalOutStake cidsSize stakes start count users).
Proof.
  unfold calculateCidTotalOutStake. apply Forall_fmap, Forall_forall. intros i _. cbn.
  generalize (links_of start count i). intros js.
  assert (H : forall acc, 0 <= acc ->
            0 <= fold_left (fun t j => u64 (t + nth (nth j users 0%nat) stakes 0)) js acc).
  { induction js as [|j js IH]; intros acc Hacc; cbn [fold_left]; [done|].
    apply IH, u64_nonneg. }
  by apply H.
Qed.

Lemma ddiv_rn_nonneg a b : 0 <= a -> 0 <= b -> nonneg64 (ddiv_rn A a b) = true.
Proof.
  intros Ha Hb. unfold ddiv_rn. cbn [f_div f_of_u64 binary64].
  apply SFdiv_nonneg; by apply b64_of_Z_nonneg.
Qed.

Local Abbreviation weights_ok :=
  (Forall (fun l : CompressedInLink spec_float => nonneg64 (weight l) = true)).

Lemma emit_step_nonneg tout inOuts inUsers stakes last arr idx acc j :
  Forall (fun s => 0 <= s) tout -> weights_ok arr -> 0 <= acc ->
  let '(arr', _, acc') := emit_step A tout inOuts inUsers stakes last (arr, idx, acc) j in
  weights_ok arr' /\ 0 <= acc'.
Proof.
  intros Ht Harr Hacc. unfold emit_step.
  destruct (_ || _); [|split; [done|apply u64_nonneg]].
  split; [|done]. apply Forall_insert; [done|]. cbn [weight].
  apply ddiv_rn_nonneg; [apply u64_nonneg|by apply nth_nonneg].
Qed.

Lemma emit_fold_nonneg tout inOuts inUsers stakes last js arr idx acc :
  Forall (fun s => 0 <= s) tout -> weights_ok arr -> 0 <= acc ->
  weights_ok
    (fst (fst (fold_left (emit_step A tout inOuts inUsers stakes last) js (arr, idx, acc)))).
Proof.
  intros Ht. revert arr idx acc.
  induction js as [|j js IH]; intros arr idx acc Harr Hacc; cbn [fold_left]; [done|].
  pose proof (emit_step_nonneg tout inOuts inUsers stakes last arr idx acc j Ht Harr Hacc) as H.
  destruct (emit_step A tout inOuts inUsers stakes last (arr, idx, acc) j) as [[arr' idx'] acc'].
  destruct H as [Harr' Hacc']. by apply IH.
Qed.

Lemma getCompressedInLinks_nonneg cidsSize tout inStart inCount inOuts inUsers stakes cStart arr :
  Forall (fun s => 0 <= s) tout -> Forall (fun s => 0 <= s) stakes -> weights_ok arr ->
  weights_ok
    (getCompressedInLinks A cidsSize tout inStart inCount inOuts inUsers stakes cStart arr).
Proof.
  intros Ht Hs. unfold getCompressedInLinks. generalize (seq 0 cidsSize). intros cids.
  revert arr. induction cids as [|i cids IH]; intros arr Harr; cbn [fold_left]; [done|].
  apply IH. unfold getCompressedInLinks_cid.
  destruct (nth i inCount 0%nat =? 0)%nat; [done|].
  destruct (nth i inCount 0%nat =? 1)%nat.
  - apply Forall_insert; [done|]. cbn [weight]. apply ddiv_rn_nonneg; by apply nth_nonneg.
  - by apply emit_fold_nonneg.
Qed.

Lemma prepared_weights_nonneg stakes cidsSize linksSize inLinksCount outLinksCount
    inLinksOuts inLinksUsers outLinksUsers (d : spec_float) :
  Forall (fun s => 0 <= s) stakes ->
  weights_ok
    (d_compressedInLinks
       (prepare A stakes cidsSize linksSize inLinksCount outLinksCount inLinksOuts
          inLinksUsers outLinksUsers d)).
Proof.
  intros Hs. unfold prepare. cbn [d_compressedInLinks].
  apply getCompressedInLinks_nonneg; [apply calculateCidTotalOutStake_nonneg|done|].
  by apply Forall_replicate.
Qed.

(** The default rank and the corrected default for a damping factor in
    [0, 1]. *)
Lemma prepared_defaults_nonneg stakes cidsSize linksSize inLinksCount outLinksCount
    inLinksOuts inLinksUsers outLinksUsers (d : spec_float) :
  let p := prepare A stakes cidsSize linksSize inLinksCount outLinksCount inLinksOuts
             inLinksUsers outLinksUsers d in
  nonneg64 d = true -> SFleb d (b64_of_Z 1) = true ->
  nonneg64 (defaultRank p) = true
  /\ nonneg64 (defaultRankWithCorrection_h p) = true
  /\ level (defaultRank p) <= level (defaultRankWithCorrection_h p)
  /\ (defaultRank p = pzero -> zero_or_nan (defaultRankWithCorrection_h p) = true).
Proof.
  intros p Hd Hle. subst p. unfold prepare.
  cbn [defaultRank defaultRankWithCorrection_h f_div f_sub f_mul f_add f_one f_of_u64 binary64].
  set (r0 := SFdiv 53 1024 (SFsub 53 1024 (b64_of_Z 1) d) (b64_of_Z (Z.of_nat cidsSize))).
  set (q := SFdiv 53 1024 _ (b64_of_Z (Z.of_nat cidsSize))).
  assert (Hr0 : nonneg64 r0 = true).
  { apply SFdiv_nonneg; [by apply one_minus_nonneg|apply b64_of_Z_nonneg; lia]. }
  assert (Hq : nonneg64 q = true).
  { apply SFdiv_nonneg; apply b64_of_Z_nonneg; lia. }
  assert (Hc : nonneg64 (SFmul 53 1024 d (SFmul 53 1024 r0 q)) = true).
  { apply SFmul_nonneg; [done|by apply SFmul_nonneg]. }
  split; [done|]. split; [by apply SFadd_nonneg|]. split.
  - rewrite <- (SFadd_zero_l r0 Hr0) at 1. apply SFadd_mono; try done.
    cbn [level]. apply (level_range _ Hc).
  - intros Hz. rewrite Hz. apply SFadd_zero_or_nan; [|done].
    apply SFmul_zero_or_nan_r; [|done]. by apply SFmul_zero_or_nan_l.
Qed.

Lemma damping_finite (d : spec_float) :
  nonneg64 d = true -> SFleb d (b64_of_Z 1) = true -> level d < inf_level.
Proof.
  intros Hd Hle. change (b64_of_Z 1) with (S754_finite false 4503599627370496 (-52)) in Hle.
  pose proof inf_level_pos.
  nonneg_cases d Hd; try discriminate Hle; cbn [level]; [lia|].
  apply (finite_level _ _ Hd).
Qed.

End Prepared.

(** More fuel does not change what the loop returns. *)
Lemma rank_loop_more_fuel (A : Arith) fuel (inLinks : list (CompressedInLink (dbl A)))
    cidsSize start count (rc d tol : dbl A) d_rank d_prevRank change res fuel' :
  rank_loop A fuel inLinks cidsSize start count rc d tol d_rank d_prevRank change = Some res ->
  (fuel <= fuel')%nat ->
  rank_loop A fuel' inLinks cidsSize start count rc d tol d_rank d_prevRank change = Some res.
Proof.
  revert d_rank d_prevRank change fuel'.
  induction fuel as [|fuel IH]; intros d_rank d_prevRank change fuel' Hres Hle.
  - cbn [rank_loop] in Hres. destruct (f_lt A tol change) eqn:Hlt; [discriminate|].
    destruct fuel'; cbn [rank_loop]; by rewrite Hlt.
  - destruct fuel' as [|fuel']; [lia|]. cbn [rank_loop] in *.
    destruct (f_lt A tol change); [|done]. apply IH; [done|lia].
Qed.




(** * Further properties of the kernels and of the driver *)

(** ** Further properties of the host helper and the stake kernel *)

(** X1.  [getLinksStartIndex] returns the exclusive prefix sums of the
    link counts: one start index per cid, the first one 0, every next one
    the previous start plus the previous count, and as its result the
    start of the slice after the last one, which is the sum of all counts
    (0 for no cids). *)
Theorem getLinksStartIndex_prefix_sums (cidsSize : nat) (linksCount : list nat) :
  let start := fst (getLinksStartIndex cidsSize linksCount) in
  let total := snd (getLinksStartIndex cidsSize linksCount) in
  length start = cidsSize
  /\ (forall i, (S i < cidsSize)%nat ->
                nth (S i) start 0%nat = (nth i start 0 + nth i linksCount 0)%nat)
  /\ (forall i, (S i = cidsSize)%nat -> total = (nth i start 0 + nth i linksCount 0)%nat)
  /\ (forall i, (i < cidsSize)%nat -> (nth i start 0 <= total)%nat)
  /\ nth 0 start 0%nat = 0%nat
  /\ (cidsSize = 0%nat -> start = [] /\ total = 0%nat)
  /\ total = sum_list (map (fun i => nth i linksCount 0%nat) (seq 0 cidsSize)).
Proof.
  intros start total. subst start total. rewrite getLinksStartIndex_spec. cbn [fst snd].
  split; [by rewrite length_map, length_seq|].
  assert (Hnth : forall i, (i < cidsSize)%nat ->
            nth i (map (links_before linksCount) (seq 0 cidsSize)) 0%nat
            = links_before linksCount i).
  { intros i Hi. rewrite <- (getLinksStartIndex_nth cidsSize linksCount i Hi).
    by rewrite getLinksStartIndex_spec. }
  split; [intros i Hi; rewrite !Hnth by lia; apply links_before_S|].
  split; [intros i <-; rewrite Hnth by lia; apply links_before_S|].
  split.
  { intros i Hi. rewrite Hnth by lia.
    pose proof (links_before_mono linksCount i cidsSize Hi). lia. }
  split; [destruct cidsSize; [done|by rewrite Hnth by lia]|].
  split; [by intros ->|].
  clear Hnth. induction cidsSize as [|n IH]; [done|].
  rewrite links_before_S, seq_S, map_app, sum_list_with_app, IH. cbn. lia.
Qed.

Lemma links_before_owner (count : list nat) (n j : nat) :
  (j < links_before count n)%nat ->
  exists i, (i < n)%nat /\ (links_before count i <= j < links_before count i + nth i count 0)%nat.
Proof.
  induction n as [|n IH]; cbn [links_before]; [lia|]. intros Hj.
  destruct (lt_dec j (links_before count n)) as [Hlt|Hge].
  - destruct (IH Hlt) as (i & Hi & Hr). exists i. split; [lia|done].
  - exists n. split; lia.
Qed.

(** X2.  The slices [start[i], start[i] + count[i]) that
    [getLinksStartIndex] lays out tile the link indices below the total:
    every link index below the total lies in the slice of one cid and of
    no other. *)
Theorem link_slices_tile_the_links (cidsSize : nat) (linksCount : list nat) (j : nat) :
  let start := fst (getLinksStartIndex cidsSize linksCount) in
  let total := snd (getLinksStartIndex cidsSize linksCount) in
  (j < total)%nat ->
  exists i, (i < cidsSize)%nat
            /\ j ∈ links_of start linksCount i
            /\ forall c, (c < cidsSize)%nat -> j ∈ links_of start linksCount c -> c = i.
Proof.
  intros start total Hj. subst total. rewrite getLinksStartIndex_spec in Hj. cbn [snd] in Hj.
  destruct (links_before_owner linksCount cidsSize j Hj) as (i & Hi & Hr).
  assert (Hin : j ∈ links_of start linksCount i).
  { unfold links_of, start. rewrite getLinksStartIndex_nth by done. apply elem_of_seq. lia. }
  exists i. split; [done|]. split; [done|]. intros c Hc Hjc.
  apply (visits_one_owner cidsSize linksCount c j i); by apply elem_of_visits.
Qed.

(** Three cids with 2, 0 and 3 links: link 3 belongs to cid 2. *)
Lemma link_slices_tile_the_links_witness :
  exists i, (i < 3)%nat
            /\ 3%nat ∈ links_of (fst (getLinksStartIndex 3 [2; 0; 3]%nat)) [2; 0; 3]%nat i
            /\ forall c, (c < 3)%nat ->
                         3%nat ∈ links_of (fst (getLinksStartIndex 3 [2; 0; 3]%nat))
                                  [2; 0; 3]%nat c -> c = i.
Proof.
  apply (link_slices_tile_the_links 3 [2; 0; 3]%nat 3). vm_compute. lia.
Defined.

(** A slice lies below the total. *)
Lemma links_of_below_total (cidsSize : nat) (linksCount : list nat) (i j : nat) :
  (i < cidsSize)%nat ->
  j ∈ links_of (fst (getLinksStartIndex cidsSize linksCount)) linksCount i ->
  (j < snd (getLinksStartIndex cidsSize linksCount))%nat.
Proof.
  intros Hi Hj. unfold links_of in Hj. rewrite getLinksStartIndex_nth in Hj by done.
  apply elem_of_seq in Hj. rewrite getLinksStartIndex_spec. cbn [snd].
  pose proof (links_before_mono linksCount i cidsSize Hi). lia.
Qed.

Lemma fold_u64_sum (f : nat -> Z) (js : list nat) (a : Z) :
  fold_left (fun t j => u64 (t + f j)) js (u64 a) = u64 (a + sumZ (map f js)).
Proof.
  revert a. induction js as [|j js IH]; intros a; cbn [fold_left map sumZ fold_right].
  - by rewrite Z.add_0_r.
  - fold (sumZ (map f js)).
    replace (u64 (u64 a + f j)) with (u64 (a + f j))
      by (unfold u64; by rewrite Zplus_mod_idemp_l).
    rewrite IH. f_equal. lia.
Qed.

Lemma u64_range z : 0 <= u64 z < 2 ^ 64.
Proof. unfold u64. apply Z.mod_pos_bound. reflexivity. Qed.

Lemma u64_small z : 0 <= z < 2 ^ 64 -> u64 z = z.
Proof. intros Hz. unfold u64. by apply Z.mod_small. Qed.

(** X3.  [calculateCidTotalOutStake] adds the stakes of the authors of a
    cid's links in [uint64_t]: the total of a cid is the sum of those
    stakes modulo 2^64 (0 for a cid without links).  It is the sum itself
    when the stakes of the slice are not negative and their sum is below
    2^64; nothing reports a sum that wrapped. *)
Theorem total_stake_is_the_sum_modulo_2_64 (cidsSize : nat) (stakes : list Z)
    (start count users : list nat) :
  let total := calculateCidTotalOutStake cidsSize stakes start count users in
  let slice_stakes i := map (stake_of stakes users) (links_of start count i) in
  total = map (fun i => u64 (sumZ (slice_stakes i))) (seq 0 cidsSize)
  /\ length total = cidsSize
  /\ (forall i, 0 <= nth i total 0 < 2 ^ 64)
  /\ (forall i, (i < cidsSize)%nat -> nth i count 0%nat = 0%nat -> nth i total 0 = 0)
  /\ (forall i, (i < cidsSize)%nat ->
                (forall s, s ∈ slice_stakes i -> 0 <= s) -> sumZ (slice_stakes i) < 2 ^ 64 ->
                nth i total 0 = sumZ (slice_stakes i)).
Proof.
  intros total slice_stakes.
  assert (Heq : total = map (fun i => u64 (sumZ (slice_stakes i))) (seq 0 cidsSize)).
  { subst total slice_stakes. unfold calculateCidTotalOutStake. apply map_ext. intros i.
    exact (fold_u64_sum (fun j => nth (nth j users 0%nat) stakes 0) (links_of start count i) 0). }
  assert (Hnth : forall i, (i < cidsSize)%nat -> nth i total 0 = u64 (sumZ (slice_stakes i))).
  { intros i Hi. rewrite Heq, nth_lookup, list_lookup_fmap, lookup_seq_lt by done. done. }
  split; [done|]. split; [by rewrite Heq, length_map, length_seq|]. split; [|split].
  - intros i. destruct (lt_dec i cidsSize) as [Hi|Hi].
    + rewrite Hnth by done. apply u64_range.
    + rewrite nth_overflow; [done|]. rewrite Heq, length_map, length_seq. lia.
  - intros i Hi H0. rewrite Hnth by done. subst slice_stakes. cbv beta.
    unfold links_of. by rewrite H0.
  - intros i Hi Hpos Hsum. rewrite Hnth by done. apply u64_small. split; [|done].
    clear -Hpos. induction (slice_stakes i) as [|s l IH]; cbn [sumZ fold_right]; [done|].
    fold (sumZ l). pose proof (Hpos s ltac:(left)).
    pose proof (IH ltac:(intros; apply Hpos; by right)). lia.
Qed.

(** ** Conversion and division of stakes *)

Lemma round53_exact a : 0 < a < 2 ^ 53 -> round53 (a * 2 ^ 2148) = a * 2 ^ 1074.
Proof.
  intros Ha. pose proof (Zdigits2_pos a ltac:(lia)) as Hd0.
  pose proof (Zdigits2_small a ltac:(lia) ltac:(lia)) as Hd.
  unfold round53. rewrite Zdigits2_shift by lia.
  replace (Zdigits2 a + 2148 - 2148) with (Zdigits2 a) by lia. cbv zeta.
  assert (HE : fexp64 (Zdigits2 a) = Zdigits2 a - 53) by (unfold fexp64; lia).
  rewrite HE.
  replace (a * 2 ^ 2148) with (a * 2 ^ (53 - Zdigits2 a) * 2 ^ (Zdigits2 a - 53 + 2148))
    by (rewrite <- Z.mul_assoc, pow2_mul by lia; f_equal; f_equal; lia).
  rewrite rne_exact by lia.
  rewrite <- Z.mul_assoc, pow2_mul by lia.
  replace (53 - Zdigits2 a + (Zdigits2 a - 53 + 1074)) with 1074 by lia.
  pose proof (scaled_below a 0 53 2098 ltac:(lia) ltac:(lia) ltac:(lia) ltac:(lia)) as Hb.
  change (0 + 1074) with 1074 in Hb. unfold inf_level. lia.
Qed.

Lemma b64_of_Z_level a : 0 <= a -> level (b64_of_Z a) = round53 (a * 2 ^ 2148).
Proof. intros Ha. by apply (normalize_spec a 0 Ha). Qed.

(** The order of the levels is the order of binary64. *)
Lemma level_lt_SFltb x y :
  nonneg64 x = true -> nonneg64 y = true -> level y <= inf_level ->
  level x < level y -> SFltb x y = true.
Proof.
  intros Hx Hy Hnan Hlt. pose proof inf_level_pos.
  nonneg_cases x Hx; nonneg_cases y Hy; cbn [level] in *;
    try (pose proof (finite_level _ _ Hx)); try (pose proof (finite_level _ _ Hy));
    try lia; try reflexivity.
  unfold SFltb, SFcompare.
  pose proof (bounded_spec _ _ Hx) as (Hex & Hmx & _ & Hdx).
  pose proof (bounded_spec _ _ Hy) as (Hey & Hmy & _ & Hdy).
  destruct (Z.compare_spec e e0) as [Heq|Hl|Hg]; [|done|].
  - subst e0. rewrite Pos.compare_cont_spec. cbn [Pos.switch_Eq].
    pose proof (pow2_pos (e + 1074) ltac:(lia)).
    destruct (Pos.compare_spec m m0) as [Hc|Hc|Hc]; [subst; lia|done|nia].
  - exfalso. destruct Hdx as [->|Hdx]; [lia|].
    pose proof (Zdigits2_bounds (Zpos m) ltac:(lia)) as [Hl _]. rewrite Hdx in Hl.
    change (2 ^ (53 - 1)) with (2 ^ 52) in Hl.
    pose proof (scaled_above (Zpos m) e 52 (53 + (e0 + 1074)) Hl ltac:(lia) ltac:(lia)
                  ltac:(lia)).
    pose proof (scaled_below (Zpos m0) e0 53 (53 + (e0 + 1074)) ltac:(lia) ltac:(lia)
                  ltac:(lia) ltac:(lia)).
    lia.
Qed.

Lemma level_le_SFleb x y :
  nonneg64 x = true -> nonneg64 y = true -> level y <= inf_level ->
  level x <= level y -> SFleb x y = true.
Proof.
  intros Hx Hy Hnan Hle. destruct (Z.eq_dec (level x) (level y)) as [Heq|Hne].
  - rewrite (level_inj x y Hx Hy Heq). apply SFleb_refl.
    destruct y; try reflexivity. cbn [level] in Hnan. lia.
  - apply SFltb_leb, level_lt_SFltb; try done. lia.
Qed.

(** X4.  [__ull2double_rn] is exact on the integers below 2^53: such an
    integer [a] is converted to the binary64 number of value [a], and two
    of them are converted in their order.  From 2^53 on the conversion
    rounds: 2^53 and 2^53 + 1 are converted to the same number. *)
Theorem stake_conversion_is_exact_below_2_53 (a : Z) :
  0 <= a < 2 ^ 53 ->
  level (b64_of_Z a) = a * 2 ^ 1074
  /\ (forall b, a < b < 2 ^ 53 -> SFltb (b64_of_Z a) (b64_of_Z b) = true)
  /\ b64_of_Z (2 ^ 53 + 1) = b64_of_Z (2 ^ 53).
Proof.
  intros Ha.
  assert (Hl : forall c, 0 <= c < 2 ^ 53 -> level (b64_of_Z c) = c * 2 ^ 1074).
  { intros c Hc. rewrite b64_of_Z_level by lia. destruct (Z.eq_dec c 0) as [->|Hne].
    - reflexivity.
    - apply round53_exact. lia. }
  split; [by apply Hl|]. split; [|reflexivity].
  intros b Hb. apply level_lt_SFltb.
  - apply b64_of_Z_nonneg. lia.
  - apply b64_of_Z_nonneg. lia.
  - rewrite Hl by lia.
    pose proof (scaled_below b 0 53 2098 ltac:(lia) ltac:(lia) ltac:(lia) ltac:(lia)) as Hb'.
    change (0 + 1074) with 1074 in Hb'. unfold inf_level. lia.
  - rewrite !Hl by lia. pose proof (pow2_pos 1074 ltac:(lia)). nia.
Qed.

(** A stake of 10. *)
Lemma stake_conversion_is_exact_below_2_53_witness :
  level (b64_of_Z 10) = 10 * 2 ^ 1074
  /\ (forall b, 10 < b < 2 ^ 53 -> SFltb (b64_of_Z 10) (b64_of_Z b) = true)
  /\ b64_of_Z (2 ^ 53 + 1) = b64_of_Z (2 ^ 53).
Proof. apply (stake_conversion_is_exact_below_2_53 10). split; [discriminate|reflexivity]. Defined.

Lemma b64_of_Z_finite a :
  0 < a < 2 ^ 64 -> exists m e, b64_of_Z a = S754_finite false m e.
Proof.
  intros Ha. pose proof (b64_of_Z_nonneg a ltac:(lia)) as Hn.
  pose proof (b64_of_Z_level a ltac:(lia)) as Hl.
  pose proof (pow2_pos 2148 ltac:(lia)) as Hp.
  pose proof (round53_mono (1 * 2 ^ 2148) (a * 2 ^ 2148) ltac:(lia) ltac:(nia)) as Hlo.
  pose proof (round53_mono (a * 2 ^ 2148) (2 ^ 64 * 2 ^ 2148) ltac:(nia) ltac:(nia)) as Hhi.
  rewrite round53_exact in Hlo by (split; reflexivity).
  assert (Hc : round53 (2 ^ 64 * 2 ^ 2148) < inf_level) by (vm_compute; reflexivity).
  pose proof (pow2_pos 1074 ltac:(lia)).
  destruct (b64_of_Z a) as [[]|[]| |[] m e]; cbn [nonneg64 negb andb level] in *;
    try discriminate Hn; try lia.
  by exists m, e.
Qed.

(** X5.  [ddiv_rn] has no check of the divisor.  On binary64 the quotient
    of the stakes [a] and 0 is +infinity when [a] is not 0 and NaN when it
    is 0; the quotient of 0 and a stake other than 0 is +0. *)
Theorem ddiv_rn_by_zero_stake (log2 : spec_float -> spec_float) (a : Z) :
  0 < a < 2 ^ 64 ->
  ddiv_rn (binary64 log2) a 0 = S754_infinity false
  /\ ddiv_rn (binary64 log2) 0 0 = S754_nan
  /\ ddiv_rn (binary64 log2) 0 a = S754_zero false.
Proof.
  intros Ha. destruct (b64_of_Z_finite a Ha) as (m & e & Hf).
  unfold ddiv_rn. cbn [f_div f_of_u64 binary64]. rewrite Hf. repeat split.
Qed.

(** A stake of 7. *)
Lemma ddiv_rn_by_zero_stake_witness :
  ddiv_rn Scenario.B 7 0 = S754_infinity false
  /\ ddiv_rn Scenario.B 0 0 = S754_nan
  /\ ddiv_rn Scenario.B 0 7 = S754_zero false.
Proof. apply (ddiv_rn_by_zero_stake log2_floor 7). split; reflexivity. Defined.

(** ** Further properties of the local weights *)

(** X6.  [calculateCyberlinksLocalWeights] writes, for every link of every
    cid, the stake of the link's author divided by the oil of the cid
    (total outbound plus total inbound stake, in [uint64_t]) into the
    slot of the link.  It writes nowhere else: the buffer keeps its size
    and every slot from the total number of links on keeps what it
    held. *)
Theorem local_weights_fill_the_link_slots (A : Arith) (cidsSize : nat) (stakes : list Z)
    (count users : list nat) (tout tin : list Z) (ws0 : list (dbl A)) :
  let start := fst (getLinksStartIndex cidsSize count) in
  let total := snd (getLinksStartIndex cidsSize count) in
  let ws := calculateCyberlinksLocalWeights A cidsSize stakes start count users tout tin ws0 in
  length ws = length ws0
  /\ (forall c e d, (c < cidsSize)%nat -> e ∈ links_of start count c -> (e < length ws0)%nat ->
                    nth e ws d
                    = ddiv_rn A (nth (nth e users 0%nat) stakes 0)
                        (u64 (nth c tout 0 + nth c tin 0)))
  /\ (forall e d, (total <= e)%nat -> nth e ws d = nth e ws0 d).
Proof.
  intros start total ws. split; [|split].
  - subst ws. unfold calculateCyberlinksLocalWeights.
    rewrite (nested_fold_visits
               (fun ws i j =>
                  <[j := ddiv_rn A (nth (nth j users 0%nat) stakes 0)
                           (u64 (nth i tout 0 + nth i tin 0))]> ws)).
    apply (fold_insert_length
             (fun i j => ddiv_rn A (nth (nth j users 0%nat) stakes 0)
                           (u64 (nth i tout 0 + nth i tin 0)))).
  - intros c e d Hc He Hlen.
    apply (calculateCyberlinksLocalWeights_nth A cidsSize stakes count users tout tin ws0 c e d);
      [|done].
    by apply elem_of_visits.
  - intros e d He. subst ws. unfold calculateCyberlinksLocalWeights.
    rewrite (nested_fold_visits
               (fun ws i j =>
                  <[j := ddiv_rn A (nth (nth j users 0%nat) stakes 0)
                           (u64 (nth i tout 0 + nth i tin 0))]> ws)).
    apply (fold_insert_other
             (fun i j => ddiv_rn A (nth (nth j users 0%nat) stakes 0)
                           (u64 (nth i tout 0 + nth i tin 0)))).
    intros [i j] Hv Heq. cbn [snd] in Heq. subst j. apply elem_of_visits in Hv as [Hi Hj].
    pose proof (links_of_below_total cidsSize count i e Hi Hj). subst total. lia.
Qed.

(** ** Further properties of the compression *)

Lemma source_changes_le (inLinksOuts : list nat) (s m : nat) :
  (source_changes inLinksOuts s m <= m)%nat.
Proof.
  revert s. induction m as [|m IH]; intros s; cbn [source_changes]; [done|].
  specialize (IH (S s)). destruct (_ =? _)%nat; lia.
Qed.

Lemma getCompressedInLinksCount_nth cidsSize inStart inCount inOuts i :
  (i < cidsSize)%nat ->
  nth i (getCompressedInLinksCount cidsSize inStart inCount inOuts) 0%nat
  = match nth i inCount 0%nat with
    | O => 0%nat
    | S m => S (source_changes inOuts (nth i inStart 0%nat) m)
    end.
Proof.
  intros Hi. unfold getCompressedInLinksCount.
  rewrite (nth_lookup (map _ _)), list_lookup_fmap, lookup_seq_lt by done.
  cbn [fmap option_fmap option_map default Nat.add].
  destruct (nth i inCount 0%nat) as [|m] eqn:Hm; [done|].
  cbn [Nat.eqb]. unfold links_of. rewrite Hm. cbn [seq fold_left].
  rewrite Nat.eqb_refl. cbn [orb]. rewrite count_fold_changes by lia. done.
Qed.

Lemma links_before_le (count count' : list nat) (n : nat) :
  (forall i, (i < n)%nat -> (nth i count 0 <= nth i count' 0)%nat) ->
  (links_before count n <= links_before count' n)%nat.
Proof.
  induction n as [|n IH]; cbn [links_before]; [done|]. intros H.
  specialize (IH ltac:(intros; apply H; lia)). specialize (H n ltac:(lia)). lia.
Qed.

Lemma filter_iff_in {T : Type} (P Q : T -> Prop) `{!forall x, Decision (P x)}
    `{!forall x, Decision (Q x)} (l : list T) :
  (forall x, x ∈ l -> P x <-> Q x) -> filter P l = filter Q l.
Proof.
  induction l as [|x l IH]; intros Hl; [done|].
  rewrite !filter_cons. rewrite IH by (intros; apply Hl; by right).
  pose proof (Hl x ltac:(left)). destruct (decide (P x)), (decide (Q x)); tauto || done.
Qed.

Lemma emit_fold_length (A : Arith) tout inOuts inUsers stakes last js
    (arr : list (CompressedInLink (dbl A))) idx acc :
  length (fst (fst (fold_left (emit_step A tout inOuts inUsers stakes last) js (arr, idx, acc))))
  = length arr.
Proof.
  revert arr idx acc. induction js as [|j js IH]; intros arr idx acc; cbn [fold_left]; [done|].
  unfold emit_step at 2. destruct (_ || _); rewrite IH; [by rewrite length_insert|done].
Qed.

Lemma getCompressedInLinks_length (A : Arith) cidsSize tout inStart inCount inOuts inUsers
    stakes cStart (arr : list (CompressedInLink (dbl A))) :
  length (getCompressedInLinks A cidsSize tout inStart inCount inOuts inUsers stakes cStart arr)
  = length arr.
Proof.
  unfold getCompressedInLinks. generalize (seq 0 cidsSize). intros cids. revert arr.
  induction cids as [|c cids IH]; intros arr; cbn [fold_left]; [done|].
  rewrite IH. unfold getCompressedInLinks_cid.
  destruct (_ =? 0)%nat; [done|]. destruct (_ =? 1)%nat; [by rewrite length_insert|].
  apply emit_fold_length.
Qed.

(** X7.  STEP2 and STEP5 agree on the cids without inbound links: the
    compressed count of a cid is 0 exactly when its inbound count is 0, so
    the cids [run_rank_iteration] skips are the cids STEP5 counts as
    dangling.  A cid with inbound links has at least one and at most as
    many compressed links as inbound links, and the compressed array is
    not longer than the inbound link array. *)
Theorem compressed_counts_follow_the_inbound_counts (A : Arith)
    (stakes : list Z) (cidsSize linksSize : nat)
    (inLinksCount outLinksCount inLinksOuts inLinksUsers outLinksUsers : list nat)
    (dampingFactor : dbl A) :
  let p := prepare A stakes cidsSize linksSize inLinksCount outLinksCount
             inLinksOuts inLinksUsers outLinksUsers dampingFactor in
  (forall i, (i < cidsSize)%nat ->
     (nth i (d_compressedInLinksCount p) 0%nat = 0%nat <-> nth i inLinksCount 0%nat = 0%nat)
     /\ (nth i (d_compressedInLinksCount p) 0 <= nth i inLinksCount 0)%nat)
  /\ filter (fun i => nth i (d_compressedInLinksCount p) 0%nat = 0%nat) (seq 0 cidsSize)
     = filter (fun i => nth i inLinksCount 0%nat = 0%nat) (seq 0 cidsSize)
  /\ (snd (getLinksStartIndex cidsSize (d_compressedInLinksCount p))
      <= snd (getLinksStartIndex cidsSize inLinksCount))%nat
  /\ length (d_compressedInLinks p)
     = snd (getLinksStartIndex cidsSize (d_compressedInLinksCount p)).
Proof.
  intros p.
  assert (H : forall i, (i < cidsSize)%nat ->
     (nth i (d_compressedInLinksCount p) 0%nat = 0%nat <-> nth i inLinksCount 0%nat = 0%nat)
     /\ (nth i (d_compressedInLinksCount p) 0 <= nth i inLinksCount 0)%nat).
  { intros i Hi. subst p. unfold prepare. cbn [d_compressedInLinksCount].
    rewrite getCompressedInLinksCount_nth by done.
    destruct (nth i inLinksCount 0%nat) as [|m]; [done|].
    pose proof (source_changes_le inLinksOuts
                  (nth i (fst (getLinksStartIndex cidsSize inLinksCount)) 0%nat) m).
    split; [split; intros; lia|lia]. }
  split; [exact H|]. split; [|split].
  - apply filter_iff_in. intros i Hi. apply elem_of_seq in Hi. apply H. lia.
  - rewrite !getLinksStartIndex_spec. cbn [snd]. apply links_before_le.
    intros i Hi. by apply H.
  - subst p. unfold prepare. cbn [d_compressedInLinks d_compressedInLinksCount].
    by rewrite getCompressedInLinks_length, length_replicate.
Qed.

Lemma filter_none {T : Type} (P : T -> Prop) `{!forall x, Decision (P x)} (l : list T) :
  (forall x, x ∈ l -> ~ P x) -> filter P l = [].
Proof.
  induction l as [|x l IH]; intros Hl; [done|].
  rewrite filter_cons_False by (apply Hl; by left). apply IH. intros; apply Hl; by right.
Qed.

Section SortedSlice.

Variable A : Arith.
Variables (tout : list Z) (inLinksOuts inLinksUsers : list nat) (stakes : list Z).

Local Abbreviation src j := (nth j inLinksOuts 0%nat).
Local Abbreviation stake j := (stake_of stakes inLinksUsers j).
Local Abbreviation emitted' := (emitted A tout inLinksOuts inLinksUsers stakes).

(** The sources do not go down from link [s] to link [s + m]. *)
Lemma sorted_slice_le (s m : nat) :
  (forall j, (s <= j)%nat -> (j < s + m)%nat -> (src j <= src (S j))%nat) ->
  forall j k, (s <= j)%nat -> (j <= k)%nat -> (k <= s + m)%nat -> (src j <= src k)%nat.
Proof.
  intros Hs j k Hj Hjk Hk. induction k as [|k IH]; [by replace j with 0%nat by lia|].
  destruct (Nat.eq_dec j (S k)) as [->|Hne]; [done|].
  etransitivity; [apply IH; lia|]. apply Hs; lia.
Qed.

Lemma emitted_sorted (s m : nat) (acc : Z) (l : CompressedInLink (dbl A)) :
  (forall j, (s <= j)%nat -> (j < s + m)%nat -> (src j <= src (S j))%nat) ->
  l ∈ fst (emitted' (s + m)%nat (seq s (S m)) acc) ->
  (exists j, j ∈ seq s (S m) /\ fromIndex l = src j)
  /\ weight l
     = ddiv_rn A
         (u64 ((if decide (fromIndex l = src s) then acc else 0)
               + sumZ (map (fun j => stake j)
                         (filter (fun j => src j = fromIndex l) (seq s (S m))))))
         (nth (fromIndex l) tout 0).
Proof.
  revert s acc. induction m as [|m IH]; intros s acc Hs Hl.
  - cbn [seq emitted fst] in Hl. rewrite Nat.add_0_r, Nat.eqb_refl in Hl. cbn [orb fst] in Hl.
    apply list_elem_of_singleton in Hl. subst l. cbn [fromIndex weight seq].
    split; [exists s; split; [by left|done]|].
    rewrite decide_True by done. rewrite filter_cons_True by done.
    rewrite filter_nil. cbn [map sumZ fold_right]. by rewrite Z.add_0_r.
  - assert (Hsorted := sorted_slice_le s (S m) Hs).
    replace (s + S m)%nat with (S s + m)%nat in Hl by lia.
    change (seq s (S (S m))) with (s :: seq (S s) (S m)) in *.
    cbn [emitted] in Hl.
    replace (s =? S s + m)%nat with false in Hl by (symmetry; apply Nat.eqb_neq; lia).
    cbn [orb] in Hl. replace (s + 1)%nat with (S s) in Hl by lia.
    assert (Hs' : forall j, (S s <= j)%nat -> (j < S s + m)%nat -> (src j <= src (S j))%nat)
      by (intros; apply Hs; lia).
    destruct (src s =? src (S s))%nat eqn:Heq; cbn [negb] in Hl.
    + apply Nat.eqb_eq in Heq.
      destruct (IH (S s) _ Hs' Hl) as [(j & Hj & Hsrc) Hw].
      split; [exists j; split; [by right|done]|].
      rewrite Hw. f_equal. rewrite <- Heq.
      destruct (decide (fromIndex l = src s)) as [Hd|Hd].
      * rewrite filter_cons_True by done. cbn [map sumZ fold_right].
        fold (sumZ (map (fun j => stake j)
                      (filter (fun j => src j = fromIndex l) (seq (S s) (S m))))).
        unfold u64. rewrite Zplus_mod_idemp_l. f_equal. lia.
      * rewrite filter_cons_False by done. done.
    + apply Nat.eqb_neq in Heq. cbn [fst] in Hl.
      apply elem_of_cons in Hl as [->|Hl].
      * cbn [fromIndex weight]. split; [exists s; split; [by left|done]|].
        rewrite decide_True by done. rewrite filter_cons_True by done.
        rewrite filter_none; [cbn; by rewrite Z.add_0_r|].
        intros j Hj Hsrc. apply elem_of_seq in Hj.
        pose proof (Hs s ltac:(lia) ltac:(lia)).
        pose proof (Hsorted (S s) j ltac:(lia) ltac:(lia) ltac:(lia)). lia.
      * destruct (IH (S s) _ Hs' Hl) as [(j & Hj & Hsrc) Hw].
        split; [exists j; split; [by right|done]|].
        assert (Hne : fromIndex l <> src s).
        { apply elem_of_seq in Hj. pose proof (Hs s ltac:(lia) ltac:(lia)).
          pose proof (Hsorted (S s) j ltac:(lia) ltac:(lia) ltac:(lia)). lia. }
        rewrite Hw. rewrite (decide_False (P := fromIndex l = src s)) by done.
        rewrite filter_cons_False by (intros ?; by apply Hne).
        destruct (decide (fromIndex l = src (S s))); done.
Qed.

Lemma emitted_sources (last : nat) (js : list nat) (acc : Z) :
  map fromIndex (fst (emitted' last js acc))
  = map (fun j => src j)
      (List.filter (fun j => (j =? last)%nat || negb (src j =? src (j + 1))%nat) js).
Proof.
  revert acc. induction js as [|j js IH]; intros acc; cbn [emitted List.filter]; [done|].
  destruct ((j =? last)%nat || negb (src j =? src (j + 1))%nat); cbn [fst map fromIndex].
  - by rewrite IH.
  - apply IH.
Qed.

Lemma remove_dups_sorted (s m : nat) :
  (forall j, (s <= j)%nat -> (j < s + m)%nat -> (src j <= src (S j))%nat) ->
  remove_dups (map (fun j => src j) (seq s (S m)))
  = map (fun j => src j)
      (List.filter (fun j => (j =? s + m)%nat || negb (src j =? src (j + 1))%nat)
         (seq s (S m))).
Proof.
  revert s. induction m as [|m IH]; intros s Hs.
  - cbn [seq map List.filter remove_dups]. by rewrite Nat.add_0_r, Nat.eqb_refl.
  - assert (Hsorted := sorted_slice_le s (S m) Hs).
    change (seq s (S (S m))) with (s :: seq (S s) (S m)).
    cbn [map List.filter remove_dups].
    replace (s =? s + S m)%nat with false by (symmetry; apply Nat.eqb_neq; lia).
    cbn [orb]. replace (s + 1)%nat with (S s) by lia.
    replace (s + S m)%nat with (S s + m)%nat by lia.
    destruct (src s =? src (S s))%nat eqn:Heq; cbn [negb map];
      rewrite <- IH by (intros; apply Hs; lia);
      destruct (decide_rel elem_of (src s) (map (fun j => src j) (seq (S s) (S m))))
        as [Hin|Hnin]; try done.
    + apply Nat.eqb_eq in Heq. exfalso. apply Hnin.
      apply list_elem_of_fmap. exists (S s). split; [done|]. apply elem_of_seq. lia.
    + apply Nat.eqb_neq in Heq. exfalso.
      apply list_elem_of_fmap in Hin as (j & Hj & Hin). apply elem_of_seq in Hin.
      pose proof (Hs s ltac:(lia) ltac:(lia)).
      pose proof (Hsorted (S s) j ltac:(lia) ltac:(lia) ltac:(lia)). lia.
Qed.

(** The compressed links of a cid whose inbound slice is sorted by
    source. *)
Lemma compressed_of_sorted (inStart inCount : list nat) (i : nat) :
  let raw := links_of inStart inCount i in
  let comp := compressed_of A tout inStart inCount inLinksOuts inLinksUsers stakes i in
  (forall j, j ∈ raw -> S j ∈ raw -> (src j <= src (S j))%nat) ->
  (forall j, j ∈ raw -> 0 <= stake j < 2 ^ 64) ->
  map fromIndex comp = remove_dups (map (fun j => src j) raw)
  /\ forall l, l ∈ comp ->
       weight l
       = ddiv_rn A
           (u64 (sumZ (map (fun j => stake j) (filter (fun j => src j = fromIndex l) raw))))
           (nth (fromIndex l) tout 0).
Proof.
  intros raw comp Hs Hr. subst raw comp. unfold compressed_of, links_of in *.
  set (s := nth i inStart 0%nat) in *.
  destruct (nth i inCount 0%nat) as [|m] eqn:Hm; [split; [done|]|].
  { intros l Hl. by apply elem_of_nil in Hl. }
  cbn [Nat.eqb].
  assert (Hs' : forall j, (s <= j)%nat -> (j < s + m)%nat -> (src j <= src (S j))%nat).
  { intros j H1 H2. apply Hs; apply elem_of_seq; lia. }
  destruct m as [|m].
  - cbn [Nat.eqb seq map]. split; [by cbn|].
    intros l Hl. apply list_elem_of_singleton in Hl. subst l. cbn [fromIndex weight].
    rewrite filter_cons_True by done. rewrite filter_nil. cbn [map sumZ fold_right].
    rewrite Z.add_0_r, u64_small; [done|]. apply Hr. by left.
  - cbn [Nat.eqb]. replace (s + S (S m) - 1)%nat with (s + S m)%nat by lia. split.
    + by rewrite emitted_sources, remove_dups_sorted.
    + intros l Hl. destruct (emitted_sorted s (S m) 0 l Hs' Hl) as [_ Hw].
      rewrite Hw. f_equal. f_equal. by destruct (decide _).
Qed.

End SortedSlice.

(** X8.  When the inbound slice of a cid is sorted by source (and the
    stakes of its authors are [uint64_t] values, the compressed links
    fewer than 2^32), its compressed slice has one entry for every
    distinct source, in the order of the sources: the number of entries is
    the number of distinct sources, no source occurs twice, and the weight
    of the entry of a source is the sum (in [uint64_t]) of the stakes of
    all links of the slice from that source, divided by the total
    outbound stake of the source. *)
Theorem sorted_slice_compresses_to_one_link_per_source (A : Arith)
    (stakes : list Z) (cidsSize linksSize : nat)
    (inLinksCount outLinksCount inLinksOuts inLinksUsers outLinksUsers : list nat)
    (dampingFactor : dbl A) (c : nat) :
  let p := prepare A stakes cidsSize linksSize inLinksCount outLinksCount
             inLinksOuts inLinksUsers outLinksUsers dampingFactor in
  let raw := links_of (inLinksStartIndex_h p) inLinksCount c in
  let comp := links_of (d_compressedInLinksStartIndex p) (d_compressedInLinksCount p) c in
  let entry k := nth k (d_compressedInLinks p) (Build_CompressedInLink 0%nat (f_zero A)) in
  let sources := map (fun j => nth j inLinksOuts 0%nat) raw in
  (c < cidsSize)%nat ->
  Z.of_nat (snd (getLinksStartIndex cidsSize (d_compressedInLinksCount p))) < 2 ^ 32 ->
  (forall j, j ∈ raw -> S j ∈ raw -> (nth j inLinksOuts 0 <= nth (S j) inLinksOuts 0)%nat) ->
  (forall j, j ∈ raw -> 0 <= stake_of stakes inLinksUsers j < 2 ^ 64) ->
  map (fun k => fromIndex (entry k)) comp = remove_dups sources
  /\ nth c (d_compressedInLinksCount p) 0%nat = length (remove_dups sources)
  /\ NoDup (map (fun k => fromIndex (entry k)) comp)
  /\ forall k, k ∈ comp ->
       weight (entry k)
       = ddiv_rn A
           (u64 (sumZ (map (stake_of stakes inLinksUsers)
                         (filter (fun j => nth j inLinksOuts 0%nat = fromIndex (entry k)) raw))))
           (nth (fromIndex (entry k)) (d_cidsTotalOutStakes p) 0).
Proof.
  intros p raw comp entry sources Hc H32 Hsorted Hrange.
  set (es := compressed_of A (d_cidsTotalOutStakes p) (inLinksStartIndex_h p) inLinksCount
               inLinksOuts inLinksUsers stakes c).
  destruct (compressed_of_sorted A (d_cidsTotalOutStakes p) inLinksOuts inLinksUsers stakes
              (inLinksStartIndex_h p) inLinksCount c Hsorted Hrange) as [Hsrc Hw].
  fold es in Hsrc, Hw. fold raw sources in Hsrc.
  assert (Hlen : length es = nth c (d_compressedInLinksCount p) 0%nat).
  { apply compressed_of_length. exact Hc. }
  rewrite getLinksStartIndex_spec in H32. cbn [snd] in H32.
  assert (Hentry : forall k, (k < length es)%nat ->
            entry (nth c (d_compressedInLinksStartIndex p) 0 + k)%nat
            = nth k es (Build_CompressedInLink 0%nat (f_zero A))).
  { intros k Hk. subst entry. cbv beta. subst es p. unfold prepare in *.
    cbn [d_compressedInLinks d_compressedInLinksStartIndex d_compressedInLinksCount
         d_cidsTotalOutStakes inLinksStartIndex_h] in *.
    apply getCompressedInLinks_nth; [exact H32| |exact Hc|rewrite <- Hlen; exact Hk].
    rewrite length_replicate. set (cnt := getCompressedInLinksCount _ _ _ _).
    rewrite (getLinksStartIndex_spec cidsSize cnt). cbn [snd]. lia. }
  assert (Hmap : map entry comp = es).
  { subst comp. unfold links_of. rewrite <- Hlen.
    rewrite <- (map_id es) at 2.
    apply (map_seq_nth (fun l => l) (d_compressedInLinks p) es
             (nth c (d_compressedInLinksStartIndex p) 0%nat)
             (Build_CompressedInLink 0%nat (f_zero A))).
    exact Hentry. }
  assert (Hfrom : map (fun k => fromIndex (entry k)) comp = remove_dups sources).
  { rewrite <- Hsrc, <- Hmap, map_map. done. }
  split; [exact Hfrom|]. split; [|split].
  - rewrite <- Hlen, <- Hsrc. by rewrite length_map.
  - rewrite Hfrom. apply NoDup_remove_dups.
  - intros k Hk. apply Hw. rewrite <- Hmap. apply list_elem_of_fmap. by exists k.
Qed.

(** Cid 2 with the inbound links 0 -> 2 (users 0 and 1, stakes 3 and 7)
    and 1 -> 2 (user 0). *)
Lemma sorted_slice_compresses_to_one_link_per_source_witness :
  let p := prepare Scenario.B [3; 7] 3 3 [0; 0; 3]%nat [2; 1; 0]%nat [0; 0; 1]%nat
             [0; 1; 0]%nat [0; 1; 0]%nat Scenario.half in
  let raw := links_of (inLinksStartIndex_h p) [0; 0; 3]%nat 2 in
  let comp := links_of (d_compressedInLinksStartIndex p) (d_compressedInLinksCount p) 2 in
  let entry k := nth k (d_compressedInLinks p) (Build_CompressedInLink 0%nat (S754_zero false)) in
  let sources := map (fun j => nth j [0; 0; 1]%nat 0%nat) raw in
  map (fun k => fromIndex (entry k)) comp = remove_dups sources
  /\ nth 2 (d_compressedInLinksCount p) 0%nat = length (remove_dups sources)
  /\ NoDup (map (fun k => fromIndex (entry k)) comp)
  /\ forall k, k ∈ comp ->
       weight (entry k)
       = ddiv_rn Scenario.B
           (u64 (sumZ (map (stake_of [3; 7] [0; 1; 0]%nat)
                         (filter (fun j => nth j [0; 0; 1]%nat 0%nat = fromIndex (entry k)) raw))))
           (nth (fromIndex (entry k)) (d_cidsTotalOutStakes p) 0).
Proof.
  apply (sorted_slice_compresses_to_one_link_per_source Scenario.B [3; 7] 3 3 [0; 0; 3]%nat
           [2; 1; 0]%nat [0; 0; 1]%nat [0; 1; 0]%nat [0; 1; 0]%nat Scenario.half 2).
  - lia.
  - vm_compute. reflexivity.
  - intros j _ Hj. unfold links_of in Hj. apply elem_of_seq in Hj.
    change (nth 2 (inLinksStartIndex_h _) 0%nat) with 0%nat in Hj. cbn [nth] in Hj.
    destruct j as [|[|[|j]]]; cbn [nth]; lia.
  - intros j Hj. unfold links_of in Hj. apply elem_of_seq in Hj.
    change (nth 2 (inLinksStartIndex_h _) 0%nat) with 0%nat in Hj. cbn [nth] in Hj.
    destruct j as [|[|[|j]]]; [vm_compute; split; [discriminate|reflexivity]..|lia].
Defined.

(** ** Further properties of the host driver *)

Lemma cudaMemcpy_tail {T : Type} (dst src : list T) n :
  (n <= length src)%nat -> drop n (cudaMemcpy dst src n) = drop n dst.
Proof.
  intros Hn. unfold cudaMemcpy. rewrite drop_app_length'; [done|].
  rewrite length_take. lia.
Qed.

Lemma cudaMemcpy_head {T : Type} (dst src : list T) n :
  (n <= length src)%nat -> take n (cudaMemcpy dst src n) = take n src.
Proof.
  intros Hn. unfold cudaMemcpy. rewrite take_app_length'; [done|].
  rewrite length_take. lia.
Qed.

Lemma cudaMemcpy_length {T : Type} (dst src : list T) n :
  (n <= length src)%nat -> (n <= length dst)%nat ->
  length (cudaMemcpy dst src n) = length dst.
Proof.
  intros Hs Hd. unfold cudaMemcpy. rewrite length_app, length_take, length_drop. lia.
Qed.

Section Driver.

Variable A : Arith.
Local Abbreviation D := (dbl A).
Local Notation "0.0" := (f_zero A).

Variables (stakes : list Z) (stakesSize cidsSize linksSize : nat).
Variables (inLinksCount outLinksCount outLinksIns inLinksOuts inLinksUsers outLinksUsers
           : list nat).
Variables (dampingFactor tolerance : D).

Local Abbreviation p :=
  (prepare A stakes cidsSize linksSize inLinksCount outLinksCount inLinksOuts inLinksUsers
     outLinksUsers dampingFactor).
Local Abbreviation run fuel out :=
  (calculate_rank A fuel stakes stakesSize cidsSize linksSize inLinksCount outLinksCount
     outLinksIns inLinksOuts inLinksUsers outLinksUsers dampingFactor tolerance out).

(** What [calculate_rank] returns, from the device rank the loop left. *)
Lemma calculate_rank_returns fuel (out res : Outputs A) :
  run fuel out = Some res ->
  exists d_rank d_prev,
    rank_loop A fuel (d_compressedInLinks p) cidsSize (d_compressedInLinksStartIndex p)
      (d_compressedInLinksCount p) (defaultRankWithCorrection_h p) dampingFactor tolerance
      (replicate cidsSize (defaultRank p)) (replicate cidsSize (defaultRank p))
      (f_add A tolerance (f_one A)) = Some (d_rank, d_prev)
    /\ length d_rank = cidsSize
    /\ res = finish A p cidsSize stakesSize outLinksCount outLinksUsers
               (Build_Outputs A (replicate cidsSize (defaultRank p) ++ drop cidsSize (rank out))
                  (entropy out) (light out) (karma out))
               d_rank.
Proof.
  unfold calculate_rank. cbn [rank]. rewrite take_initial_rank.
  destruct (rank_loop _ _ _ _ _ _ _ _ _ _ _ _) as [[r q]|] eqn:Hloop; [|discriminate].
  intros [= <-]. exists r, q. split; [done|]. split; [|done].
  by apply (rank_loop_length A _ _ _ _ _ _ _ _ _ _ _ _ _ cidsSize
              (length_replicate _ _) (length_replicate _ _) Hloop).
Qed.

End Driver.

(** The light slot of a run and the entropy slot of the device. *)
Lemma light_slot_of_run (A : Arith) (fuel : nat)
    (stakes : list Z) (stakesSize cidsSize linksSize : nat)
    (inLinksCount outLinksCount outLinksIns inLinksOuts inLinksUsers outLinksUsers : list nat)
    (dampingFactor tolerance : dbl A) (out res : Outputs A) (c : nat) :
  let p := prepare A stakes cidsSize linksSize inLinksCount outLinksCount
             inLinksOuts inLinksUsers outLinksUsers dampingFactor in
  let outStart := fst (getLinksStartIndex cidsSize outLinksCount) in
  let inStart := fst (getLinksStartIndex cidsSize inLinksCount) in
  let oil := u64 (nth c (d_cidsTotalOutStakes p) 0 + nth c (d_cidsTotalInStakes p) 0) in
  calculate_rank A fuel stakes stakesSize cidsSize linksSize inLinksCount outLinksCount
    outLinksIns inLinksOuts inLinksUsers outLinksUsers dampingFactor tolerance out = Some res ->
  (c < cidsSize)%nat ->
  nth c (light res) (f_zero A)
  = f_mul A (nth c (rank res) (f_zero A)) (nth c (d_entropy p) (f_zero A))
  /\ nth c (d_entropy p) (f_zero A)
     = f_add A
         (fold_left (entropy_step A stakes outLinksUsers oil) (links_of outStart outLinksCount c)
            (f_zero A))
         (fold_left (entropy_step A stakes inLinksUsers oil) (links_of inStart inLinksCount c)
            (f_zero A)).
Proof.
  intros p outStart inStart oil Hrun Hc.
  destruct (calculate_rank_returns A _ _ _ _ _ _ _ _ _ _ _ _ _ _ _ Hrun)
    as (d_rank & d_prev & _ & Hlen & ->).
  fold p. unfold finish. cbn [light rank]. split.
  - rewrite !cudaMemcpy_nth by (rewrite ?mulArrays_length; lia).
    unfold mulArrays. rewrite (nth_lookup (map _ _)), list_lookup_fmap, lookup_seq_lt by done.
    done.
  - subst p. unfold prepare. cbn [d_entropy d_cidsTotalOutStakes d_cidsTotalInStakes] in *.
    unfold sumArrays. rewrite (nth_lookup (map _ _)), list_lookup_fmap, lookup_seq_lt by done.
    cbn [fmap option_fmap option_map default Nat.add]. unfold calculateNodeEntropy.
    rewrite !(nth_lookup (map _ _)), !list_lookup_fmap, !lookup_seq_lt by done.
    done.
Qed.

(** X9.  The light of a cid is its rank times the entropy the device
    holds for it (the sum of the outbound and the inbound entropy), for
    every arithmetic, although that entropy itself is not handed to the
    caller. *)
Theorem light_is_rank_times_device_entropy (A : Arith) (fuel : nat)
    (stakes : list Z) (stakesSize cidsSize linksSize : nat)
    (inLinksCount outLinksCount outLinksIns inLinksOuts inLinksUsers outLinksUsers : list nat)
    (dampingFactor tolerance : dbl A) (out res : Outputs A) (c : nat) :
  let p := prepare A stakes cidsSize linksSize inLinksCount outLinksCount
             inLinksOuts inLinksUsers outLinksUsers dampingFactor in
  let outStart := fst (getLinksStartIndex cidsSize outLinksCount) in
  let inStart := fst (getLinksStartIndex cidsSize inLinksCount) in
  let oil := u64 (nth c (d_cidsTotalOutStakes p) 0 + nth c (d_cidsTotalInStakes p) 0) in
  calculate_rank A fuel stakes stakesSize cidsSize linksSize inLinksCount outLinksCount
    outLinksIns inLinksOuts inLinksUsers outLinksUsers dampingFactor tolerance out = Some res ->
  (c < cidsSize)%nat ->
  nth c (light res) (f_zero A)
  = f_mul A (nth c (rank res) (f_zero A)) (nth c (d_entropy p) (f_zero A))
  /\ nth c (d_entropy p) (f_zero A)
     = f_add A
         (fold_left (entropy_step A stakes outLinksUsers oil) (links_of outStart outLinksCount c)
            (f_zero A))
         (fold_left (entropy_step A stakes inLinksUsers oil) (links_of inStart inLinksCount c)
            (f_zero A)).
Proof.
  intros p outStart inStart oil Hrun Hc.
  exact (light_slot_of_run A fuel stakes stakesSize cidsSize linksSize inLinksCount outLinksCount
           outLinksIns inLinksOuts inLinksUsers outLinksUsers dampingFactor tolerance out res c
           Hrun Hc).
Qed.

(** X10.  [calculate_rank] touches the karma of a user only through the
    links the user authored: a user below [stakesSize] who authored no
    outbound link gets the caller's value back, and so does every slot
    from [stakesSize] on; the buffer keeps its length. *)
Theorem karma_without_links_is_returned_unchanged (A : Arith) (fuel : nat)
    (stakes : list Z) (stakesSize cidsSize linksSize : nat)
    (inLinksCount outLinksCount outLinksIns inLinksOuts inLinksUsers outLinksUsers : list nat)
    (dampingFactor tolerance : dbl A) (out res : Outputs A) :
  let outStart := fst (getLinksStartIndex cidsSize outLinksCount) in
  calculate_rank A fuel stakes stakesSize cidsSize linksSize inLinksCount outLinksCount
    outLinksIns inLinksOuts inLinksUsers outLinksUsers dampingFactor tolerance out = Some res ->
  (stakesSize <= length (karma out))%nat ->
  (forall u, (u < stakesSize)%nat ->
     (forall c e, (c < cidsSize)%nat -> e ∈ links_of outStart outLinksCount c ->
                  nth e outLinksUsers 0%nat <> u) ->
     nth u (karma res) (f_zero A) = nth u (karma out) (f_zero A))
  /\ drop stakesSize (karma res) = drop stakesSize (karma out)
  /\ length (karma res) = length (karma out).
Proof.
  intros outStart Hrun Hlen. split; [|split].
  - intros u Hu Hnone.
    rewrite (calculate_rank_karma_slot A fuel stakes stakesSize cidsSize linksSize inLinksCount
               outLinksCount outLinksIns inLinksOuts inLinksUsers outLinksUsers dampingFactor
               tolerance out res u Hrun Hu Hlen).
    unfold authored_by. rewrite filter_none; [done|].
    intros [c e] Hv Hauth. cbn [snd] in Hauth. apply elem_of_visits in Hv as [Hc He].
    by apply (Hnone c e Hc He).
  - destruct (calculate_rank_returns A _ _ _ _ _ _ _ _ _ _ _ _ _ _ _ Hrun)
      as (d_rank & d_prev & _ & _ & ->).
    unfold finish. cbn [karma]. apply cudaMemcpy_tail.
    rewrite calculateKarma_length, length_take. lia.
  - destruct (calculate_rank_returns A _ _ _ _ _ _ _ _ _ _ _ _ _ _ _ Hrun)
      as (d_rank & d_prev & _ & _ & ->).
    unfold finish. cbn [karma]. apply cudaMemcpy_length; [|done].
    rewrite calculateKarma_length, length_take. lia.
Qed.

(** X11.  [calculate_rank] overwrites the first [cidsSize] slots of the
    rank and of the light buffer and reads none of them: two invocations
    that differ only in what the caller's rank, entropy and light buffers
    hold return the same ranks, lights and karmas.  The slots of rank and
    light from [cidsSize] on come back as they were. *)
Theorem rank_and_light_buffers_are_write_only (A : Arith) (fuel : nat)
    (stakes : list Z) (stakesSize cidsSize linksSize : nat)
    (inLinksCount outLinksCount outLinksIns inLinksOuts inLinksUsers outLinksUsers : list nat)
    (dampingFactor tolerance : dbl A) (out out' res : Outputs A) :
  calculate_rank A fuel stakes stakesSize cidsSize linksSize inLinksCount outLinksCount
    outLinksIns inLinksOuts inLinksUsers outLinksUsers dampingFactor tolerance out = Some res ->
  karma out' = karma out ->
  (exists res',
     calculate_rank A fuel stakes stakesSize cidsSize linksSize inLinksCount outLinksCount
       outLinksIns inLinksOuts inLinksUsers outLinksUsers dampingFactor tolerance out'
     = Some res'
     /\ take cidsSize (rank res') = take cidsSize (rank res)
     /\ take cidsSize (light res') = take cidsSize (light res)
     /\ karma res' = karma res)
  /\ drop cidsSize (rank res) = drop cidsSize (rank out)
  /\ drop cidsSize (light res) = drop cidsSize (light out).
Proof.
  intros Hrun Hk.
  destruct (calculate_rank_returns A _ _ _ _ _ _ _ _ _ _ _ _ _ _ _ Hrun)
    as (d_rank & d_prev & Hloop & Hlen & ->).
  split; [|split].
  - eexists. split.
    + unfold calculate_rank. cbn [rank]. rewrite take_initial_rank, Hloop. reflexivity.
    + unfold finish. cbn [rank light karma]. rewrite Hk.
      rewrite !cudaMemcpy_head by (rewrite ?mulArrays_length; lia). done.
  - unfold finish. cbn [rank]. rewrite cudaMemcpy_tail by lia.
    rewrite drop_app_length'; [done|]. by rewrite length_replicate.
  - unfold finish. cbn [light]. apply cudaMemcpy_tail. rewrite mulArrays_length. lia.
Qed.

(** X12.  The loop is entered with [change = tolerance + 1.0].  When that
    is not greater than the tolerance (on binary64: the tolerance is NaN,
    +infinity or at least 2^53) no iteration is performed, whatever the
    graph and the fuel: every cid gets the default rank (1 - d) / N. *)
Theorem no_iteration_when_tolerance_absorbs_one (A : Arith) (fuel : nat)
    (stakes : list Z) (stakesSize cidsSize linksSize : nat)
    (inLinksCount outLinksCount outLinksIns inLinksOuts inLinksUsers outLinksUsers : list nat)
    (dampingFactor tolerance : dbl A) (out : Outputs A) :
  let p := prepare A stakes cidsSize linksSize inLinksCount outLinksCount
             inLinksOuts inLinksUsers outLinksUsers dampingFactor in
  f_lt A tolerance (f_add A tolerance (f_one A)) = false ->
  exists res,
    calculate_rank A fuel stakes stakesSize cidsSize linksSize inLinksCount outLinksCount
      outLinksIns inLinksOuts inLinksUsers outLinksUsers dampingFactor tolerance out = Some res
    /\ take cidsSize (rank res) = replicate cidsSize (defaultRank p)
    /\ defaultRank p
       = f_div A (f_sub A (f_one A) dampingFactor) (f_of_u64 A (Z.of_nat cidsSize)).
Proof.
  intros p Hlt. eexists. split; [|split; [|reflexivity]].
  - unfold calculate_rank. cbn [rank]. rewrite take_initial_rank.
    destruct fuel; cbn [rank_loop]; rewrite Hlt; reflexivity.
  - unfold finish. cbn [rank]. rewrite cudaMemcpy_head by (by rewrite length_replicate).
    apply take_ge. by rewrite length_replicate.
Qed.


(** ** Further properties of the loop on binary64 *)



Section ReturnedRanks.

Variable log2 : spec_float -> spec_float.
Local Abbreviation A := (binary64 log2).
Local Abbreviation pzero := (S754_zero false).

Variables (inLinks : list (CompressedInLink spec_float)) (cidsSize : nat).
Variables (start count : list nat) (rc d tol r0 : spec_float).

Hypothesis weights_nonneg : Forall (fun l => nonneg64 (weight l) = true) inLinks.
Hypothesis d_nonneg : nonneg64 d = true.
Hypothesis d_finite : level d < inf_level.
Hypothesis rc_nonneg : nonneg64 rc = true.
Hypothesis r0_nonneg : nonneg64 r0 = true.
Hypothesis r0_zero : r0 = pzero -> zero_or_nan rc = true.

(** The loop returns buffers that satisfy the invariant it was entered
    with. *)
Lemma rank_loop_keeps_invariant fuel cur prev change r q :
  loop_invariant
    (fun x c => SFadd 53 1024 (SFmul 53 1024 (ksum_of A inLinks x start count c) d) rc)
    cidsSize count r0 cur prev ->
  rank_loop A fuel inLinks cidsSize start count rc d tol cur prev change = Some (r, q) ->
  loop_invariant
    (fun x c => SFadd 53 1024 (SFmul 53 1024 (ksum_of A inLinks x start count c) d) rc)
    cidsSize count r0 r q.
Proof.
  revert cur prev change. induction fuel as [|fuel IH]; intros cur prev change HI;
    cbn [rank_loop]; destruct (f_lt A tol change); try discriminate;
    try (intros [= <- <-]; exact HI).
  apply IH. by apply invariant_step.
Qed.

End ReturnedRanks.

(** X15.  On binary64, for stakes that are not negative and a damping
    factor 0 <= d <= 1, the ranks [calculate_rank] returns are never
    negative and never below the default rank (1 - d) / N: the rank of
    every cid is canonical non-negative data (a NaN at worst), and when it
    is a number it is at least the default rank. *)
Theorem returned_ranks_are_at_least_the_default_rank
    (log2 : spec_float -> spec_float) (fuel : nat)
    (stakes : list Z) (stakesSize cidsSize linksSize : nat)
    (inLinksCount outLinksCount outLinksIns inLinksOuts inLinksUsers outLinksUsers : list nat)
    (dampingFactor tolerance : spec_float) (out res : Outputs (binary64 log2)) (c : nat) :
  let p := prepare (binary64 log2) stakes cidsSize linksSize inLinksCount outLinksCount
             inLinksOuts inLinksUsers outLinksUsers dampingFactor in
  Forall (fun s => 0 <= s) stakes ->
  nonneg64 dampingFactor = true ->
  SFleb dampingFactor (b64_of_Z 1) = true ->
  calculate_rank (binary64 log2) fuel stakes stakesSize cidsSize linksSize inLinksCount
    outLinksCount outLinksIns inLinksOuts inLinksUsers outLinksUsers dampingFactor tolerance out
  = Some res ->
  (c < cidsSize)%nat ->
  nonneg64 (nth c (rank res) (S754_zero false)) = true
  /\ SFltb (nth c (rank res) (S754_zero false)) (S754_zero false) = false
  /\ (is_nan (nth c (rank res) (S754_zero false)) = false ->
      SFleb (defaultRank p) (nth c (rank res) (S754_zero false)) = true).
Proof.
  intros p Hstakes Hd Hd1 Hrun Hc.
  destruct (calculate_rank_returns (binary64 log2) _ _ _ _ _ _ _ _ _ _ _ _ _ _ _ Hrun)
    as (d_rank & d_prev & Hloop & Hlen & ->).
  fold p in Hloop |- *.
  destruct (prepared_defaults_nonneg log2 stakes cidsSize linksSize inLinksCount outLinksCount
              inLinksOuts inLinksUsers outLinksUsers dampingFactor Hd Hd1)
    as (Hr0 & Hrc & Hle & Hz).
  fold p in Hr0, Hrc, Hle, Hz.
  pose proof (prepared_weights_nonneg log2 stakes cidsSize linksSize inLinksCount outLinksCount
                inLinksOuts inLinksUsers outLinksUsers dampingFactor Hstakes) as Hw.
  fold p in Hw.
  pose proof (damping_finite dampingFactor Hd Hd1) as Hfin.
  assert (HI : loop_invariant
                 (fun x c =>
                    SFadd 53 1024
                      (SFmul 53 1024
                         (ksum_of (binary64 log2) (d_compressedInLinks p) x
                            (d_compressedInLinksStartIndex p) (d_compressedInLinksCount p) c)
                         dampingFactor)
                      (defaultRankWithCorrection_h p))
                 cidsSize (d_compressedInLinksCount p) (defaultRank p) d_rank d_prev).
  { eapply (rank_loop_keeps_invariant log2); try eassumption.
    apply invariant_initial; assumption. }
  destruct HI as (_ & _ & HI). destruct (HI c Hc) as (Ha & Hb & Hra & Hab & _).
  cbv zeta in *. unfold finish. cbn [rank].
  rewrite cudaMemcpy_nth by lia.
  change (dbl (binary64 log2)) with spec_float in *.
  set (x := nth c d_rank (S754_zero false)) in *. clearbody x.
  split; [exact Hb|]. split.
  - clear -Hb. by destruct x as [[]|[]| |[] ? ?].
  - intros Hn. apply level_le_SFleb; try done; [|lia].
    pose proof inf_level_pos. pose proof (level_range _ Hb).
    destruct x as [[]|[]| |[] m e]; try discriminate Hn; try discriminate Hb; cbn [level]; try lia.
    apply Z.lt_le_incl, (finite_level m e Hb).
Qed.

(** ** The S_i, Q_j and chi stage *)

(** A loop over cids whose inner loop rewrites the slot of its cid from
    that slot alone leaves in every slot the inner loop of its cid, run
    from what the slot held. *)
Lemma fold_own_slot {T : Type} (g : nat -> nat -> T -> T) (js : nat -> list nat)
    (cids : list nat) (arr : list T) (c : nat) (d : T) :
  NoDup cids -> (c < length arr)%nat ->
  length (fold_left (fun a i => fold_left (fun a j => <[i := g i j (nth i a d)]> a) (js i) a)
            cids arr) = length arr
  /\ nth c (fold_left (fun a i => fold_left (fun a j => <[i := g i j (nth i a d)]> a) (js i) a)
              cids arr) d
     = if decide (c ∈ cids) then fold_left (fun x j => g c j x) (js c) (nth c arr d)
       else nth c arr d.
Proof.
  assert (Hin : forall i l (a : list T),
            length (fold_left (fun a j => <[i := g i j (nth i a d)]> a) l a) = length a
            /\ nth c (fold_left (fun a j => <[i := g i j (nth i a d)]> a) l a) d
               = if decide (c = i)
                 then (if decide (c < length a)%nat
                       then fold_left (fun x j => g c j x) l (nth c a d) else nth c a d)
                 else nth c a d).
  { intros i l. induction l as [|j l IH]; intros a; cbn [fold_left].
    - split; [done|]. by repeat destruct (decide _).
    - destruct (IH (<[i := g i j (nth i a d)]> a)) as [IH1 IH2].
      rewrite IH1, IH2, length_insert. split; [done|].
      destruct (decide (c = i)) as [->|Hne].
      + destruct (decide (i < length a)%nat) as [Hlt|Hge].
        * by rewrite nth_lookup, list_lookup_insert_eq by done.
        * rewrite nth_overflow by (rewrite length_insert; lia). by rewrite nth_overflow by lia.
      + by rewrite nth_lookup, list_lookup_insert_ne, <- nth_lookup by done. }
  intros Hnd. revert arr. induction Hnd as [|i cids Hi Hnd IH]; intros arr Hc; cbn [fold_left].
  - split; [done|]. rewrite decide_False; [done|]. apply not_elem_of_nil.
  - destruct (Hin i (js i) arr) as [H1 H2].
    destruct (IH (fold_left (fun a j => <[i := g i j (nth i a d)]> a) (js i) arr)
                ltac:(rewrite H1; exact Hc)) as [IH1 IH2].
    rewrite IH1, IH2, H1, H2. split; [done|].
    destruct (decide (c = i)) as [->|Hne].
    + rewrite (decide_False (P := i ∈ cids)) by done.
      rewrite (decide_True (P := (i < length arr)%nat)) by done.
      rewrite decide_True; [done|by left].
    + destruct (decide (c ∈ cids)) as [Hin'|Hnin].
      * rewrite decide_True; [done|by right].
      * rewrite decide_False; [done|]. intros Hc'. apply elem_of_cons in Hc' as [?|?]; done.
Qed.

Section DiagnosticKernels.

Variable A : Arith.
Local Abbreviation D := (dbl A).
Local Notation "0.0" := (f_zero A).

Lemma calculate_QJ_slot cidsSize start count outs (si : list D) (damping : D) (qj : list D) c :
  (c < cidsSize)%nat -> (c < length qj)%nat ->
  nth c (calculate_QJ A cidsSize start count outs si damping qj) 0.0
  = fold_left (fun acc j => f_add A acc (f_mul A damping (nth (nth j outs 0%nat) si 0.0)))
      (links_of start count c) (nth c qj 0.0).
Proof.
  intros Hc Hlen. unfold calculate_QJ.
  destruct (fold_own_slot
              (fun i j x => f_add A x (f_mul A damping (nth (nth j outs 0%nat) si 0.0)))
              (links_of start count) (seq 0 cidsSize) qj c 0.0 (NoDup_seq _ _) Hlen)
    as [_ ->].
  rewrite decide_True; [done|]. apply elem_of_seq. lia.
Qed.

Lemma calculate_QJ_length cidsSize start count outs (si : list D) (damping : D) (qj : list D) :
  length (calculate_QJ A cidsSize start count outs si damping qj) = length qj.
Proof.
  unfold calculate_QJ. generalize (seq 0 cidsSize). intros cids. revert qj.
  induction cids as [|i cids IH]; intros qj; cbn [fold_left]; [done|].
  rewrite IH. generalize (links_of start count i). intros js. revert qj.
  induction js as [|j js IHj]; intros qj; cbn [fold_left]; [done|].
  by rewrite IHj, length_insert.
Qed.

Lemma calculate_ENT_slot (fabs : D -> D) cidsSize start count outs (si qj ent : list D) c :
  (c < length ent)%nat ->
  length (calculate_ENT A fabs cidsSize start count outs si qj ent) = length ent
  /\ nth c (calculate_ENT A fabs cidsSize start count outs si qj ent) 0.0
     = if decide (c < cidsSize)%nat
       then fold_left
              (fun acc j =>
                 let weight := f_div A (nth c si 0.0) (nth (nth j outs 0%nat) qj 0.0) in
                 f_add A acc (fabs (f_mul A weight (f_log2 A weight))))
              (links_of start count c) (nth c ent 0.0)
       else nth c ent 0.0.
Proof.
  intros Hlen. unfold calculate_ENT.
  destruct (fold_own_slot
              (fun i j x =>
                 let weight := f_div A (nth i si 0.0) (nth (nth j outs 0%nat) qj 0.0) in
                 f_add A x (fabs (f_mul A weight (f_log2 A weight))))
              (links_of start count) (seq 0 cidsSize) ent c 0.0 (NoDup_seq _ _) Hlen)
    as [Hl Hn].
  split; [exact Hl|]. etransitivity; [exact Hn|].
  destruct (decide (c ∈ seq 0 cidsSize)) as [Hin|Hnin];
    destruct (decide (c < cidsSize)%nat) as [Hlt|Hge]; try done.
  - apply elem_of_seq in Hin. lia.
  - exfalso. apply Hnin, elem_of_seq. lia.
Qed.

Lemma calculate_ENT_length (fabs : D -> D) cidsSize start count outs (si qj ent : list D) :
  length (calculate_ENT A fabs cidsSize start count outs si qj ent) = length ent.
Proof.
  unfold calculate_ENT. generalize (seq 0 cidsSize). intros cids. revert ent.
  induction cids as [|i cids IH]; intros ent; cbn [fold_left]; [done|].
  rewrite IH. generalize (links_of start count i). intros js. revert ent.
  induction js as [|j js IHj]; intros ent; cbn [fold_left]; [done|].
  cbv zeta. by rewrite IHj, length_insert.
Qed.

End DiagnosticKernels.



(** X17.  Q_j of a cid is the sum of two accumulations from 0.0: over
    its outbound links, 0.2f times the S_i of the link's target, and over
    its inbound links, 0.8f times the S_i of the link's source.  The two
    [float] constants add up to more than 1.0 in [double]. *)
Theorem Q_j_adds_both_views (log2 : spec_float -> spec_float)
    (stakes : list Z) (cidsSize linksSize : nat)
    (inLinksCount outLinksCount outLinksIns inLinksOuts inLinksUsers outLinksUsers : list nat)
    (dampingFactor : spec_float) (i : nat) :
  let dg := diagnostics log2 stakes cidsSize linksSize inLinksCount outLinksCount outLinksIns
              inLinksOuts inLinksUsers outLinksUsers dampingFactor in
  let inStart := fst (getLinksStartIndex cidsSize inLinksCount) in
  let outStart := fst (getLinksStartIndex cidsSize outLinksCount) in
  let acc (c : spec_float) (targets : list nat) (q : spec_float) (j : nat) :=
    SFadd 53 1024 q
      (SFmul 53 1024 c (nth (nth j targets 0%nat) (d_si dg) (S754_zero false))) in
  (i < cidsSize)%nat ->
  nth i (d_qj_sum dg) (S754_zero false)
  = SFadd 53 1024
      (fold_left (acc float_0_2 outLinksIns) (links_of outStart outLinksCount i)
         (S754_zero false))
      (fold_left (acc float_0_8 inLinksOuts) (links_of inStart inLinksCount i)
         (S754_zero false))
  /\ SFltb (b64_of_Z 1) (SFadd 53 1024 float_0_8 float_0_2) = true.
Proof.
  intros dg inStart outStart acc Hi. split; [|reflexivity].
  subst dg. unfold diagnostics. cbn [d_qj_sum d_si].
  unfold sumArrays. rewrite (nth_lookup (map _ _)), list_lookup_fmap, lookup_seq_lt by done.
  cbn [fmap option_fmap option_map default Nat.add f_add f_zero binary64].
  rewrite !(calculate_QJ_slot (binary64 log2)) by (rewrite ?length_replicate; done).
  rewrite !nth_replicate_lt by done. reflexivity.
Qed.

(** The two-author graph. *)
Lemma Q_j_adds_both_views_witness :
  let dg := diagnostics log2_floor [1; 1] 2 2 [0; 2]%nat [2; 0]%nat [1; 1]%nat [0; 0]%nat
              [0; 1]%nat [0; 1]%nat Scenario.half in
  let inStart := fst (getLinksStartIndex 2 [0; 2]%nat) in
  let outStart := fst (getLinksStartIndex 2 [2; 0]%nat) in
  let acc (c : spec_float) (targets : list nat) (q : spec_float) (j : nat) :=
    SFadd 53 1024 q
      (SFmul 53 1024 c (nth (nth j targets 0%nat) (d_si dg) (S754_zero false))) in
  nth 1 (d_qj_sum dg) (S754_zero false)
  = SFadd 53 1024
      (fold_left (acc float_0_2 [1; 1]%nat) (links_of outStart [2; 0]%nat 1) (S754_zero false))
      (fold_left (acc float_0_8 [0; 0]%nat) (links_of inStart [0; 2]%nat 1) (S754_zero false))
  /\ SFltb (b64_of_Z 1) (SFadd 53 1024 float_0_8 float_0_2) = true.
Proof.
  apply (Q_j_adds_both_views log2_floor [1; 1] 2 2 [0; 2]%nat [2; 0]%nat [1; 1]%nat
           [0; 0]%nat [0; 1]%nat [0; 1]%nat Scenario.half 1). lia.
Defined.

Lemma binary_round_aux_sign M e l :
  SFltb (binary_round_aux 53 1024 false M e l) (S754_zero false) = false.
Proof.
  unfold binary_round_aux. destruct (shr_fexp 53 1024 M e l) as [mrs e'].
  destruct (shr_fexp 53 1024 _ e' loc_Exact) as [mrs' e''].
  destruct (shr_m mrs'); [done| |done]. by destruct (e'' <=? 1024 - 53).
Qed.

Lemma SFadd_SFabs_sign x y :
  SFltb x (S754_zero false) = false ->
  SFltb (SFadd 53 1024 x (SFabs y)) (S754_zero false) = false.
Proof.
  intros Hx. destruct x as [sx|[]| |[] mx ex]; try discriminate Hx;
    destruct y as [sy|sy| |sy my ey]; cbn [SFabs SFadd]; try done;
    try (by destruct sx).
  cbn [cond_Zopp]. cbv zeta. rewrite <- Pos2Z.inj_add. cbn [binary_normalize].
  unfold binary_round. destruct (shl_align (_ + _) _ _) as [mz ez].
  apply binary_round_aux_sign.
Qed.

(** X18.  The chi entropy is accumulated from 0.0 with [fabs] terms, first
    over the inbound and then over the outbound links of a cid: no slot of
    it is ever below 0 (a slot is a number that is not negative, or NaN),
    whatever the logarithm returns. *)
Theorem chi_entropy_is_never_negative (log2 : spec_float -> spec_float)
    (stakes : list Z) (cidsSize linksSize : nat)
    (inLinksCount outLinksCount outLinksIns inLinksOuts inLinksUsers outLinksUsers : list nat)
    (dampingFactor : spec_float) :
  let dg := diagnostics log2 stakes cidsSize linksSize inLinksCount outLinksCount outLinksIns
              inLinksOuts inLinksUsers outLinksUsers dampingFactor in
  length (d_ent_chi dg) = cidsSize
  /\ forall i, SFltb (nth i (d_ent_chi dg) (S754_zero false)) (S754_zero false) = false.
Proof.
  intros dg. subst dg. unfold diagnostics. cbn [d_ent_chi].
  set (A := binary64 log2).
  set (p := prepare A stakes cidsSize linksSize inLinksCount outLinksCount inLinksOuts
              inLinksUsers outLinksUsers dampingFactor).
  set (si := calculate_SI A cidsSize _ _ dampingFactor).
  set (qj := sumArrays A cidsSize _ _).
  set (ent1 := calculate_ENT A SFabs cidsSize (inLinksStartIndex_h p) inLinksCount inLinksOuts
                 si qj (replicate cidsSize (S754_zero false))).
  assert (Hfold : forall (c : nat) (outs js : list nat) (x : spec_float),
            SFltb x (S754_zero false) = false ->
            SFltb
              (fold_left
                 (fun acc j =>
                    let weight :=
                      f_div A (nth c si (f_zero A)) (nth (nth j outs 0%nat) qj (f_zero A)) in
                    f_add A acc (SFabs (f_mul A weight (f_log2 A weight))))
                 js x) (S754_zero false) = false).
  { intros c outs js. induction js as [|j js IH]; intros x Hx; cbn [fold_left]; [done|].
    apply IH. cbv zeta. cbn [f_add A binary64]. by apply SFadd_SFabs_sign. }
  assert (Hstep : forall start count outs (ent : list spec_float),
            length ent = cidsSize ->
            (forall i, SFltb (nth i ent (S754_zero false)) (S754_zero false) = false) ->
            length (calculate_ENT A SFabs cidsSize start count outs si qj ent) = cidsSize
            /\ forall i, SFltb (nth i (calculate_ENT A SFabs cidsSize start count outs si qj ent)
                                  (S754_zero false)) (S754_zero false) = false).
  { intros start count outs ent Hlen Hent.
    assert (Hl : length (calculate_ENT A SFabs cidsSize start count outs si qj ent) = cidsSize).
    { rewrite <- Hlen. apply (calculate_ENT_length A). }
    split; [exact Hl|]. intros i. destruct (lt_dec i cidsSize) as [Hi|Hi].
    - destruct (calculate_ENT_slot A SFabs cidsSize start count outs si qj ent i
                  ltac:(change (dbl A) with spec_float; lia)) as [_ Hn].
      change (f_zero A) with (S754_zero false) in Hn. rewrite Hn.
      rewrite decide_True by done. by apply Hfold.
    - rewrite nth_overflow; [done|]. change (dbl A) with spec_float in Hl |- *. lia. }
  destruct (Hstep (inLinksStartIndex_h p) inLinksCount inLinksOuts
              (replicate cidsSize (S754_zero false)) (length_replicate _ _))
    as [Hl1 Hs1].
  { intros i. destruct (lt_dec i cidsSize).
    - by rewrite nth_replicate_lt.
    - rewrite nth_overflow; [done|]. rewrite length_replicate. lia. }
  fold ent1 in Hl1, Hs1.
  exact (Hstep (outLinksStartIndex_h p) outLinksCount outLinksIns ent1 Hl1 Hs1).
Qed.

(** X19.  A cid with no inbound and no outbound link has the entropy
    0.0 + 0.0 on the device, so on binary64 its light, rank * +0, is a
    zero, or NaN when its rank is infinite or NaN. *)
Theorem linkless_cid_has_no_light (log2 : spec_float -> spec_float) (fuel : nat)
    (stakes : list Z) (stakesSize cidsSize linksSize : nat)
    (inLinksCount outLinksCount outLinksIns inLinksOuts inLinksUsers outLinksUsers : list nat)
    (dampingFactor tolerance : spec_float) (out res : Outputs (binary64 log2)) (c : nat) :
  let p := prepare (binary64 log2) stakes cidsSize linksSize inLinksCount outLinksCount
             inLinksOuts inLinksUsers outLinksUsers dampingFactor in
  calculate_rank (binary64 log2) fuel stakes stakesSize cidsSize linksSize inLinksCount
    outLinksCount outLinksIns inLinksOuts inLinksUsers outLinksUsers dampingFactor tolerance out
  = Some res ->
  (c < cidsSize)%nat ->
  nth c inLinksCount 0%nat = 0%nat ->
  nth c outLinksCount 0%nat = 0%nat ->
  nth c (d_entropy p) (S754_zero false) = S754_zero false
  /\ (SFeqb (nth c (light res) (S754_zero false)) (S754_zero false) = true
      \/ is_nan (nth c (light res) (S754_zero false)) = true).
Proof.
  intros p Hrun Hc Hin Hout.
  destruct (light_slot_of_run (binary64 log2) fuel stakes stakesSize cidsSize linksSize
              inLinksCount outLinksCount outLinksIns inLinksOuts inLinksUsers outLinksUsers
              dampingFactor tolerance out res c Hrun Hc) as [Hl He].
  cbv zeta in Hl, He. fold p in Hl, He.
  assert (He0 : nth c (d_entropy p) (S754_zero false) = S754_zero false).
  { etransitivity; [exact He|]. unfold links_of. rewrite Hin, Hout. reflexivity. }
  split; [exact He0|].
  change (f_zero (binary64 log2)) with (S754_zero false) in Hl.
  change (dbl (binary64 log2)) with spec_float in *.
  rewrite Hl, He0. cbn [f_mul binary64].
  match goal with |- context [SFmul _ _ ?x _] => generalize x end.
  intros [[]|[]| |[] m e]; cbn; auto.
Qed.

(** The two-author graph with a third cid that has no link. *)
Lemma linkless_cid_has_no_light_witness :
  let p := prepare Scenario.B [1; 1] 3 2 [0; 2; 0]%nat [2; 0; 0]%nat [0; 0]%nat [0; 1]%nat
             [0; 1]%nat Scenario.half in
  let res := Build_Outputs Scenario.B
               [S754_finite false 6004799503160661 (-55);
                S754_finite false 5504399544563939 (-54);
                S754_finite false 6004799503160661 (-55)]
               [Scenario.pzero; Scenario.pzero; Scenario.pzero]
               [S754_finite false 6004799503160661 (-55);
                S754_finite false 5504399544563939 (-54); Scenario.pzero]
               [S754_finite false 6004799503160661 (-56);
                S754_finite false 6004799503160661 (-56)] in
  nth 2 (d_entropy p) (S754_zero false) = S754_zero false
  /\ (SFeqb (nth 2 (light res) (S754_zero false)) (S754_zero false) = true
      \/ is_nan (nth 2 (light res) (S754_zero false)) = true).
Proof.
  apply (linkless_cid_has_no_light log2_floor 20 [1; 1] 2 3 2 [0; 2; 0]%nat [2; 0; 0]%nat
           [1; 1]%nat [0; 0]%nat [0; 1]%nat [0; 1]%nat Scenario.half Scenario.half
           (Scenario.zeroed log2_floor 3 2)).
  - apply Some_outputs_eq. vm_compute. reflexivity.
  - lia.
  - reflexivity.
  - reflexivity.
Defined.

Lemma light_is_rank_times_device_entropy_witness :
  let p := prepare Scenario.B [1; 1; 5] 2 2 [0; 2]%nat [2; 0]%nat [0; 0]%nat [0; 1]%nat
             [0; 1]%nat Scenario.half in
  let outStart := fst (getLinksStartIndex 2 [2; 0]%nat) in
  let inStart := fst (getLinksStartIndex 2 [0; 2]%nat) in
  let oil := u64 (nth 1%nat (d_cidsTotalOutStakes p) 0 + nth 1%nat (d_cidsTotalInStakes p) 0) in
  nth 1 (light Example.res) (f_zero Scenario.B)
  = f_mul Scenario.B (nth 1 (rank Example.res) (f_zero Scenario.B))
      (nth 1 (d_entropy p) (f_zero Scenario.B))
  /\ nth 1 (d_entropy p) (f_zero Scenario.B)
     = f_add Scenario.B
         (fold_left (entropy_step Scenario.B [1; 1; 5] [0; 1]%nat oil)
            (links_of outStart [2; 0]%nat 1) (f_zero Scenario.B))
         (fold_left (entropy_step Scenario.B [1; 1; 5] [0; 1]%nat oil)
            (links_of inStart [0; 2]%nat 1) (f_zero Scenario.B)).
Proof.
  apply (light_is_rank_times_device_entropy Scenario.B 10 [1; 1; 5] 3 2 2 [0; 2]%nat
           [2; 0]%nat [1; 1]%nat [0; 0]%nat [0; 1]%nat [0; 1]%nat Scenario.half Scenario.half
           Example.out Example.res 1).
  - apply Some_outputs_eq. vm_compute. reflexivity.
  - lia.
Defined.

(** User 2 authored no link. *)
Lemma karma_without_links_is_returned_unchanged_witness :
  let outStart := fst (getLinksStartIndex 2 [2; 0]%nat) in
  (forall u, (u < 3)%nat ->
     (forall c e, (c < 2)%nat -> e ∈ links_of outStart [2; 0]%nat c ->
                  nth e [0; 1]%nat 0%nat <> u) ->
     nth u (karma Example.res) (f_zero Scenario.B)
     = nth u (karma Example.out) (f_zero Scenario.B))
  /\ drop 3 (karma Example.res) = drop 3 (karma Example.out)
  /\ length (karma Example.res) = length (karma Example.out).
Proof.
  apply (karma_without_links_is_returned_unchanged Scenario.B 10 [1; 1; 5] 3 2 2 [0; 2]%nat
           [2; 0]%nat [1; 1]%nat [0; 0]%nat [0; 1]%nat [0; 1]%nat Scenario.half Scenario.half
           Example.out Example.res).
  - apply Some_outputs_eq. vm_compute. reflexivity.
  - cbn. lia.
Defined.

Lemma rank_and_light_buffers_are_write_only_witness :
  (exists res',
     Example.run Example.out' = Some res'
     /\ take 2 (rank res') = take 2 (rank Example.res)
     /\ take 2 (light res') = take 2 (light Example.res)
     /\ karma res' = karma Example.res)
  /\ drop 2 (rank Example.res) = drop 2 (rank Example.out)
  /\ drop 2 (light Example.res) = drop 2 (light Example.out).
Proof.
  apply (rank_and_light_buffers_are_write_only Scenario.B 10 [1; 1; 5] 3 2 2 [0; 2]%nat
           [2; 0]%nat [1; 1]%nat [0; 0]%nat [0; 1]%nat [0; 1]%nat Scenario.half Scenario.half
           Example.out Example.out' Example.res).
  - apply Some_outputs_eq. vm_compute. reflexivity.
  - reflexivity.
Defined.

(** A NaN tolerance. *)
Lemma no_iteration_when_tolerance_absorbs_one_witness :
  let p := prepare Scenario.B [1; 1] 2 2 [0; 2]%nat [2; 0]%nat [0; 0]%nat [0; 1]%nat
             [0; 1]%nat Scenario.half in
  exists res,
    calculate_rank Scenario.B 10 [1; 1] 2 2 2 [0; 2]%nat [2; 0]%nat [1; 1]%nat [0; 0]%nat
      [0; 1]%nat [0; 1]%nat Scenario.half S754_nan (Scenario.zeroed log2_floor 2 2) = Some res
    /\ take 2 (rank res) = replicate 2 (defaultRank p)
    /\ defaultRank p
       = f_div Scenario.B (f_sub Scenario.B (f_one Scenario.B) Scenario.half)
           (f_of_u64 Scenario.B (Z.of_nat 2)).
Proof.
  apply (no_iteration_when_tolerance_absorbs_one Scenario.B 10 [1; 1] 2 2 2 [0; 2]%nat
           [2; 0]%nat [1; 1]%nat [0; 0]%nat [0; 1]%nat [0; 1]%nat Scenario.half S754_nan
           (Scenario.zeroed log2_floor 2 2)).
  reflexivity.
Defined.


Lemma returned_ranks_are_at_least_the_default_rank_witness :
  let p := prepare Scenario.B [1; 1; 5] 2 2 [0; 2]%nat [2; 0]%nat [0; 0]%nat [0; 1]%nat
             [0; 1]%nat Scenario.half in
  nonneg64 (nth 1 (rank Example.res) (S754_zero false)) = true
  /\ SFltb (nth 1 (rank Example.res) (S754_zero false)) (S754_zero false) = false
  /\ (is_nan (nth 1 (rank Example.res) (S754_zero false)) = false ->
      SFleb (defaultRank p) (nth 1 (rank Example.res) (S754_zero false)) = true).
Proof.
  apply (returned_ranks_are_at_least_the_default_rank log2_floor 10 [1; 1; 5] 3 2 2
           [0; 2]%nat [2; 0]%nat [1; 1]%nat [0; 0]%nat [0; 1]%nat [0; 1]%nat Scenario.half
           Scenario.half Example.out Example.res 1).
  - repeat constructor; lia.
  - reflexivity.
  - vm_compute. reflexivity.
  - apply Some_outputs_eq. vm_compute. reflexivity.
  - lia.
Defined.
